(** * bogglesolver: the word-search engine, embedded and verified

    A shallow embedding of package [solver] (solver.go, trie.go): the
    adjacency model, the dictionary loader, the breadth-first search of
    [Solver.Solve], the result normaliser and the grid renderer.

    Conventions.
    - A Go [string] is a byte sequence: [String.string], one [ascii] per byte.
    - A Go [int] is a 64-bit two's-complement integer: a [Z] together with
      the wrap-around of every arithmetic operation ([GoInt]).
    - A Go slice that is never aliased is a [list]; [append] is [++].
    - A call either returns, panics, or (for the one unbounded loop, which is
      run on fuel) does not finish: type [outcome]. *)

From Stdlib Require Import ZArith List String Ascii Bool Lia.
From Stdlib Require Import Sorting.Sorted Sorting.Permutation Relations.
From Stdlib Require Import Structures.OrderedTypeEx.
Import ListNotations.

Local Open Scope string_scope.
Local Open Scope list_scope.
Local Open Scope Z_scope.

Set Implicit Arguments.

(** ** Outcomes of a call *)

Inductive outcome (A : Type) : Type :=
| Done (a : A)           (* the call returns [a] *)
| Panic (msg : string)   (* a run-time panic unwinds the call *)
| Diverge.               (* the fuel of a loop ran out before it finished *)

Arguments Done {A} a.
Arguments Panic {A} msg.
Arguments Diverge {A}.

Definition bind {A B : Type} (m : outcome A) (k : A -> outcome B) : outcome B :=
  match m with
  | Done a => k a
  | Panic msg => Panic msg
  | Diverge => Diverge
  end.

Notation "x <- m ;; k" := (bind m (fun x => k))
  (at level 61, m at next level, right associativity).
Notation "' p <- m ;; k" := (bind m (fun p => k))
  (at level 61, p pattern, m at next level, right associativity).

(** A Go function returning [(T, error)]. *)
Inductive result (A : Type) : Type :=
| Ok (a : A)
| Err (msg : string).

Arguments Ok {A} a.
Arguments Err {A} msg.

(** ** Go's [int] *)

Module GoInt.

Definition min_int : Z := - 2 ^ 63.
Definition max_int : Z := 2 ^ 63 - 1.

Definition wrap (z : Z) : Z := (z + 2 ^ 63) mod 2 ^ 64 - 2 ^ 63.

Definition add (a b : Z) : Z := wrap (a + b).
Definition sub (a b : Z) : Z := wrap (a - b).
Definition mul (a b : Z) : Z := wrap (a * b).
(** [a / b] truncates toward zero; the caller checks [b <> 0]. *)
Definition quo (a b : Z) : Z := wrap (Z.quot a b).

Definition in_range (z : Z) : Prop := min_int <= z <= max_int.

End GoInt.

(** ** Bytes and strings *)

(** The numeric value of a byte, as in the conversion [int(word[0])]. *)
Definition byte_val (c : ascii) : Z := Z.of_N (N_of_ascii c).

(** [len(s)]. *)
Definition len (s : string) : Z := Z.of_nat (String.length s).

(** The byte at index [i], if [0 <= i < len(s)]. *)
Definition byte_at (s : string) (i : Z) : option ascii :=
  if i <? 0 then None else String.get (Z.to_nat i) s.

(** [s[i]]: indexing panics outside [0 <= i < len(s)]. *)
Definition at_index (s : string) (i : Z) : outcome ascii :=
  match byte_at s i with
  | Some c => Done c
  | None => Panic "index out of range"
  end.

(** A Go string lives in memory: its length is an [int], and far below the
    range of [int] (the allocator of the 64-bit runtime caps an object at
    2^48 bytes). *)
Definition max_alloc : Z := 2 ^ 48.
Definition go_string (s : string) : Prop := len s <= max_alloc.

Definition is_ascii_byte (c : ascii) : bool := byte_val c <? 128.

Fixpoint is_ascii (s : string) : bool :=
  match s with
  | EmptyString => true
  | String c s' => is_ascii_byte c && is_ascii s'
  end.

Definition lower_byte (c : ascii) : ascii :=
  if (65 <=? byte_val c) && (byte_val c <=? 90)
  then ascii_of_N (N_of_ascii c + 32) else c.

Definition upper_byte (c : ascii) : ascii :=
  if (97 <=? byte_val c) && (byte_val c <=? 122)
  then ascii_of_N (N_of_ascii c - 32) else c.

Fixpoint map_bytes (f : ascii -> ascii) (s : string) : string :=
  match s with
  | EmptyString => EmptyString
  | String c s' => String (f c) (map_bytes f s')
  end.

(** *** Unicode

    On a string of ASCII bytes [strings.ToLower] and [strings.ToUpper] map
    byte by byte, and [range] yields one rune per byte.  On a string that
    holds a byte above 127 Go decodes UTF-8 and maps code points through its
    Unicode tables, which can change the byte length.  The tables are not
    part of the engine: what they give on such strings is a parameter. *)
Class Unicode : Type := {
  unicodeToLower : string -> string;  (* strings.ToLower, non-ASCII string *)
  unicodeToUpper : string -> string;  (* strings.ToUpper, non-ASCII string *)
  unicodeRunes : string -> list Z     (* the runes of [range s], non-ASCII s *)
}.

Definition ToLower {U : Unicode} (s : string) : string :=
  if is_ascii s then map_bytes lower_byte s else unicodeToLower s.

Definition ToUpper {U : Unicode} (s : string) : string :=
  if is_ascii s then map_bytes upper_byte s else unicodeToUpper s.

(** One rune per byte. *)
Definition byte_runes (s : string) : list Z :=
  map byte_val (list_ascii_of_string s).

(** The runes of [for _, c := range s]. *)
Definition runes {U : Unicode} (s : string) : list Z :=
  if is_ascii s then byte_runes s else unicodeRunes s.

(** An interpretation for closed examples.  The examples are ASCII strings,
    on which its fields are not consulted. *)
Definition ascii_only : Unicode :=
  {| unicodeToLower := fun s => s;
     unicodeToUpper := fun s => s;
     unicodeRunes := fun _ => [] |}.

(** ** Adjacency model (solver.go, calculateAdjacency) *)

(** The package-level buffer [adj] (capacity 8) is cleared and refilled by
    every call; at most eight cells are appended, so it is never
    reallocated.  The caller reads the returned slice before the next call,
    hence the value read is the list built here. *)
Definition calculateAdjacency (xlim ylim sq : Z) : outcome (list Z) :=
  if xlim =? 0 then Panic "integer divide by zero" else
  let y := GoInt.quo sq xlim in
  let x := GoInt.sub sq (GoInt.mul y xlim) in
  let adj := [] in
  (* row above *)
  let adj :=
    if 0 <=? GoInt.sub y 1 then
      let above := GoInt.sub sq xlim in
      let adj := if 0 <=? GoInt.sub x 1 then adj ++ [GoInt.sub above 1] else adj in
      let adj := adj ++ [above] in
      if GoInt.add x 1 <? xlim then adj ++ [GoInt.add above 1] else adj
    else adj in
  (* same row *)
  let adj := if 0 <=? GoInt.sub x 1 then adj ++ [GoInt.sub sq 1] else adj in
  let adj := if GoInt.add x 1 <? xlim then adj ++ [GoInt.add sq 1] else adj in
  (* row below *)
  let adj :=
    if GoInt.add y 1 <? ylim then
      let below := GoInt.add sq xlim in
      let adj := if 0 <=? GoInt.sub x 1 then adj ++ [GoInt.sub below 1] else adj in
      let adj := adj ++ [below] in
      if GoInt.add x 1 <? xlim then adj ++ [GoInt.add below 1] else adj
    else adj in
  Done adj.

(** The adjacency contract in the specification's words: the eight
    directions in the order above-left, above, above-right, left, right,
    below-left, below, below-right, keeping the cells inside
    [[0, columns) x [0, rows)], on a row-major grid. *)
Module AdjacencySpec.

Definition directions : list (Z * Z) :=
  [(-1, -1); (0, -1); (1, -1); (-1, 0); (1, 0); (-1, 1); (0, 1); (1, 1)].

Definition column (columns cell : Z) : Z := cell mod columns.
Definition row (columns cell : Z) : Z := cell / columns.

Definition inside (columns rows : Z) (xy : Z * Z) : bool :=
    (0 <=? fst xy) && (fst xy <? columns) && (0 <=? snd xy) && (snd xy <? rows).

Definition Neighbors (columns rows cell : Z) : list Z :=
    let x := column columns cell in
    let y := row columns cell in
    map (fun xy => snd xy * columns + fst xy)
        (filter (inside columns rows)
                (map (fun d => (x + fst d, y + snd d)) directions)).

Definition on_column_border (columns cell : Z) : bool :=
    (column columns cell =? 0) || (column columns cell =? columns - 1).
Definition on_row_border (columns rows cell : Z) : bool :=
    (row columns cell =? 0) || (row columns cell =? rows - 1).

Definition is_corner (columns rows cell : Z) : bool :=
    on_column_border columns cell && on_row_border columns rows cell.
Definition is_edge (columns rows cell : Z) : bool :=
    xorb (on_column_border columns cell) (on_row_border columns rows cell).
Definition is_interior (columns rows cell : Z) : bool :=
    negb (on_column_border columns cell) && negb (on_row_border columns rows cell).

End AdjacencySpec.

(** ** Dictionary: package radixtree *)

(** Modelled from the spec: package [github.com/gammazero/radixtree], the
    prefix structure behind the dictionary, is a dependency whose source is
    not in this repository.  It is modelled by what the engine relies on:
    a tree is the set of keys put into it; a stepper stands on the byte
    sequence consumed so far and [Next] is the single-step prefix descent of
    the specification ("Child(node, letter) -> node-or-absent"): it advances
    exactly when the longer sequence is still a prefix of some key, and it
    leaves the stepper where it was otherwise; [Item] is the exact-match
    query ("exact match including word-termination flag"). *)
Module radixtree.

Record Tree : Type := { keys : list string }.

Definition New : Tree := {| keys := [] |}.

Definition Put (t : Tree) (key : string) : Tree :=
  if existsb (String.eqb key) (keys t) then t
  else {| keys := keys t ++ [key] |}.

Definition Len (t : Tree) : Z := Z.of_nat (List.length (keys t)).

Record Stepper : Type := { tree : Tree; consumed : string }.

Definition NewStepper (t : Tree) : Stepper :=
  {| tree := t; consumed := "" |}.

Definition Copy (s : Stepper) : Stepper := s.

Definition on_path (t : Tree) (p : string) : bool :=
  existsb (String.prefix p) (keys t).

(** [s.Next(radix)]: the stepper after the call and the returned flag. *)
Definition Next (s : Stepper) (radix : ascii) : Stepper * bool :=
  let p := (consumed s ++ String radix "")%string in
  if on_path (tree s) p then ({| tree := tree s; consumed := p |}, true)
  else (s, false).

Record Item : Type := { Key : string }.

(** Some key begins with byte [b]. *)
Definition starts_a_key (t : Tree) (b : ascii) : bool :=
  existsb (fun key => match key with
                      | String k0 _ => (k0 =? b)%char
                      | EmptyString => false
                      end) (keys t).

(** Every key has at least two bytes. *)
Definition long_keys (t : Tree) : Prop :=
  forall key, In key (keys t) -> (2 <= String.length key)%nat.

(** [s.Item()]: [None] is the nil item. *)
Definition StepperItem (s : Stepper) : option Item :=
  if existsb (String.eqb (consumed s)) (keys (tree s))
  then Some {| Key := consumed s |} else None.

End radixtree.

(** ** Loading the word list (solver.go, loadWords) *)

(** What opening, unzipping and scanning the words file produced: the lines
    in order, and the scanner's final error if any. *)
Inductive wordSource : Type :=
| OpenFails (err : string)
| UnzipFails (err : string)
| Lines (words : list string) (scanErr : option string).

(** The body of the scan loop for one line. *)
Definition loadWord (tree : radixtree.Tree) (word : string) (maxLen minLen : Z)
  : outcome radixtree.Tree :=
  (* Skip words that are too long or too short. *)
  if (maxLen <? len word) || (len word <? minLen) then Done tree else
  match word with
  | EmptyString => Panic "index out of range"            (* word[0] *)
  | String w0 rest =>
    (* Skip words that start with a capital letter. *)
    if byte_val w0 <? 97 then Done tree else
    if byte_val w0 =? 113 then
      match rest with
      | EmptyString => Panic "index out of range"        (* word[1] *)
      | String w1 rest2 =>
        (* Skip words that start with q not followed by u. *)
        if negb (byte_val w1 =? 117) then Done tree
        else Done (radixtree.Put tree (String "q" rest2))
      end
    else Done (radixtree.Put tree word)
  end.

Fixpoint scanLoop (tree : radixtree.Tree) (words : list string) (maxLen minLen : Z)
  : outcome radixtree.Tree :=
  match words with
  | [] => Done tree
  | word :: words' =>
    tree' <- loadWord tree word maxLen minLen ;;
    scanLoop tree' words' maxLen minLen
  end.

Definition loadWords (src : wordSource) (maxLen minLen : Z)
  : outcome (result radixtree.Tree) :=
  match src with
  | OpenFails err => Done (Err ("solver: error opening words file: " ++ err))
  | UnzipFails err => Done (Err ("solver: error unzipping words file: " ++ err))
  | Lines words scanErr =>
    tree <- scanLoop radixtree.New words maxLen minLen ;;
    match scanErr with
    | Some err => Done (Err ("solver: error reading words file: " ++ err))
    | None => Done (Ok tree)
    end
  end.

(** The dictionary-build filter in the specification's words. *)
Module BuildSpec.

Definition first_is_lowercase_letter (word : string) : bool :=
  match word with
  | String c _ => (97 <=? byte_val c) && (byte_val c <=? 122)
  | EmptyString => false
  end.

Definition q_then_u (word : string) : bool :=
  match word with
  | String "q" (String c _) => (c =? "u")%char
  | String "q" EmptyString => false
  | _ => true
  end.

(** Collapse the leading "qu" to "q". *)
Definition collapse (word : string) : string :=
  match word with
  | String "q" (String "u" rest) => String "q" rest
  | _ => word
  end.

(** The filters as stated: length within [minLength, maxLength], first
    character a lowercase letter, "q" only when followed by "u". *)
Definition survives (maxLength : Z) (word : string) : bool :=
  negb (maxLength <? len word) && negb (len word <? 3)
  && first_is_lowercase_letter word && q_then_u word.

(** The filter the loader applies: as above, but the test on the first
    character only rejects a first byte below ['a']. *)
Definition first_not_below_a (word : string) : bool :=
  match word with
  | String c _ => 97 <=? byte_val c
  | EmptyString => false
  end.

Definition accepted (maxLength : Z) (word : string) : bool :=
  negb (maxLength <? len word) && negb (len word <? 3)
  && first_not_below_a word && q_then_u word.

End BuildSpec.

(** ** The solver (solver.go) *)

Record qNode : Type := {
  parentSquare : Z;
  parentTrie : radixtree.Stepper;
  seen : list Z
}.

Record Solver : Type := {
  cols : Z;
  rows : Z;
  rt : option radixtree.Tree      (* a pointer: [None] is nil *)
}.

Definition New (xlen ylen : Z) (src : wordSource) : outcome (result Solver) :=
  if (xlen <? 1) || (ylen <? 1) then Done (Err "invalid board dimensions") else
  r <- loadWords src (GoInt.mul xlen ylen) 3 ;;
  match r with
  | Err err => Done (Err err)
  | Ok tree => Done (Ok {| cols := xlen; rows := ylen; rt := Some tree |})
  end.

Definition BoardSize (s : Solver) : Z := GoInt.mul (cols s) (rows s).

Definition Dimensions (s : Solver) : Z * Z := (cols s, rows s).

Definition WordCount (s : Solver) : outcome Z :=
  match rt s with
  | Some tree => Done (radixtree.Len tree)
  | None => Panic "nil pointer dereference"
  end.

(** *** Result normaliser (uniqueSortedWords) *)

(** [sort.Sort(sort.StringSlice(words))] orders the slice by [<] on strings,
    the byte-wise lexicographic order.  The order is total and equal strings
    are indistinguishable, so the sorted slice does not depend on the
    algorithm; insertion sort stands for it. *)
Fixpoint insert_sorted (w : string) (l : list string) : list string :=
  match l with
  | [] => [w]
  | h :: t => if (w <=? h)%string then w :: l else h :: insert_sorted w t
  end.

Definition sort_strings (l : list string) : list string :=
  fold_right insert_sorted [] l.

(** Byte-wise lexicographic order, Go's [<] on strings. *)
Definition string_lt (a b : string) : Prop := (a <? b)%string = true.
Definition string_le (a b : string) : Prop := (a <=? b)%string = true.

(** A strictly increasing sequence: no duplicates and no inversions. *)
Definition strictly_increasing (l : list string) : Prop :=
  StronglySorted string_lt l.

(** The loop [for _, w := range words] with its variables [prev], [unique]. *)
Fixpoint uniqueLoop (words : list string) (prev : string) (unique : list string)
  : list string :=
  match words with
  | [] => unique
  | w :: words' =>
    if negb (w =? prev)%string then uniqueLoop words' w (unique ++ [w])
    else uniqueLoop words' prev unique
  end.

Definition uniqueSortedWords (words : list string) : list string :=
  if (Z.of_nat (List.length words) =? 0) then words
  else uniqueLoop (sort_strings words) "" [].

(** *** The search (Solver.Solve) *)

(** [for i := range seen { if seen[i] == curSq { continue AdjLoop } }] *)
Fixpoint alreadySeen (seen : list Z) (curSq : Z) : bool :=
  match seen with
  | [] => false
  | v :: seen' => if v =? curSq then true else alreadySeen seen' curSq
  end.

(** Rehydrate q-words with 'u': [key[0] == 'q'] selects ["qu"+key[1:]]. *)
Definition rehydrate (key : string) : outcome string :=
  match key with
  | EmptyString => Panic "index out of range"              (* key[0] *)
  | String k0 rest =>
    if byte_val k0 =? 113 then Done (String "q" (String "u" rest))
    else Done key
  end.

Definition pushBack (q : list qNode) (n : qNode) : list qNode := q ++ [n].

(** The labelled loop [AdjLoop] over the neighbours of the popped node; it
    threads the queue [q] and the slice [words]. *)
Fixpoint adjLoop (board : string) (parentTrie : radixtree.Stepper)
    (seen : list Z) (sqAdj : list Z) (q : list qNode) (words : list string)
  : outcome (list qNode * list string) :=
  match sqAdj with
  | [] => Done (q, words)
  | curSq :: sqAdj' =>
    if alreadySeen seen curSq then
      adjLoop board parentTrie seen sqAdj' q words
    else
      let curNode := radixtree.Copy parentTrie in
      c <- at_index board curSq ;;
      let (curNode, ok) := radixtree.Next curNode c in
      if negb ok then adjLoop board parentTrie seen sqAdj' q words
      else
        (* a fresh slice: the parent's [seen] is copied, not extended in place *)
        let newSeen := seen ++ [curSq] in
        let q := pushBack q {| parentSquare := curSq;
                               parentTrie := curNode;
                               seen := newSeen |} in
        words <- match radixtree.StepperItem curNode with
                 | Some item =>
                     w <- rehydrate (radixtree.Key item) ;; Done (words ++ [w])
                 | None => Done words
                 end ;;
        adjLoop board parentTrie seen sqAdj' q words
  end.

(** One iteration of [for q.Len() != 0]: pop the front node and run
    [AdjLoop] on its neighbours. *)
Definition expand (s : Solver) (board : string) (qn : qNode)
    (q : list qNode) (words : list string)
  : outcome (list qNode * list string) :=
  sqAdj <- calculateAdjacency (cols s) (rows s) (parentSquare qn) ;;
  adjLoop board (parentTrie qn) (seen qn) sqAdj q words.

(** The loop [for q.Len() != 0], allowed [fuel] iterations. *)
Fixpoint drain (fuel : nat) (s : Solver) (board : string)
    (q : list qNode) (words : list string) : outcome (list string) :=
  match q with
  | [] => Done words
  | qn :: q' =>
    match fuel with
    | O => Diverge
    | S fuel' =>
      '(q'', words') <- expand s board qn q' words ;;
      drain fuel' s board q'' words'
    end
  end.

(** The first node of a start cell.  The flag returned by [stepper.Next] is
    dropped, as in the source. *)
Definition startNode (tree : radixtree.Tree) (board : string) (initSq : Z)
  : outcome qNode :=
  let seen := [initSq] in
  let stepper := radixtree.NewStepper tree in
  c <- at_index board initSq ;;
  let (stepper, _) := radixtree.Next stepper c in
  Done {| parentSquare := initSq; parentTrie := stepper; seen := seen |}.

(** The outer loop, over the start cells [initSqs] in order.  The queue is
    empty whenever a start node is pushed. *)
Fixpoint searchFrom (fuel : nat) (s : Solver) (tree : radixtree.Tree)
    (board : string) (initSqs : list Z) (words : list string)
  : outcome (list string) :=
  match initSqs with
  | [] => Done words
  | initSq :: initSqs' =>
    qn <- startNode tree board initSq ;;
    words' <- drain fuel s board (pushBack [] qn) words ;;
    searchFrom fuel s tree board initSqs' words'
  end.

(** The values of [initSq] in [for initSq := 0; initSq < len(board); initSq++]. *)
Definition startCells (board : string) : list Z :=
  map Z.of_nat (seq 0 (String.length board)).

(** [Solve], with the start cells of the outer loop as a parameter. *)
Definition SolveFrom {U : Unicode} (fuel : nat) (s : Solver) (grid : string)
    (initSqs : string -> list Z) : outcome (result (list string)) :=
  match rt s with
  | None => Done (Err "failed to read words file")
  | Some tree =>
    if negb (len grid =? BoardSize s) then
      if len grid <? BoardSize s then Done (Err "not enough letters for board")
      else Done (Err "too many letters for board")
    else
      let board := ToLower grid in
      words <- searchFrom fuel s tree board (initSqs board) [] ;;
      Done (Ok (uniqueSortedWords words))
  end.

(** The start cells of the outer loop with cell [c] left out. *)
Definition startCellsWithout (c : Z) (board : string) : list Z :=
  filter (fun initSq => negb (initSq =? c)) (startCells board).

Definition Solve {U : Unicode} (fuel : nat) (s : Solver) (grid : string)
  : outcome (result (list string)) :=
  SolveFrom fuel s grid startCells.

(** ** The search in the specification's words *)

Module PathSpec.

Definition on_board (columns rows cell : Z) : Prop :=
  0 <= cell < columns * rows.

(** Two distinct cells are adjacent when their columns and their rows
    differ by at most one (orthogonal or diagonal neighbours). *)
Definition adjacent (columns a b : Z) : Prop :=
  a <> b /\
  Z.abs (AdjacencySpec.column columns a - AdjacencySpec.column columns b) <= 1 /\
  Z.abs (AdjacencySpec.row columns a - AdjacencySpec.row columns b) <= 1.

Inductive stepwise (R : Z -> Z -> Prop) : list Z -> Prop :=
| stepwise_nil : stepwise R []
| stepwise_one a : stepwise R [a]
| stepwise_cons a b l : R a b -> stepwise R (b :: l) -> stepwise R (a :: b :: l).

(** A simple path: cells of the board, each adjacent to the previous one,
    none repeated. *)
Definition simple_path (columns rows : Z) (path : list Z) : Prop :=
  Forall (on_board columns rows) path /\
  NoDup path /\
  stepwise (adjacent columns) path.

(** The letters read along a path. *)
Fixpoint spell (board : string) (path : list Z) : option string :=
  match path with
  | [] => Some ""
  | cell :: path' =>
    match byte_at board cell, spell board path' with
    | Some c, Some w => Some (String c w)
    | _, _ => None
    end
  end.

(** A key is spellable when some simple path reads it off the board. *)
Definition spellable (columns rows : Z) (board key : string) : Prop :=
  exists path, simple_path columns rows path /\ spell board path = Some key.

(** The symbol 'q' stands for "qu": a key starting with "q" is written back
    with the "u" restored. *)
Definition rehydrated (key : string) : string :=
  match key with
  | String "q" rest => String "q" (String "u" rest)
  | _ => key
  end.

End PathSpec.

(** ** The frontier, read off the loops *)

Module Frontier.

(** The node pushed for neighbour [curSq] of a node standing on
    [parentTrie] with visited cells [seen], if any. *)
Definition extend (board : string) (parentTrie : radixtree.Stepper)
    (seen : list Z) (curSq : Z) : option qNode :=
  if alreadySeen seen curSq then None else
  match byte_at board curSq with
  | None => None
  | Some c =>
    let (curNode, ok) := radixtree.Next parentTrie c in
    if ok then Some {| parentSquare := curSq; parentTrie := curNode;
                       seen := seen ++ [curSq] |}
    else None
  end.

Definition pushed (board : string) (parentTrie : radixtree.Stepper)
    (seen : list Z) (sqAdj : list Z) : list qNode :=
  flat_map (fun curSq => match extend board parentTrie seen curSq with
                         | Some n => [n]
                         | None => []
                         end) sqAdj.

(** The word recorded when node [n] is pushed, if its stepper stands on a key. *)
Definition found (n : qNode) : list string :=
  match radixtree.StepperItem (parentTrie n) with
  | Some item => [PathSpec.rehydrated (radixtree.Key item)]
  | None => []
  end.

(** The nodes pushed while node [n] is expanded. *)
Definition children (s : Solver) (board : string) (n : qNode) : list qNode :=
  match calculateAdjacency (cols s) (rows s) (parentSquare n) with
  | Done sqAdj => pushed board (parentTrie n) (seen n) sqAdj
  | _ => []
  end.

Inductive descendant (s : Solver) (board : string) : qNode -> qNode -> Prop :=
| descendant_child n c :
    In c (children s board n) -> descendant s board n c
| descendant_deeper n c d :
    In c (children s board n) -> descendant s board c d ->
    descendant s board n d.

(** The simple-path invariant of a frontier state: no cell is repeated in
    the visited list, and the current cell is its last element. *)
Definition simple_state (n : qNode) : Prop :=
  NoDup (seen n) /\ exists before, seen n = before ++ [parentSquare n].

(** One iteration of the frontier loop, as a relation on (queue, words). *)
Definition step (s : Solver) (board : string)
    (st st' : list qNode * list string) : Prop :=
  match fst st with
  | [] => False
  | qn :: q => expand s board qn q (snd st) = Done st'
  end.

(** The search from a list of cells continues the walk standing on [cur]
    having visited [seen]: each cell is adjacent to the one before, on the
    board, and not visited yet. *)
Fixpoint walk (columns rows : Z) (cur : Z) (seen : list Z) (ext : list Z)
  : Prop :=
  match ext with
  | [] => True
  | c :: ext' =>
    PathSpec.adjacent columns cur c /\ PathSpec.on_board columns rows c /\
    ~ In c seen /\ walk columns rows c (seen ++ [c]) ext'
  end.

(** Word [w] is recorded during the iteration of the outer loop that starts
    at cell [initSq]. *)
Definition found_from (s : Solver) (tree : radixtree.Tree) (board : string)
    (initSq : Z) (w : string) : Prop :=
  exists n0 d,
    startNode tree board initSq = Done n0 /\
    descendant s board n0 d /\ In w (found d).

(** Where the stepper of a start node stands: on the letter of the start
    cell when some key begins with it, on the root otherwise. *)
Definition start_prefix (tree : radixtree.Tree) (b : ascii) : string :=
  if radixtree.on_path tree (String b "") then String b "" else "".

(** A frontier state within the board: its cell and every visited cell are
    cells of the board, and no cell is visited twice. *)
Definition bounded (columns rows : Z) (n : qNode) : Prop :=
  PathSpec.on_board columns rows (parentSquare n) /\
  NoDup (seen n) /\
  Forall (PathSpec.on_board columns rows) (seen n).

(** The termination measure: a state that has visited [k] of the [cells]
    cells weighs [9 ^ (cells - k)], more than its at most eight successors
    together. *)
Definition weight (cells : nat) (n : qNode) : nat :=
  Nat.pow 9 (cells - List.length (seen n)).

Definition frontier_weight (cells : nat) (q : list qNode) : nat :=
  list_sum (map (weight cells) q).

End Frontier.

(** ** Grid rendering (solver.go, GridString) *)

(** [strings.Join(elems, sep)]. *)
Definition Join (elems : list string) (sep : string) : string :=
  String.concat sep elems.

(** The UTF-8 encoding of a code point below 256, as [%c] prints a byte. *)
Definition utf8_of_byte (cell : ascii) : string :=
  if byte_val cell <? 128 then String cell ""
  else String (ascii_of_N (192 + N_of_ascii cell / 64))
         (String (ascii_of_N (128 + N_of_ascii cell mod 64)) "").

(** [fmt.Sprintf(" %c ", cell)]. *)
Definition Sprintf_c (cell : ascii) : string :=
  (" " ++ utf8_of_byte cell ++ " ")%string.

(** [make([]string, 0, cap)]: a negative capacity panics.  Memory is not
    modelled: a capacity too large to allocate is also a failure in Go. *)
Definition make_cap (cap : Z) : outcome (list string) :=
  if cap <? 0 then Panic "makeslice: cap out of range" else Done [].

(** [line[i] = v]. *)
Fixpoint set_nth (line : list string) (i : nat) (v : string) : option (list string) :=
  match line, i with
  | [], _ => None
  | _ :: line', O => Some (v :: line')
  | e :: line', S i' =>
    match set_nth line' i' v with
    | Some l => Some (e :: l)
    | None => None
    end
  end.

Definition set_index (line : list string) (i : Z) (v : string)
  : outcome (list string) :=
  if i <? 0 then Panic "index out of range"
  else match set_nth line (Z.to_nat i) v with
       | Some l => Done l
       | None => Panic "index out of range"
       end.

(** [for x := 0; x < cols; x++]: [n] iterations remain, the next for [x]. *)
Fixpoint cellLoop (gridChars : string) (yi : Z) (n : nat) (x : Z)
    (line : list string) : outcome (list string) :=
  match n with
  | O => Done line
  | S n' =>
    cell <- at_index gridChars (GoInt.add yi x) ;;
    line' <- set_index line (GoInt.add 1 x)
               (if byte_val cell =? 81 then " Qu" else Sprintf_c cell) ;;
    cellLoop gridChars yi n' (GoInt.add x 1) line'
  end.

(** [for y := 0; y < rows; y++]: [n] iterations remain, the next for [y]. *)
Fixpoint rowLoop (gridChars : string) (cols : Z) (n : nat) (y : Z)
    (line gridLines : list string) : outcome (list string) :=
  match n with
  | O => Done gridLines
  | S n' =>
    let yi := GoInt.mul y cols in
    line' <- cellLoop gridChars yi (Z.to_nat cols) 0 line ;;
    rowLoop gridChars cols n' (GoInt.add y 1) line'
            (gridLines ++ [Join line' "|"])
  end.

Definition newline : string := String (ascii_of_nat 10) "".

Definition GridString {U : Unicode} (grid : string) (cols rows : Z)
  : outcome string :=
  if negb (len grid =? GoInt.mul cols rows)
  then Panic "number of letters in grid must equal cols * rows" else
  let grid := ToUpper grid in
  let gridChars := grid in
  line <- make_cap (GoInt.add cols 2) ;;
  let line := line ++ [""] in
  let line := line ++ repeat "---" (Z.to_nat cols) in
  let line := line ++ [newline] in
  let hline := Join line "+" in
  gridLines <- make_cap (GoInt.add (GoInt.mul 2 rows) 1) ;;
  let gridLines := gridLines ++ [""] in
  gridLines <- rowLoop gridChars cols (Z.to_nat rows) 0 line gridLines ;;
  Done (Join (gridLines ++ [""]) hline).

(** [Solver.Grid]. *)
Definition Grid {U : Unicode} (s : Solver) (grid : string) : outcome string :=
  GridString grid (cols s) (rows s).

(** ** The array-backed trie (trie.go) *)

Module Trie.

(** A rune is an [int32]. *)
Definition rune_range (c : Z) : Prop := - 2 ^ 31 <= c < 2 ^ 31.
Definition wrap32 (z : Z) : Z := (z + 2 ^ 31) mod 2 ^ 32 - 2 ^ 31.

(** [children [26]*Trie]: the list has 26 entries, [None] is nil. *)
#[warnings="-register-all"]
Inductive Trie : Type :=
| Node (isWord : bool) (children : list (option Trie)).

Definition isWord (t : Trie) : bool := match t with Node w _ => w end.
Definition children (t : Trie) : list (option Trie) :=
  match t with Node _ cs => cs end.

Definition NewTrie : Trie := Node false (repeat None 26).

(** [int(c - 'a')]: the subtraction is on [int32]. *)
Definition childIndex (c : Z) : Z := wrap32 (c - 97).

(** [t.children[index]]: the array is indexed within [0, 26). *)
Definition slot (t : Trie) (index : Z) : outcome (option Trie) :=
  if (0 <=? index) && (index <? 26)
  then Done (nth (Z.to_nat index) (children t) None)
  else Panic "index out of range".

Fixpoint update (cs : list (option Trie)) (i : nat) (v : option Trie)
  : list (option Trie) :=
  match cs, i with
  | [], _ => []
  | _ :: cs', O => v :: cs'
  | c :: cs', S i' => c :: update cs' i' v
  end.

(** [Insert] walks down from [t], allocating the missing nodes, and marks
    the last node.  The nodes form a tree owned by the root, so the update
    in place is the rebuilt tree. *)
Fixpoint insertRunes (t : Trie) (rs : list Z) : outcome Trie :=
  match rs with
  | [] => Done (Node true (children t))
  | c :: rs' =>
    let index := childIndex c in
    next <- slot t index ;;
    let next := match next with
                | Some n => n
                | None => NewTrie
                end in
    next' <- insertRunes next rs' ;;
    Done (Node (isWord t) (update (children t) (Z.to_nat index) (Some next')))
  end.

Definition Insert {U : Unicode} (t : Trie) (word : string) : outcome Trie :=
  insertRunes t (runes (ToLower word)).

Fixpoint containsRunes (t : Trie) (rs : list Z) : outcome bool :=
  match rs with
  | [] => Done (isWord t)
  | c :: rs' =>
    next <- slot t (childIndex c) ;;
    match next with
    | None => Done false
    | Some t' => containsRunes t' rs'
    end
  end.

Definition ContainsWord {U : Unicode} (t : Trie) (word : string)
  : outcome bool :=
  containsRunes t (runes (ToLower word)).

Definition Child (t : Trie) (c : Z) : outcome (option Trie) :=
  slot t (childIndex c).

Definition ContainsLetter (t : Trie) (c : Z) : outcome bool :=
  child <- Child t c ;;
  Done (match child with Some _ => true | None => false end).

Definition IsWord (t : Trie) : bool := isWord t.

(** Inserting a list of words in order. *)
Fixpoint InsertAll {U : Unicode} (t : Trie) (words : list string)
  : outcome Trie :=
  match words with
  | [] => Done t
  | word :: words' => t' <- Insert t word ;; InsertAll t' words'
  end.

(** A byte that lower-cases into ['a'..'z']: an ASCII letter. *)
Definition letter (c : ascii) : bool :=
  (97 <=? byte_val (lower_byte c)) && (byte_val (lower_byte c) <=? 122).

Fixpoint alphabetic (word : string) : bool :=
  match word with
  | EmptyString => true
  | String c word' => letter c && alphabetic word'
  end.

(** The runes ['a'..'z']. *)
Definition lower_rune (r : Z) : Prop := 97 <= r <= 122.

(** Equality of two rune sequences, as a boolean. *)
Definition same_runes (a b : list Z) : bool :=
  if list_eq_dec Z.eq_dec a b then true else false.

(** Every node of the trie holds its 26 slots. *)
Inductive wf : Trie -> Prop :=
| wf_Node w cs :
    List.length cs = 26%nat ->
    (forall i t, nth_error cs i = Some (Some t) -> wf t) ->
    wf (Node w cs).

End Trie.

(** ** The layout of a rendered grid *)

(** The text [GridString] writes for a cell: the letter between two blanks,
    and [" Qu"] for a 'Q'. *)
Definition cellText (cell : ascii) : string :=
  if byte_val cell =? 81 then " Qu" else Sprintf_c cell.

(** The rule between two rows of a grid of [cols] columns. *)
Definition ruleLine (cols : nat) : string :=
  (String.concat "" (repeat "+---" cols) ++ "+" ++ newline)%string.

(** A row of cells between bars. *)
Definition rowLine (cells : list ascii) : string :=
  (String.concat "" (map (fun c => "|" ++ cellText c) cells)
   ++ "|" ++ newline)%string.

(** The cells of row [y]: the bytes [y * cols .. y * cols + cols - 1]. *)
Definition rowCells (gridChars : string) (cols y : nat) : list ascii :=
  list_ascii_of_string (String.substring (y * cols) cols gridChars).

(** The whole picture: every row under a rule, and a closing rule. *)
Definition rendering (gridChars : string) (cols rows : nat) : string :=
  (String.concat ""
     (map (fun y => ruleLine cols ++ rowLine (rowCells gridChars cols y))
          (seq 0 rows))
   ++ ruleLine cols)%string.

(** ** A board turned by a half-turn *)

(** The grid string read backwards: cell [i] takes the place of cell
    [columns * rows - 1 - i], the board turned by 180 degrees. *)
Definition reverse_string (s : string) : string :=
  string_of_list_ascii (rev (list_ascii_of_string s)).

(** ** Using the trie (trie_test.go, the first solver) *)

Module TrieWalk.

(** Walking down from a node with [Child], one rune after the other, the
    way the callers do: the walk ends at the first nil child. *)
Fixpoint descend (t : Trie.Trie) (rs : list Z) : outcome (option Trie.Trie) :=
  match rs with
  | [] => Done (Some t)
  | c :: rs' =>
    child <- Trie.Child t c ;;
    match child with
    | None => Done None
    | Some t' => descend t' rs'
    end
  end.

(** [p] is an initial segment of [rs]. *)
Fixpoint prefix_runes (p rs : list Z) : bool :=
  match p, rs with
  | [], _ => true
  | c :: p', d :: rs' => (c =? d) && prefix_runes p' rs'
  | _ :: _, [] => false
  end.

Definition is_node (r : option Trie.Trie) : bool :=
  match r with Some _ => true | None => false end.

End TrieWalk.

(** ** The command line (cmd/boggle) *)

Module Cmd.

(** [make([]byte, size)] followed by the loop that fills the slice.  [make]
    panics for a negative length and for a length above what the allocator
    can hand out ([max_alloc]).  The generator [rnd] is seeded from the
    clock; [draws i] stands for what the [i]-th call of [rnd.Intn(25)]
    returns. *)
Definition randomByte (n : Z) : ascii :=
  ascii_of_N (Z.to_N (GoInt.add 97 n mod 256)).      (* byte(a + n) *)

Definition randomGrid (draws : nat -> Z) (size : Z) : outcome string :=
  if (size <? 0) || (max_alloc <? size)
  then Panic "makeslice: len out of range" else
  Done (string_of_list_ascii
          (map (fun i => randomByte (draws i)) (seq 0 (Z.to_nat size)))).

(** [c < 'a' || c > 'z'] over the runes of the line. *)
Definition validLine {U : Unicode} (input : string) : bool :=
  forallb (fun c => negb ((c <? 97) || (122 <? c))) (runes input).

(** [if len(grid) > boardSize { grid = grid[:boardSize] }]. *)
Definition truncateGrid (grid : string) (boardSize : Z) : outcome string :=
  if boardSize <? len grid then
    if boardSize <? 0 then Panic "slice bounds out of range"
    else Done (String.substring 0 (Z.to_nat boardSize) grid)
  else Done grid.

(** The loop of [readGridFromUser].  [inputs] holds what the successive
    calls of [consReader.ReadString('\n')] return before the input ends:
    the lines typed, each without its final newline (which [TrimRight]
    removes); the call after the last line fails. *)
Fixpoint readLoop {U : Unicode} (draws : nat -> Z) (inputs : list string)
    (boardSize : Z) (grid : string) : outcome (result string) :=
  match inputs with
  | [] => Done (Err "error reading input")
  | input :: inputs' =>
    if len input =? 0 then Done (Ok "") else
    if (len input =? 1) && String.prefix "*" input then
      g <- randomGrid draws boardSize ;; Done (Ok g)
    else
      let input := ToLower input in
      let grid := if validLine input then (grid ++ input)%string else grid in
      if boardSize <=? len grid then
        g <- truncateGrid grid boardSize ;; Done (Ok g)
      else readLoop draws inputs' boardSize grid
  end.

Definition readGridFromUser {U : Unicode} (draws : nat -> Z)
    (inputs : list string) (boardSize : Z) : outcome (result string) :=
  readLoop draws inputs boardSize "".

(** The letters typed on a sequence of lines: the lower-cased lines that
    hold nothing but letters, one after the other. *)
Definition typed {U : Unicode} (inputs : list string) : string :=
  String.concat ""
    (map (fun input => if validLine (ToLower input) then ToLower input else "")
         inputs).

(** Every byte is one of ['a'..'z']. *)
Fixpoint lowercase_letters (s : string) : bool :=
  match s with
  | EmptyString => true
  | String c s' =>
      (97 <=? byte_val c) && (byte_val c <=? 122) && lowercase_letters s'
  end.

End Cmd.

(** ** The grid as the documentation reads it *)

(** In the words of the package documentation ("The letter 'q' in the grid
    always represents "qu" when searching for words") and of the
    specification's grid ("the letter q always stands for the digram
    "qu""): what the cells of a path spell when every 'q' cell counts for
    the two letters "qu".  [PathSpec.spell], in contrast, reads the bytes as
    the search matches them against the stored keys. *)
Module DocSpec.

Definition cell_letters (c : ascii) : string :=
  if (c =? "q")%char then "qu" else String c "".

Fixpoint read (board : string) (path : list Z) : option string :=
  match path with
  | [] => Some ""
  | cell :: path' =>
    match byte_at board cell, read board path' with
    | Some c, Some w => Some (cell_letters c ++ w)%string
    | _, _ => None
    end
  end.

(** A word is spellable when some simple path reads it off the board. *)
Definition spellable (columns rows : Z) (board word : string) : Prop :=
  exists path,
    PathSpec.simple_path columns rows path /\ read board path = Some word.

Fixpoint has_q (s : string) : bool :=
  match s with
  | EmptyString => false
  | String c s' => (c =? "q")%char || has_q s'
  end.

(** The word has no 'q' after its first letter. *)
Definition q_only_first (word : string) : bool :=
  match word with
  | EmptyString => true
  | String _ rest => negb (has_q rest)
  end.

End DocSpec.

(** * Properties *)

(** ** Go's [int]: wrap-around is the identity on representable values *)

Lemma wrap_small z : GoInt.in_range z -> GoInt.wrap z = z.
Proof.
  unfold GoInt.in_range, GoInt.wrap, GoInt.min_int, GoInt.max_int. intros H.
  rewrite Z.mod_small; lia.
Qed.

Lemma wrap_in_range z : GoInt.in_range (GoInt.wrap z).
Proof.
  unfold GoInt.in_range, GoInt.wrap, GoInt.min_int, GoInt.max_int.
  pose proof (Z.mod_pos_bound (z + 2 ^ 63) (2 ^ 64) ltac:(lia)). lia.
Qed.

(** ** Adjacency *)

Section Adjacency.

Import AdjacencySpec.

Variables columns rows cell : Z.
Hypothesis Hcolumns : 1 <= columns.
Hypothesis Hrows : 1 <= rows.
Hypothesis Hboard : columns * rows <= GoInt.max_int.
Hypothesis Hcell : 0 <= cell < columns * rows.

Let x := column columns cell.
Let y := row columns cell.

Lemma cell_coordinates :
  cell = y * columns + x /\ 0 <= x < columns /\ 0 <= y < rows.
Proof.
  subst x y. unfold column, row.
  pose proof (Z.div_mod cell columns ltac:(lia)) as Hdm.
  pose proof (Z.mod_pos_bound cell columns ltac:(lia)) as Hm.
  assert (0 <= cell / columns) by (apply Z.div_pos; lia).
  assert (cell / columns < rows).
  { apply Z.div_lt_upper_bound; lia. }
  split; [lia | split; lia].
Qed.

(** On an admissible geometry no operation of [calculateAdjacency] wraps:
    the function computes the guarded list below. *)
Lemma calculateAdjacency_unfold :
  calculateAdjacency columns rows cell =
  Done ((if 0 <=? y - 1 then
           (if 0 <=? x - 1 then [cell - columns - 1] else [])
             ++ [cell - columns]
             ++ (if x + 1 <? columns then [cell - columns + 1] else [])
         else [])
          ++ (if 0 <=? x - 1 then [cell - 1] else [])
          ++ (if x + 1 <? columns then [cell + 1] else [])
          ++ (if y + 1 <? rows then
                (if 0 <=? x - 1 then [cell + columns - 1] else [])
                  ++ [cell + columns]
                  ++ (if x + 1 <? columns then [cell + columns + 1] else [])
              else [])).
Proof.
  destruct cell_coordinates as (Hxy & Hx & Hy).
  assert (Hmax : GoInt.max_int = 2 ^ 63 - 1) by reflexivity.
  assert (Hmin : GoInt.min_int = - 2 ^ 63) by reflexivity.
  assert (Hyx : y * columns <= cell) by lia.
  assert (Hq : Z.quot cell columns = y).
  { subst y. unfold row. apply Z.quot_div_nonneg; lia. }
  unfold calculateAdjacency.
  destruct (Z.eqb_spec columns 0) as [|_]; [lia|].
  unfold GoInt.quo. rewrite Hq.
  rewrite (wrap_small (z := y)) by (unfold GoInt.in_range; lia).
  unfold GoInt.mul.
  rewrite (wrap_small (z := y * columns)) by (unfold GoInt.in_range; lia).
  unfold GoInt.sub, GoInt.add.
  replace (cell - y * columns) with x by lia.
  rewrite !(wrap_small (z := x)) by (unfold GoInt.in_range; lia).
  rewrite !(wrap_small (z := y - 1)) by (unfold GoInt.in_range; lia).
  rewrite !(wrap_small (z := x - 1)) by (unfold GoInt.in_range; lia).
  rewrite !(wrap_small (z := x + 1)) by (unfold GoInt.in_range; lia).
  rewrite !(wrap_small (z := y + 1)) by (unfold GoInt.in_range; lia).
  assert (Hbelow : y + 1 < rows -> cell + columns + 1 <= GoInt.max_int) by nia.
  destruct (Z.leb_spec 0 (y - 1)) as [Hy1|Hy1];
    destruct (Z.leb_spec 0 (x - 1)) as [Hx1|Hx1];
    destruct (Z.ltb_spec (x + 1) columns) as [Hx2|Hx2];
    destruct (Z.ltb_spec (y + 1) rows) as [Hy2|Hy2];
    cbn [app];
    rewrite ?(wrap_small (z := cell - columns)) by (unfold GoInt.in_range; nia);
    rewrite ?(wrap_small (z := cell + columns)) by (unfold GoInt.in_range; nia);
    rewrite ?wrap_small by (unfold GoInt.in_range; nia);
    reflexivity.
Qed.

Lemma Neighbors_unfold :
  Neighbors columns rows cell =
  (if 0 <=? y - 1 then
     (if 0 <=? x - 1 then [cell - columns - 1] else [])
       ++ [cell - columns]
       ++ (if x + 1 <? columns then [cell - columns + 1] else [])
   else [])
    ++ (if 0 <=? x - 1 then [cell - 1] else [])
    ++ (if x + 1 <? columns then [cell + 1] else [])
    ++ (if y + 1 <? rows then
          (if 0 <=? x - 1 then [cell + columns - 1] else [])
            ++ [cell + columns]
            ++ (if x + 1 <? columns then [cell + columns + 1] else [])
        else []).
Proof.
  destruct cell_coordinates as (Hxy & Hx & Hy).
  unfold Neighbors, directions. fold x y. cbn [map fst snd].
  unfold inside. cbn [fst snd filter].
  destruct (Z.leb_spec 0 (y - 1)) as [Hy1|Hy1];
    destruct (Z.leb_spec 0 (x - 1)) as [Hx1|Hx1];
    destruct (Z.ltb_spec (x + 1) columns) as [Hx2|Hx2];
    destruct (Z.ltb_spec (y + 1) rows) as [Hy2|Hy2];
    repeat match goal with
           | |- context [?a <=? ?b] =>
               destruct (Z.leb_spec a b); try lia
           | |- context [?a <? ?b] =>
               destruct (Z.ltb_spec a b); try lia
           end;
    cbn [andb filter map app fst snd];
    repeat (f_equal; try lia).
Qed.

End Adjacency.

(** Case analysis on the first integer test met in the goal, then in the
    hypotheses. *)
Ltac decide_test :=
  match goal with
  | |- context [(?u =? ?v)%Z] => destruct (Z.eqb_spec u v)
  | |- context [(?u <? ?v)%Z] => destruct (Z.ltb_spec u v)
  | |- context [(?u <=? ?v)%Z] => destruct (Z.leb_spec u v)
  | Htest : context [(?u =? ?v)%Z] |- _ => destruct (Z.eqb_spec u v)
  | Htest : context [(?u <? ?v)%Z] |- _ => destruct (Z.ltb_spec u v)
  | Htest : context [(?u <=? ?v)%Z] |- _ => destruct (Z.leb_spec u v)
  end.

Ltac split_bool_tests := repeat decide_test.

Lemma Neighbors_count columns rows cell :
  2 <= columns -> 2 <= rows -> 0 <= cell < columns * rows ->
  (AdjacencySpec.is_corner columns rows cell = true ->
   List.length (AdjacencySpec.Neighbors columns rows cell) = 3%nat) /\
  (AdjacencySpec.is_edge columns rows cell = true ->
   List.length (AdjacencySpec.Neighbors columns rows cell) = 5%nat) /\
  (AdjacencySpec.is_interior columns rows cell = true ->
   List.length (AdjacencySpec.Neighbors columns rows cell) = 8%nat).
Proof.
  intros Hc Hr Hcell.
  destruct (@cell_coordinates columns rows cell) as (Hxy & Hx & Hy); try lia.
  rewrite Neighbors_unfold by lia.
  unfold AdjacencySpec.is_corner, AdjacencySpec.is_edge, AdjacencySpec.is_interior,
    AdjacencySpec.on_column_border, AdjacencySpec.on_row_border.
  set (x := AdjacencySpec.column columns cell) in *.
  set (y := AdjacencySpec.row columns cell) in *.
  repeat split; intros H; split_bool_tests; cbn in H; try discriminate H;
    try lia; reflexivity.
Qed.

(** C4 (as amended).  On every geometry with at least one column and one
    row whose board size fits a Go [int], and for every cell of the board,
    [calculateAdjacency] returns the in-bounds neighbours in the order
    above-left, above, above-right, left, right, below-left, below,
    below-right.  When the grid has at least two columns and two rows, a
    corner cell has exactly 3 neighbours, a non-corner border cell exactly 5
    and an interior cell exactly 8.  On the 4x4 grid cell 0 yields 1,4,5,
    cell 3 yields 2,6,7, cell 1 yields 0,2,4,5,6 and cell 5 yields
    0,1,2,4,6,8,9,10. *)
Theorem calculateAdjacency_neighbors columns rows cell :
  1 <= columns -> 1 <= rows -> columns * rows <= GoInt.max_int ->
  0 <= cell < columns * rows ->
  calculateAdjacency columns rows cell
    = Done (AdjacencySpec.Neighbors columns rows cell) /\
  (2 <= columns -> 2 <= rows ->
   (AdjacencySpec.is_corner columns rows cell = true ->
    List.length (AdjacencySpec.Neighbors columns rows cell) = 3%nat) /\
   (AdjacencySpec.is_edge columns rows cell = true ->
    List.length (AdjacencySpec.Neighbors columns rows cell) = 5%nat) /\
   (AdjacencySpec.is_interior columns rows cell = true ->
    List.length (AdjacencySpec.Neighbors columns rows cell) = 8%nat)) /\
  calculateAdjacency 4 4 0 = Done [1; 4; 5] /\
  calculateAdjacency 4 4 3 = Done [2; 6; 7] /\
  calculateAdjacency 4 4 1 = Done [0; 2; 4; 5; 6] /\
  calculateAdjacency 4 4 5 = Done [0; 1; 2; 4; 6; 8; 9; 10].
Proof.
  intros Hc Hr Hb Hcell. split; [|split].
  - rewrite calculateAdjacency_unfold, Neighbors_unfold by assumption.
    reflexivity.
  - intros Hc2 Hr2. apply Neighbors_count; assumption.
  - repeat split; vm_compute; reflexivity.
Qed.

Lemma calculateAdjacency_neighbors_witness :
  calculateAdjacency 3 3 4 = Done [0; 1; 2; 3; 5; 6; 7; 8] /\
  AdjacencySpec.is_interior 3 3 4 = true /\
  List.length (AdjacencySpec.Neighbors 3 3 4) = 8%nat.
Proof.
  destruct (@calculateAdjacency_neighbors 3 3 4) as (H1 & H2 & _);
    [lia | lia | vm_compute; discriminate | lia |].
  split; [exact H1 | split; [reflexivity |]].
  apply H2; [lia | lia | reflexivity].
Defined.

(** C4 as stated fails.  A 1x1 grid has one cell, a corner, with no
    neighbour at all, and on a 1x3 grid the middle cell lies on the border
    without being a corner and has 2 neighbours.  When the board size
    exceeds the range of [int], the cell below an in-range cell can be
    unrepresentable: the sum wraps to a negative index. *)
Lemma calculateAdjacency_counterexample :
  (AdjacencySpec.is_corner 1 1 0 = true /\
   calculateAdjacency 1 1 0 = Done []) /\
  (AdjacencySpec.is_edge 3 1 1 = true /\
   calculateAdjacency 3 1 1 = Done [0; 2]) /\
  (0 <= 2 ^ 63 - 1 < 2 ^ 62 * 4 /\
   calculateAdjacency (2 ^ 62) 4 (2 ^ 63 - 1)
     = Done [2 ^ 62 - 2; 2 ^ 62 - 1; 2 ^ 63 - 2; - 2 ^ 63 + 2 ^ 62 - 2;
             - 2 ^ 63 + 2 ^ 62 - 1]).
Proof.
  repeat split; try reflexivity; vm_compute; congruence.
Qed.

(** ** Bytes and strings *)

Lemma byte_val_inj c d : byte_val c = byte_val d -> c = d.
Proof.
  unfold byte_val. intros H. apply N2Z.inj in H.
  rewrite <- (ascii_N_embedding c), <- (ascii_N_embedding d). now f_equal.
Qed.

Lemma byte_val_eqb c d : (byte_val c =? byte_val d) = (c =? d)%char.
Proof.
  destruct (Ascii.eqb_spec c d) as [->|Hne].
  - apply Z.eqb_refl.
  - apply Z.eqb_neq. intros H. apply Hne, byte_val_inj, H.
Qed.

Lemma byte_val_q c : (byte_val c =? 113) = (c =? "q")%char.
Proof. exact (byte_val_eqb c "q"). Qed.

Lemma byte_val_u c : (byte_val c =? 117) = (c =? "u")%char.
Proof. exact (byte_val_eqb c "u"). Qed.

Lemma len_String c s : len (String c s) = 1 + len s.
Proof. unfold len. cbn [String.length]. lia. Qed.

Lemma len_nonneg s : 0 <= len s.
Proof. unfold len. lia. Qed.

(** ** The dictionary *)

Lemma existsb_eqb_In (k : string) (l : list string) :
  existsb (String.eqb k) l = true <-> In k l.
Proof.
  rewrite existsb_exists. split.
  - intros (x & Hx & He). apply String.eqb_eq in He. now subst.
  - intros H. exists k. split; [assumption | apply String.eqb_refl].
Qed.

Lemma Put_keys t key k :
  In k (radixtree.keys (radixtree.Put t key)) <->
  In k (radixtree.keys t) \/ k = key.
Proof.
  unfold radixtree.Put.
  destruct (existsb (String.eqb key) (radixtree.keys t)) eqn:E.
  - apply existsb_eqb_In in E. split; [now left | intros [H| ->]; assumption].
  - cbn [radixtree.keys]. rewrite in_app_iff. cbn [In]. intuition congruence.
Qed.

Lemma Put_NoDup t key :
  NoDup (radixtree.keys t) -> NoDup (radixtree.keys (radixtree.Put t key)).
Proof.
  intros H. unfold radixtree.Put.
  destruct (existsb (String.eqb key) (radixtree.keys t)) eqn:E; [assumption|].
  cbn [radixtree.keys].
  assert (Hn : ~ In key (radixtree.keys t)).
  { intros Hin. apply existsb_eqb_In in Hin. congruence. }
  apply NoDup_app; [assumption | repeat constructor; intros [] | ].
  intros a Ha [<-|[]]. contradiction.
Qed.

(** One line of the words file: the loader keeps the collapsed word exactly
    when the word is accepted. *)
Lemma loadWord_accepted tree word maxLen :
  loadWord tree word maxLen 3 =
  Done (if BuildSpec.accepted maxLen word
        then radixtree.Put tree (BuildSpec.collapse word) else tree).
Proof.
  unfold loadWord, BuildSpec.accepted.
  destruct (maxLen <? len word) eqn:Hmax; cbn [orb negb andb]; [reflexivity|].
  destruct (len word <? 3) eqn:Hmin; cbn [negb andb]; [reflexivity|].
  apply Z.ltb_ge in Hmin.
  destruct word as [|w0 [|w1 [|w2 rest]]];
    try (exfalso; rewrite ?len_String in Hmin; unfold len in Hmin;
         cbn in Hmin; lia).
  cbn [BuildSpec.first_not_below_a].
  destruct (Z.ltb_spec (byte_val w0) 97) as [Hlow|Hlow].
  - destruct (Z.leb_spec 97 (byte_val w0)); [lia | reflexivity].
  - destruct (Z.leb_spec 97 (byte_val w0)); [|lia]. cbn [andb].
    rewrite byte_val_q, byte_val_u.
    destruct (Ascii.eqb_spec w0 "q") as [->|Hq].
    + cbn [BuildSpec.q_then_u].
      destruct (Ascii.eqb_spec w1 "u") as [->|Hu]; reflexivity.
    + assert (Hqu : BuildSpec.q_then_u (String w0 (String w1 (String w2 rest))) = true).
      { destruct w0 as [[] [] [] [] [] [] [] []]; try reflexivity.
        now elim Hq. }
      assert (Hco : BuildSpec.collapse (String w0 (String w1 (String w2 rest)))
                    = String w0 (String w1 (String w2 rest))).
      { destruct w0 as [[] [] [] [] [] [] [] []]; try reflexivity.
        now elim Hq. }
      rewrite Hqu, Hco. reflexivity.
Qed.

Lemma scanLoop_keys words : forall tree maxLen,
  exists tree',
    scanLoop tree words maxLen 3 = Done tree' /\
    (NoDup (radixtree.keys tree) -> NoDup (radixtree.keys tree')) /\
    forall key,
      In key (radixtree.keys tree') <->
      In key (radixtree.keys tree) \/
      exists word, In word words /\ BuildSpec.accepted maxLen word = true /\
                   key = BuildSpec.collapse word.
Proof.
  induction words as [|word words IH]; intros tree maxLen.
  - exists tree. split; [reflexivity | split; [auto|]].
    intros key. split; [now left | intros [H|(w & [] & _)]; assumption].
  - cbn [scanLoop]. rewrite loadWord_accepted. cbn [bind].
    destruct (IH (if BuildSpec.accepted maxLen word
                  then radixtree.Put tree (BuildSpec.collapse word) else tree)
                 maxLen) as (tree' & Hrun & Hnd & Hkeys).
    exists tree'. split; [exact Hrun | split].
    + intros H. apply Hnd.
      destruct (BuildSpec.accepted maxLen word); [now apply Put_NoDup | assumption].
    + intros key. rewrite Hkeys.
      destruct (BuildSpec.accepted maxLen word) eqn:Hacc.
      * rewrite Put_keys. split.
        -- intros [[H| ->]|(w & Hin & Ha & He)].
           ++ now left.
           ++ right. exists word. cbn [In]. auto.
           ++ right. exists w. cbn [In]. auto.
        -- intros [H|(w & [<-|Hin] & Ha & He)].
           ++ left. now left.
           ++ left. now right.
           ++ right. exists w. auto.
      * split.
        -- intros [H|(w & Hin & Ha & He)]; [now left|].
           right. exists w. cbn [In]. auto.
        -- intros [H|(w & [<-|Hin] & Ha & He)]; [now left | congruence |].
           right. exists w. auto.
Qed.

(** C5 (as amended).  Whatever words are scanned, the dictionary built
    with minimum length 3 holds exactly the collapsed forms of the accepted
    words: those no longer than [maxLen], no shorter than 3, whose first
    byte is not below ['a'] (this drops capitals, digits and most
    punctuation, and keeps a first byte above ['z']), and which, when they
    start with "q", continue with "u"; an accepted "qu..." word is stored
    with its leading "qu" collapsed to "q", any other unchanged. *)
Theorem loadWords_keeps_accepted_words (words : list string) (maxLen : Z) :
  exists tree,
    loadWords (Lines words None) maxLen 3 = Done (Ok tree) /\
    forall key,
      In key (radixtree.keys tree) <->
      exists word, In word words /\ BuildSpec.accepted maxLen word = true /\
                   key = BuildSpec.collapse word.
Proof.
  destruct (scanLoop_keys words radixtree.New maxLen)
    as (tree & Hrun & _ & Hkeys).
  exists tree. split.
  - unfold loadWords. rewrite Hrun. reflexivity.
  - intros key. rewrite Hkeys. cbn [radixtree.New radixtree.keys In].
    split.
    + intros [[]|H]. exact H.
    + intros H. now right.
Qed.

(** C5 as stated fails: a word whose first character is not a lowercase
    letter survives when that character lies above ['z']; "{ab" does not
    pass the stated filters and is inserted all the same. *)
Lemma loadWords_counterexample :
  BuildSpec.survives 16 "{ab" = false /\
  loadWords (Lines ["{ab"] None) 16 3
    = Done (Ok {| radixtree.keys := ["{ab"] |}).
Proof. split; reflexivity. Qed.

(** ** The order on strings and the normaliser *)

Lemma string_lt_lts a b : string_lt a b <-> String_as_OT.lt a b.
Proof.
  unfold string_lt, String.ltb. rewrite <- String_as_OT.cmp_lt.
  unfold String_as_OT.cmp. destruct (String.compare a b); split; congruence.
Qed.

Lemma string_lt_trans a b c : string_lt a b -> string_lt b c -> string_lt a c.
Proof. rewrite !string_lt_lts. apply String_as_OT.lt_trans. Qed.

Lemma string_lt_irrefl a : ~ string_lt a a.
Proof.
  rewrite string_lt_lts. intros H.
  apply String_as_OT.lt_not_eq in H. now apply H.
Qed.

Lemma string_le_lt_eq a b : string_le a b <-> a = b \/ string_lt a b.
Proof.
  unfold string_le, string_lt, String.leb, String.ltb.
  destruct (String.compare a b) eqn:E.
  - apply String.compare_eq_iff in E. intuition congruence.
  - intuition congruence.
  - split; [discriminate|]. intros [->|H]; [|discriminate].
    assert (Hrefl : String.compare b b = Eq) by now apply String_as_OT.cmp_eq.
    congruence.
Qed.

Lemma string_le_refl a : string_le a a.
Proof. apply string_le_lt_eq. now left. Qed.

Lemma string_not_le_lt a b : (a <=? b)%string = false -> string_lt b a.
Proof.
  unfold string_lt, String.leb, String.ltb. rewrite (String.compare_antisym a b).
  destruct (String.compare b a); cbn; congruence.
Qed.

Lemma string_le_trans a b c : string_le a b -> string_le b c -> string_le a c.
Proof.
  rewrite !string_le_lt_eq. intros [->|Hab] [->|Hbc]; auto.
  right. eapply string_lt_trans; eassumption.
Qed.

Lemma string_le_empty a : string_le "" a.
Proof. destruct a; reflexivity. Qed.

Lemma insert_sorted_In w l x : In x (insert_sorted w l) <-> x = w \/ In x l.
Proof.
  induction l as [|h t IH]; cbn [insert_sorted In].
  - intuition.
  - destruct (w <=? h)%string; cbn [In]; rewrite ?IH; intuition.
Qed.

Lemma insert_sorted_perm w l : Permutation (w :: l) (insert_sorted w l).
Proof.
  induction l as [|h t IH]; cbn [insert_sorted]; [reflexivity|].
  destruct (w <=? h)%string; [reflexivity|].
  rewrite perm_swap. now constructor.
Qed.

Lemma insert_sorted_sorted w l :
  StronglySorted string_le l -> StronglySorted string_le (insert_sorted w l).
Proof.
  induction l as [|h t IH]; intros Hs; cbn [insert_sorted].
  - repeat constructor.
  - inversion Hs as [|? ? Ht Hall]; subst.
    destruct (w <=? h)%string eqn:E.
    + constructor; [assumption|]. constructor; [exact E|].
      rewrite Forall_forall in *. intros x Hx.
      eapply string_le_trans; [exact E | now apply Hall].
    + constructor; [now apply IH|].
      rewrite Forall_forall in *. intros x Hx.
      apply insert_sorted_In in Hx. destruct Hx as [->|Hx]; [|now apply Hall].
      apply string_le_lt_eq. right. now apply string_not_le_lt.
Qed.

Lemma sort_strings_In l x : In x (sort_strings l) <-> In x l.
Proof.
  induction l as [|h t IH]; cbn [sort_strings fold_right In]; [tauto|].
  fold (sort_strings t). rewrite insert_sorted_In, IH. intuition.
Qed.

Lemma sort_strings_perm l : Permutation l (sort_strings l).
Proof.
  induction l as [|h t IH]; cbn [sort_strings fold_right]; [constructor|].
  fold (sort_strings t). rewrite <- insert_sorted_perm. now constructor.
Qed.

Lemma sort_strings_sorted l : StronglySorted string_le (sort_strings l).
Proof.
  induction l as [|h t IH]; cbn [sort_strings fold_right]; [constructor|].
  now apply insert_sorted_sorted.
Qed.

Lemma uniqueLoop_app words : forall prev unique,
  uniqueLoop words prev unique = unique ++ uniqueLoop words prev [].
Proof.
  induction words as [|w words IH]; intros prev unique; cbn [uniqueLoop].
  - now rewrite app_nil_r.
  - destruct (negb (w =? prev)%string).
    + rewrite IH, (IH w ([] ++ [w])), <- app_assoc. reflexivity.
    + apply IH.
Qed.

(** The loop on a sorted slice whose words are all at least [prev]: what it
    appends is strictly increasing, lies strictly above [prev], and is the
    set of words other than [prev]. *)
Lemma uniqueLoop_sorted words : forall prev,
  StronglySorted string_le words ->
  Forall (string_le prev) words ->
  strictly_increasing (uniqueLoop words prev []) /\
  Forall (string_lt prev) (uniqueLoop words prev []) /\
  forall x, In x (uniqueLoop words prev []) <-> In x words /\ x <> prev.
Proof.
  induction words as [|w words IH]; intros prev Hs Hge; cbn [uniqueLoop].
  - split; [constructor | split; [constructor|]]. cbn [In]. tauto.
  - inversion Hs as [|? ? Hs' Hall]; subst.
    inversion Hge as [|? ? Hw Hge']; subst.
    destruct (String.eqb_spec w prev) as [->|Hne]; cbn [negb].
    + destruct (IH prev Hs' Hge') as (H1 & H2 & H3).
      split; [assumption | split; [assumption|]].
      intros x. rewrite H3. cbn [In]. intuition congruence.
    + rewrite uniqueLoop_app. cbn [app].
      destruct (IH w Hs' Hall) as (H1 & H2 & H3).
      assert (Hlt : string_lt prev w).
      { apply string_le_lt_eq in Hw. destruct Hw as [->|Hw]; [now elim Hne | assumption]. }
      split; [|split].
      * constructor; assumption.
      * constructor; [assumption|].
        rewrite Forall_forall in *. intros x Hx.
        eapply string_lt_trans; [exact Hlt | now apply H2].
      * intros x. cbn [In]. rewrite H3. split.
        -- intros [<-|[Hx Hxw]]; [split; [now left | congruence]|].
           split; [now right|]. intros ->.
           rewrite Forall_forall in Hall. specialize (Hall _ Hx).
           apply string_le_lt_eq in Hall. destruct Hall as [Heq|Hlt'].
           ++ congruence.
           ++ apply (string_lt_irrefl (a := prev)).
              eapply string_lt_trans; eassumption.
        -- intros [[<-|Hx] Hxp]; [now left|].
           destruct (string_dec w x) as [->|Hwx]; [now left | right].
           split; [assumption | congruence].
Qed.

Lemma uniqueSortedWords_increasing words :
  strictly_increasing (uniqueSortedWords words).
Proof.
  unfold uniqueSortedWords.
  destruct (Z.eqb_spec (Z.of_nat (List.length words)) 0) as [H0|_].
  - destruct words; [constructor | discriminate H0].
  - apply uniqueLoop_sorted; [apply sort_strings_sorted|].
    apply Forall_forall. intros x _. apply string_le_empty.
Qed.

(** The normaliser keeps every word but the empty one, which coincides with
    the initial value of [prev]. *)
Lemma uniqueSortedWords_In words x :
  In x (uniqueSortedWords words) <-> In x words /\ x <> "".
Proof.
  unfold uniqueSortedWords.
  destruct (Z.eqb_spec (Z.of_nat (List.length words)) 0) as [H0|_].
  - destruct words; [cbn [In]; tauto | discriminate H0].
  - destruct (@uniqueLoop_sorted (sort_strings words) "") as (_ & _ & H).
    + apply sort_strings_sorted.
    + apply Forall_forall. intros y _. apply string_le_empty.
    + rewrite H, sort_strings_In. tauto.
Qed.

Lemma strictly_increasing_NoDup l : strictly_increasing l -> NoDup l.
Proof.
  induction 1 as [|a l Hs IH Hall]; constructor; [|assumption].
  intros Hin. rewrite Forall_forall in Hall.
  exact (string_lt_irrefl (Hall _ Hin)).
Qed.

(** A strictly increasing sequence is determined by its set of elements. *)
Lemma strictly_increasing_ext l1 : forall l2,
  strictly_increasing l1 -> strictly_increasing l2 ->
  (forall x, In x l1 <-> In x l2) -> l1 = l2.
Proof.
  induction l1 as [|a l1 IH]; intros l2 H1 H2 Hext.
  - destruct l2 as [|b l2]; [reflexivity|].
    exfalso. apply (proj2 (Hext b)). now left.
  - destruct l2 as [|b l2].
    + exfalso. apply (proj1 (Hext a)). now left.
    + inversion H1 as [|? ? Hs1 Hall1]; subst.
      inversion H2 as [|? ? Hs2 Hall2]; subst.
      rewrite Forall_forall in Hall1, Hall2.
      assert (Hab : a = b).
      { destruct (proj1 (Hext a) (or_introl eq_refl)) as [Hba|Hin]; [congruence|].
        destruct (proj2 (Hext b) (or_introl eq_refl)) as [Hab|Hin']; [congruence|].
        exfalso. apply (string_lt_irrefl (a := a)).
        eapply string_lt_trans; [apply Hall1, Hin' | apply Hall2, Hin]. }
      subst b. f_equal. apply IH; try assumption.
      intros x. split; intros Hx.
      * destruct (proj1 (Hext x) (or_intror Hx)) as [<-|Hin]; [|assumption].
        exfalso. exact (string_lt_irrefl (Hall1 _ Hx)).
      * destruct (proj2 (Hext x) (or_intror Hx)) as [<-|Hin]; [|assumption].
        exfalso. exact (string_lt_irrefl (Hall2 _ Hx)).
Qed.

(** ** The neighbour loop *)

Lemma at_index_Done s i c : at_index s i = Done c <-> byte_at s i = Some c.
Proof.
  unfold at_index. destruct (byte_at s i); split; intros H;
    inversion H; subst; reflexivity.
Qed.

Lemma rehydrate_Done key w :
  rehydrate key = Done w -> w = PathSpec.rehydrated key /\ key <> "".
Proof.
  destruct key as [|k0 rest]; cbn [rehydrate]; [discriminate|].
  rewrite byte_val_q.
  destruct (Ascii.eqb_spec k0 "q") as [->|Hq]; intros H; inversion H; subst.
  - split; [reflexivity | discriminate].
  - split; [|discriminate].
    destruct k0 as [[] [] [] [] [] [] [] []]; try reflexivity. now elim Hq.
Qed.

Lemma rehydrate_nonempty key :
  key <> "" -> rehydrate key = Done (PathSpec.rehydrated key).
Proof.
  destruct key as [|k0 rest]; [congruence|]. intros _. cbn [rehydrate].
  rewrite byte_val_q.
  destruct (Ascii.eqb_spec k0 "q") as [->|Hq]; [reflexivity|].
  destruct k0 as [[] [] [] [] [] [] [] []]; try reflexivity. now elim Hq.
Qed.

Lemma append_nonempty (p : string) c : (p ++ String c "")%string <> "".
Proof. destruct p; discriminate. Qed.

Lemma Next_true s c s' :
  radixtree.Next s c = (s', true) ->
  s' = {| radixtree.tree := radixtree.tree s;
          radixtree.consumed := (radixtree.consumed s ++ String c "")%string |}
  /\ radixtree.on_path (radixtree.tree s)
       (radixtree.consumed s ++ String c "")%string = true.
Proof.
  unfold radixtree.Next.
  destruct (radixtree.on_path _ _) eqn:E; intros H; inversion H; auto.
Qed.

Lemma Next_false s c s' :
  radixtree.Next s c = (s', false) ->
  s' = s /\ radixtree.on_path (radixtree.tree s)
              (radixtree.consumed s ++ String c "")%string = false.
Proof.
  unfold radixtree.Next.
  destruct (radixtree.on_path _ _) eqn:E; intros H; inversion H; auto.
Qed.

Lemma StepperItem_Some s item :
  radixtree.StepperItem s = Some item ->
  radixtree.Key item = radixtree.consumed s /\
  In (radixtree.consumed s) (radixtree.keys (radixtree.tree s)).
Proof.
  unfold radixtree.StepperItem.
  destruct (existsb _ _) eqn:E; intros H; inversion H; subst.
  split; [reflexivity | now apply existsb_eqb_In].
Qed.

(** If the neighbour loop returns, it has pushed the nodes [pushed] in
    order and recorded the word of each one that stands on a key. *)
Lemma adjLoop_Done board p seen sqAdj : forall q words r,
  adjLoop board p seen sqAdj q words = Done r ->
  r = (q ++ Frontier.pushed board p seen sqAdj,
       words ++ flat_map Frontier.found (Frontier.pushed board p seen sqAdj)).
Proof.
  induction sqAdj as [|curSq sqAdj IH]; intros q words r; cbn [adjLoop].
  - intros H. inversion H. cbn. now rewrite !app_nil_r.
  - unfold Frontier.pushed. cbn [flat_map]. fold (Frontier.pushed board p seen sqAdj).
    unfold Frontier.extend, radixtree.Copy.
    destruct (alreadySeen seen curSq); [apply IH|].
    unfold at_index. destruct (byte_at board curSq) as [c|]; [|discriminate].
    cbn [bind]. destruct (radixtree.Next p c) as [curNode ok] eqn:EN.
    destruct ok; cbn [negb app]; [|apply IH].
    unfold pushBack. cbn [flat_map]. unfold Frontier.found at 1.
    cbn [parentTrie].
    destruct (radixtree.StepperItem curNode) as [item|] eqn:EI.
    + destruct (rehydrate (radixtree.Key item)) as [w| |] eqn:ER;
        cbn [bind]; try discriminate.
      apply rehydrate_Done in ER. destruct ER as [-> _].
      intros H. apply IH in H. rewrite H.
      rewrite <- !app_assoc. reflexivity.
    + cbn [bind]. intros H. apply IH in H. rewrite H.
      rewrite <- !app_assoc. reflexivity.
Qed.

(** The neighbour loop returns when every neighbour not yet visited is an
    index of the board. *)
Lemma adjLoop_returns board p seen sqAdj : forall q words,
  (forall c, In c sqAdj -> alreadySeen seen c = false -> byte_at board c <> None) ->
  exists r, adjLoop board p seen sqAdj q words = Done r.
Proof.
  induction sqAdj as [|curSq sqAdj IH]; intros q words Hin; cbn [adjLoop].
  - eexists. reflexivity.
  - assert (Hin' : forall c, In c sqAdj -> alreadySeen seen c = false ->
                             byte_at board c <> None).
    { intros c Hc. apply Hin. now right. }
    destruct (alreadySeen seen curSq) eqn:ES; [now apply IH|].
    unfold at_index, radixtree.Copy.
    destruct (byte_at board curSq) as [c|] eqn:EB;
      [|exfalso; now apply (Hin curSq (or_introl eq_refl) ES)].
    cbn [bind]. destruct (radixtree.Next p c) as [curNode ok] eqn:EN.
    destruct ok; cbn [negb]; [|now apply IH].
    apply Next_true in EN. destruct EN as [-> _].
    destruct (radixtree.StepperItem _) as [item|] eqn:EI.
    + apply StepperItem_Some in EI. destruct EI as [EK _].
      cbn [radixtree.consumed] in EK.
      rewrite rehydrate_nonempty by (rewrite EK; apply append_nonempty).
      cbn [bind]. now apply IH.
    + cbn [bind]. now apply IH.
Qed.

Lemma string_append_assoc (a b c : string) :
  ((a ++ b) ++ c)%string = (a ++ (b ++ c))%string.
Proof. induction a as [|x a IH]; cbn; [reflexivity | now rewrite IH]. Qed.

Lemma string_append_nil_r (a : string) : (a ++ "")%string = a.
Proof. induction a as [|x a IH]; cbn; [reflexivity | now rewrite IH]. Qed.

Lemma prefix_append (p x : string) : String.prefix p (p ++ x) = true.
Proof.
  induction p as [|c p IH]; cbn; [now destruct x|].
  destruct (ascii_dec c c); [assumption | congruence].
Qed.

Lemma string_length_append (a b : string) :
  String.length (a ++ b) = (String.length a + String.length b)%nat.
Proof. induction a as [|x a IH]; cbn; [reflexivity | now rewrite IH]. Qed.

Lemma get_Some_lt s : forall n c,
  String.get n s = Some c -> (n < String.length s)%nat.
Proof.
  induction s as [|x s IH]; intros n c; cbn; [discriminate|].
  destruct n; [lia|]. intros H. apply IH in H. lia.
Qed.

Lemma get_lt_Some s : forall n,
  (n < String.length s)%nat -> exists c, String.get n s = Some c.
Proof.
  induction s as [|x s IH]; intros n; cbn; [lia|].
  destruct n; [eauto|]. intros H. apply IH. lia.
Qed.

Lemma byte_at_in_range s i : byte_at s i <> None <-> 0 <= i < len s.
Proof.
  unfold byte_at, len. destruct (Z.ltb_spec i 0) as [Hneg|Hpos].
  - split; [congruence | lia].
  - split.
    + destruct (String.get (Z.to_nat i) s) eqn:E; [|congruence]. intros _.
      apply get_Some_lt in E. lia.
    + intros H. destruct (@get_lt_Some s (Z.to_nat i)) as (c & ->); [lia|].
      discriminate.
Qed.

Lemma alreadySeen_In seen c : alreadySeen seen c = true <-> In c seen.
Proof.
  induction seen as [|v seen IH]; cbn [alreadySeen In]; [split; [discriminate|tauto]|].
  destruct (Z.eqb_spec v c); [tauto|]. rewrite IH. intuition.
Qed.

Lemma alreadySeen_notIn seen c : alreadySeen seen c = false <-> ~ In c seen.
Proof.
  rewrite <- alreadySeen_In. destruct (alreadySeen seen c); intuition congruence.
Qed.

(** The nodes pushed for a parent: one for each neighbour that is not yet
    visited and whose letter keeps the stepper on a path of the tree. *)
Lemma pushed_In board p seen sqAdj n :
  In n (Frontier.pushed board p seen sqAdj) <->
  exists c b,
    In c sqAdj /\ ~ In c seen /\ byte_at board c = Some b /\
    radixtree.on_path (radixtree.tree p)
      (radixtree.consumed p ++ String b "")%string = true /\
    n = {| parentSquare := c;
           parentTrie := {| radixtree.tree := radixtree.tree p;
                            radixtree.consumed :=
                              (radixtree.consumed p ++ String b "")%string |};
           seen := seen ++ [c] |}.
Proof.
  unfold Frontier.pushed. rewrite in_flat_map. split.
  - intros (c & Hc & Hn). unfold Frontier.extend in Hn.
    destruct (alreadySeen seen c) eqn:ES; [destruct Hn|].
    destruct (byte_at board c) as [b|] eqn:EB; [|destruct Hn].
    destruct (radixtree.Next p b) as [curNode ok] eqn:EN.
    destruct ok; [|destruct Hn].
    apply Next_true in EN. destruct EN as [-> Hpath].
    destruct Hn as [<-|[]]. exists c, b.
    rewrite <- alreadySeen_notIn. auto.
  - intros (c & b & Hc & Hs & Hb & Hp & ->). exists c. split; [assumption|].
    unfold Frontier.extend. apply alreadySeen_notIn in Hs. rewrite Hs, Hb.
    unfold radixtree.Next. rewrite Hp. now left.
Qed.

Lemma pushed_length board p seen sqAdj :
  (List.length (Frontier.pushed board p seen sqAdj) <= List.length sqAdj)%nat.
Proof.
  unfold Frontier.pushed.
  induction sqAdj as [|c sqAdj IH]; cbn [flat_map List.length]; [lia|].
  rewrite length_app.
  destruct (Frontier.extend board p seen c); cbn [List.length]; lia.
Qed.

Lemma found_In n w :
  In w (Frontier.found n) <->
  w = PathSpec.rehydrated (radixtree.consumed (parentTrie n)) /\
  In (radixtree.consumed (parentTrie n))
     (radixtree.keys (radixtree.tree (parentTrie n))).
Proof.
  unfold Frontier.found, radixtree.StepperItem.
  destruct (existsb _ _) eqn:E; cbn [In radixtree.Key].
  - apply existsb_eqb_In in E. intuition.
  - split; [tauto|]. intros [_ H]. apply existsb_eqb_In in H. congruence.
Qed.

(** ** The frontier loop: what it records *)

Lemma expand_Done s board qn q words st :
  expand s board qn q words = Done st ->
  st = (q ++ Frontier.children s board qn,
        words ++ flat_map Frontier.found (Frontier.children s board qn)).
Proof.
  unfold expand, Frontier.children.
  destruct (calculateAdjacency (cols s) (rows s) (parentSquare qn));
    cbn [bind]; try discriminate.
  apply adjLoop_Done.
Qed.

Lemma descendant_inv s board n d :
  Frontier.descendant s board n d <->
  In d (Frontier.children s board n) \/
  exists c, In c (Frontier.children s board n) /\ Frontier.descendant s board c d.
Proof.
  split.
  - intros H. inversion H; subst; eauto.
  - intros [H|(c & Hc & Hd)]; [now constructor|].
    eapply Frontier.descendant_deeper; eassumption.
Qed.

(** When the frontier loop finishes, the words it holds are those it
    started with and those found at the descendants of the queued nodes. *)
Lemma drain_words s board fuel : forall q words ws,
  drain fuel s board q words = Done ws ->
  forall w,
    In w ws <->
    In w words \/
    exists n d, In n q /\ Frontier.descendant s board n d /\
                In w (Frontier.found d).
Proof.
  induction fuel as [|fuel IH]; intros q words ws H w.
  - destruct q; cbn [drain] in H; [|discriminate].
    inversion H; subst. split; [now left|].
    intros [Hw|(n & d & [] & _)]. assumption.
  - destruct q as [|qn q]; cbn [drain] in H.
    + inversion H; subst. split; [now left|].
      intros [Hw|(n & d & [] & _)]. assumption.
    + destruct (expand s board qn q words) as [[q' words']| |] eqn:EE;
        cbn [bind] in H; try discriminate.
      apply expand_Done in EE. inversion EE; subst q' words'. clear EE.
      rewrite (IH _ _ _ H w). rewrite in_app_iff, in_flat_map. split.
      * intros [[Hw|(c & Hc & Hf)]|(n & d & Hn & Hd & Hf)].
        -- now left.
        -- right. exists qn, c. split; [now left|].
           split; [now constructor | assumption].
        -- right. apply in_app_iff in Hn. destruct Hn as [Hn|Hn].
           ++ exists n, d. split; [now right | auto].
           ++ exists qn, d. split; [now left|]. split; [|assumption].
              eapply Frontier.descendant_deeper; eassumption.
      * intros [Hw|(n & d & [<-|Hn] & Hd & Hf)].
        -- left. now left.
        -- apply descendant_inv in Hd. destruct Hd as [Hd|(c & Hc & Hd)].
           ++ left. right. exists d. auto.
           ++ right. exists c, d. rewrite in_app_iff. auto.
        -- right. exists n, d. rewrite in_app_iff. auto.
Qed.

(** ** Adjacency as a relation between cells *)

Lemma coordinates_of columns x y :
  1 <= columns -> 0 <= x < columns ->
  AdjacencySpec.column columns (y * columns + x) = x /\
  AdjacencySpec.row columns (y * columns + x) = y.
Proof.
  intros Hc Hx. unfold AdjacencySpec.column, AdjacencySpec.row.
  rewrite Z.add_comm. split.
  - rewrite Z.mod_add by lia. apply Z.mod_small. lia.
  - rewrite Z.div_add by lia. rewrite Z.div_small by lia. lia.
Qed.

Lemma directions_In dx dy :
  In (dx, dy) AdjacencySpec.directions <->
  -1 <= dx <= 1 /\ -1 <= dy <= 1 /\ (dx <> 0 \/ dy <> 0).
Proof.
  unfold AdjacencySpec.directions. cbn [In]. split.
  - intros H. repeat (destruct H as [H|H]; [inversion H; subst; lia|]).
    destruct H.
  - intros (Hx & Hy & Hne).
    assert (Hdx : dx = -1 \/ dx = 0 \/ dx = 1) by lia.
    assert (Hdy : dy = -1 \/ dy = 0 \/ dy = 1) by lia.
    destruct Hdx as [ -> | [ -> | -> ] ], Hdy as [ -> | [ -> | -> ] ];
      try lia; tauto.
Qed.

(** The cells listed for [a] are the cells of the board adjacent to [a]. *)
Lemma Neighbors_adjacent columns rows a b :
  1 <= columns -> 1 <= rows -> 0 <= a < columns * rows ->
  In b (AdjacencySpec.Neighbors columns rows a) <->
  PathSpec.on_board columns rows b /\ PathSpec.adjacent columns a b.
Proof.
  intros Hc Hr Ha.
  destruct (@cell_coordinates columns rows a) as (Hxy & Hx & Hy); try lia.
  set (x := AdjacencySpec.column columns a) in *.
  set (y := AdjacencySpec.row columns a) in *.
  unfold AdjacencySpec.Neighbors. fold x y.
  rewrite in_map_iff. split.
  - intros ([x' y'] & Hb & Hin). cbn [fst snd] in Hb.
    apply filter_In in Hin. destruct Hin as [Hd Hins].
    apply in_map_iff in Hd. destruct Hd as ([dx dy] & Hxy' & Hd).
    cbn [fst snd] in Hxy'. inversion Hxy'; subst x' y'. clear Hxy'.
    apply directions_In in Hd.
    unfold AdjacencySpec.inside in Hins. cbn [fst snd] in Hins.
    apply andb_prop in Hins. destruct Hins as [Hins H4].
    apply andb_prop in Hins. destruct Hins as [Hins H3].
    apply andb_prop in Hins. destruct Hins as [H1 H2].
    apply Z.leb_le in H1, H3. apply Z.ltb_lt in H2, H4.
    destruct (@coordinates_of columns (x + dx) (y + dy)) as [Hcol Hrow]; try lia.
    rewrite Hb in Hcol, Hrow.
    split.
    + unfold PathSpec.on_board. subst b. nia.
    + unfold PathSpec.adjacent. fold x y. rewrite Hcol, Hrow.
      split; [|lia]. intros Heq. rewrite <- Heq in Hcol, Hrow.
      change (x = x + dx) in Hcol. change (y = y + dy) in Hrow. lia.
  - intros (Hb & Hne & Hcol & Hrow). unfold PathSpec.on_board in Hb.
    fold x y in Hcol, Hrow.
    destruct (@cell_coordinates columns rows b) as (Hbxy & Hbx & Hby); try lia.
    set (xb := AdjacencySpec.column columns b) in *.
    set (yb := AdjacencySpec.row columns b) in *.
    exists (xb, yb). cbn [fst snd]. split; [lia|].
    apply filter_In. split.
    + apply in_map_iff. exists (xb - x, yb - y). cbn [fst snd].
      split; [f_equal; lia|]. apply directions_In.
      split; [lia | split; [lia|]].
      destruct (Z.eq_dec xb x) as [Hex|Hex]; [|left; lia].
      destruct (Z.eq_dec yb y) as [Hey|Hey]; [|right; lia].
      exfalso. apply Hne. rewrite Hxy, Hbxy, Hex, Hey. reflexivity.
    + unfold AdjacencySpec.inside. cbn [fst snd].
      repeat (apply andb_true_intro; split);
        try (apply Z.leb_le; lia); apply Z.ltb_lt; lia.
Qed.

(** ** Walks and simple paths *)

Lemma stepwise_cons_iff (R : Z -> Z -> Prop) a b l :
  PathSpec.stepwise R (a :: b :: l) <-> R a b /\ PathSpec.stepwise R (b :: l).
Proof.
  split.
  - intros H. inversion H; subst. auto.
  - intros [H1 H2]. now constructor.
Qed.

Lemma NoDup_snoc (seen : list Z) c :
  NoDup seen -> ~ In c seen -> NoDup (seen ++ [c]).
Proof.
  intros Hnd Hc. apply NoDup_app; [assumption | repeat constructor; intros [] |].
  intros a Ha [<-|[]]. contradiction.
Qed.

(** A walk continuing the visited cells [seen] from [cur] is an extension
    of [seen] by a stepwise-adjacent run of fresh board cells. *)
Lemma walk_simple columns rows ext : forall cur seen,
  NoDup seen ->
  Frontier.walk columns rows cur seen ext <->
  PathSpec.stepwise (PathSpec.adjacent columns) (cur :: ext) /\
  Forall (PathSpec.on_board columns rows) ext /\
  NoDup (seen ++ ext).
Proof.
  induction ext as [|c ext IH]; intros cur seen Hnd; cbn [Frontier.walk].
  - rewrite app_nil_r. split; [intros _|tauto].
    split; [constructor | split; [constructor | assumption]].
  - rewrite stepwise_cons_iff. split.
    + intros (Hadj & Hb & Hs & Hw).
      apply IH in Hw; [|now apply NoDup_snoc].
      destruct Hw as (H1 & H2 & H3). rewrite <- app_assoc in H3.
      split; [auto | split; [now constructor | exact H3]].
    + intros ((Hadj & Hst) & Hall & Hnd').
      inversion Hall as [|? ? Hb Hall']; subst.
      assert (Hs : ~ In c seen).
      { apply NoDup_remove_2 in Hnd'. intros Hin. apply Hnd'.
        apply in_app_iff. now left. }
      split; [assumption | split; [assumption | split; [assumption|]]].
      apply IH; [now apply NoDup_snoc|].
      rewrite <- app_assoc. auto.
Qed.

Lemma calculateAdjacency_Neighbors columns rows cell :
  1 <= columns -> 1 <= rows -> columns * rows <= GoInt.max_int ->
  0 <= cell < columns * rows ->
  calculateAdjacency columns rows cell
    = Done (AdjacencySpec.Neighbors columns rows cell).
Proof.
  intros. rewrite calculateAdjacency_unfold, Neighbors_unfold by assumption.
  reflexivity.
Qed.

Lemma Neighbors_length columns rows cell :
  (List.length (AdjacencySpec.Neighbors columns rows cell) <= 8)%nat.
Proof.
  unfold AdjacencySpec.Neighbors. rewrite length_map.
  etransitivity; [apply filter_length_le|].
  rewrite length_map. cbn. lia.
Qed.

(** ** The search on a board that matches the geometry *)

Section Search.

Variable s : Solver.
Variable board : string.
Hypothesis Hcols : 1 <= cols s.
Hypothesis Hrows : 1 <= rows s.
Hypothesis Hsize : len board = cols s * rows s.
Hypothesis Hint : len board <= GoInt.max_int.

Local Abbreviation on_board := (PathSpec.on_board (cols s) (rows s)).
Local Abbreviation adjacent := (PathSpec.adjacent (cols s)).
Local Abbreviation walk := (Frontier.walk (cols s) (rows s)).

Lemma on_board_byte c : on_board c <-> exists b, byte_at board c = Some b.
Proof.
  unfold PathSpec.on_board. rewrite <- Hsize, <- byte_at_in_range.
  destruct (byte_at board c); split; try congruence; eauto.
  intros (b & H). discriminate.
Qed.

Lemma children_In n c :
  on_board (parentSquare n) ->
  In c (Frontier.children s board n) <->
  exists sq b,
    adjacent (parentSquare n) sq /\ on_board sq /\ ~ In sq (seen n) /\
    byte_at board sq = Some b /\
    radixtree.on_path (radixtree.tree (parentTrie n))
      (radixtree.consumed (parentTrie n) ++ String b "")%string = true /\
    c = {| parentSquare := sq;
           parentTrie :=
             {| radixtree.tree := radixtree.tree (parentTrie n);
                radixtree.consumed :=
                  (radixtree.consumed (parentTrie n) ++ String b "")%string |};
           seen := seen n ++ [sq] |}.
Proof.
  intros Hn. unfold Frontier.children.
  rewrite calculateAdjacency_Neighbors by (unfold PathSpec.on_board in Hn; lia).
  rewrite pushed_In. split.
  - intros (sq & b & Hin & Hs & Hb & Hp & ->).
    apply Neighbors_adjacent in Hin; try assumption.
    destruct Hin as [Hon Hadj]. exists sq, b. auto 10.
  - intros (sq & b & Hadj & Hon & Hs & Hb & Hp & ->).
    exists sq, b. split; [|auto].
    apply Neighbors_adjacent; auto.
Qed.

(** Soundness of the frontier: a descendant of a node is reached by a walk
    that continues the node's visited cells, and its stepper has consumed
    the letters read along that walk. *)
Lemma descendant_walk n d :
  Frontier.descendant s board n d -> on_board (parentSquare n) ->
  exists ext letters,
    ext <> [] /\ walk (parentSquare n) (seen n) ext /\
    PathSpec.spell board ext = Some letters /\
    parentTrie d =
      {| radixtree.tree := radixtree.tree (parentTrie n);
         radixtree.consumed :=
           (radixtree.consumed (parentTrie n) ++ letters)%string |} /\
    seen d = seen n ++ ext.
Proof.
  induction 1 as [n c Hc | n c d Hc Hd IH]; intros Hn.
  - apply children_In in Hc; [|assumption].
    destruct Hc as (sq & b & Hadj & Hon & Hs & Hb & Hp & ->).
    exists [sq], (String b ""). cbn [Frontier.walk PathSpec.spell parentTrie seen].
    rewrite Hb. split; [discriminate|]. auto 10.
  - apply children_In in Hc; [|assumption].
    destruct Hc as (sq & b & Hadj & Hon & Hs & Hb & Hp & ->).
    cbn [parentSquare parentTrie seen radixtree.tree radixtree.consumed] in IH.
    destruct (IH Hon) as (ext & letters & Hne & Hw & Hsp & Ht & Hse).
    exists (sq :: ext), (String b letters).
    cbn [Frontier.walk PathSpec.spell]. rewrite Hb, Hsp.
    split; [discriminate|]. split; [auto|]. split; [reflexivity|]. split.
    + rewrite Ht, string_append_assoc. reflexivity.
    + rewrite Hse, <- app_assoc. reflexivity.
Qed.

(** Exactness of pruning: a walk whose letters complete a key is never
    abandoned, because every prefix of a key is on a path of the tree. *)
Lemma walk_descendant ext : forall n letters,
  ext <> [] -> on_board (parentSquare n) ->
  walk (parentSquare n) (seen n) ext ->
  PathSpec.spell board ext = Some letters ->
  In (radixtree.consumed (parentTrie n) ++ letters)%string
     (radixtree.keys (radixtree.tree (parentTrie n))) ->
  exists d,
    Frontier.descendant s board n d /\
    parentTrie d =
      {| radixtree.tree := radixtree.tree (parentTrie n);
         radixtree.consumed :=
           (radixtree.consumed (parentTrie n) ++ letters)%string |}.
Proof.
  induction ext as [|sq ext IH]; intros n letters Hne Hn Hw Hsp Hkey;
    [congruence|].
  cbn [Frontier.walk] in Hw. destruct Hw as (Hadj & Hon & Hs & Hw).
  cbn [PathSpec.spell] in Hsp.
  destruct (byte_at board sq) as [b|] eqn:Hb; [|discriminate].
  destruct (PathSpec.spell board ext) as [rest|] eqn:Hrest; [|discriminate].
  inversion Hsp; subst letters. clear Hsp.
  set (p := radixtree.consumed (parentTrie n)) in *.
  set (c := {| parentSquare := sq;
               parentTrie := {| radixtree.tree := radixtree.tree (parentTrie n);
                                radixtree.consumed := (p ++ String b "")%string |};
               seen := seen n ++ [sq] |}).
  assert (Hassoc : ((p ++ String b "") ++ rest)%string = (p ++ String b rest)%string).
  { rewrite string_append_assoc. reflexivity. }
  assert (Hc : In c (Frontier.children s board n)).
  { apply children_In; [assumption|]. exists sq, b.
    do 4 (split; [assumption|]). split; [|reflexivity]. fold p.
    unfold radixtree.on_path. apply existsb_exists.
    exists (p ++ String b rest)%string. split; [assumption|].
    rewrite <- Hassoc. apply prefix_append. }
  destruct ext as [|sq' ext'].
  - cbn [PathSpec.spell] in Hrest. inversion Hrest; subst rest.
    exists c. split; [now constructor | reflexivity].
  - assert (Hkey' : In (radixtree.consumed (parentTrie c) ++ rest)%string
                       (radixtree.keys (radixtree.tree (parentTrie c)))).
    { cbn [c parentTrie radixtree.consumed radixtree.tree].
      rewrite Hassoc. assumption. }
    destruct (IH c rest ltac:(discriminate) Hon Hw eq_refl Hkey')
      as (d & Hd & Ht).
    exists d. split; [eapply Frontier.descendant_deeper; eassumption|].
    rewrite Ht. cbn [c parentTrie radixtree.consumed radixtree.tree].
    rewrite Hassoc. reflexivity.
Qed.

(** *** Termination of the frontier loop *)

Abbreviation bounded := (Frontier.bounded (cols s) (rows s)).
Abbreviation cells := (String.length board).

Lemma bounded_length n : bounded n -> (List.length (seen n) <= cells)%nat.
Proof.
  intros (_ & Hnd & Hall).
  assert (Hincl : incl (map Z.to_nat (seen n)) (seq 0 cells)).
  { intros k Hk. apply in_map_iff in Hk. destruct Hk as (c & <- & Hc).
    rewrite Forall_forall in Hall. specialize (Hall _ Hc).
    unfold PathSpec.on_board in Hall. rewrite <- Hsize in Hall.
    unfold len in Hall. apply in_seq. lia. }
  assert (Hnd' : NoDup (map Z.to_nat (seen n))).
  { clear Hincl. induction (seen n) as [|c l IH]; cbn [map]; [constructor|].
    inversion Hnd; subst. inversion Hall; subst.
    constructor; [|now apply IH].
    intros Hin. apply in_map_iff in Hin. destruct Hin as (c' & Heq & Hc').
    rewrite Forall_forall in H4. specialize (H4 _ Hc').
    unfold PathSpec.on_board in *.
    assert (c' = c) by lia. subst. contradiction. }
  apply NoDup_incl_length in Hincl; [|assumption].
  rewrite length_map, length_seq in Hincl. exact Hincl.
Qed.

Lemma children_bounded n c :
  bounded n -> In c (Frontier.children s board n) ->
  bounded c /\ List.length (seen c) = S (List.length (seen n)).
Proof.
  intros (Hon & Hnd & Hall) Hc.
  apply children_In in Hc; [|assumption].
  destruct Hc as (sq & b & Hadj & Hsq & Hs & Hb & Hp & ->).
  cbn [seen parentSquare]. split.
  - split; [assumption|]. split; [now apply NoDup_snoc|].
    apply Forall_app. split; [assumption | now constructor].
  - rewrite length_app. cbn [List.length]. lia.
Qed.

Lemma children_count n :
  bounded n -> (List.length (Frontier.children s board n) <= 8)%nat.
Proof.
  intros (Hon & _). unfold Frontier.children.
  rewrite calculateAdjacency_Neighbors
    by (unfold PathSpec.on_board in Hon; lia).
  etransitivity; [apply pushed_length | apply Neighbors_length].
Qed.

Lemma list_sum_constant (A : Type) (f : A -> nat) (k : nat) (l : list A) :
  (forall a, In a l -> f a = k) ->
  list_sum (map f l) = (List.length l * k)%nat.
Proof.
  induction l as [|a l IH]; intros H; [reflexivity|].
  cbn [map List.length]. change (list_sum (f a :: map f l))
    with (f a + list_sum (map f l))%nat.
  rewrite H by now left. rewrite IH by (intros; apply H; now right). lia.
Qed.

Lemma weight_pos n : (1 <= Frontier.weight cells n)%nat.
Proof.
  unfold Frontier.weight.
  pose proof (Nat.pow_nonzero 9 (cells - List.length (seen n)) ltac:(lia)). lia.
Qed.

(** The successors of a state weigh less than the state. *)
Lemma children_weight n :
  bounded n ->
  (Frontier.frontier_weight cells (Frontier.children s board n)
   < Frontier.weight cells n)%nat.
Proof.
  intros Hb. pose proof (weight_pos n) as Hpos.
  destruct (Frontier.children s board n) as [|c0 ch] eqn:Ech.
  - cbn. lia.
  - assert (Hc0 : In c0 (Frontier.children s board n)) by (rewrite Ech; now left).
    destruct (@children_bounded _ _ Hb Hc0) as [Hb0 Hl0].
    apply bounded_length in Hb0.
    pose proof (@children_count _ Hb) as Hcount.
    rewrite <- Ech. unfold Frontier.frontier_weight.
    rewrite (@list_sum_constant _ _
               (Nat.pow 9 (cells - S (List.length (seen n))))).
    + unfold Frontier.weight.
      replace (cells - List.length (seen n))%nat
        with (S (cells - S (List.length (seen n)))) by lia.
      rewrite Nat.pow_succ_r'.
      pose proof (Nat.pow_nonzero 9 (cells - S (List.length (seen n)))
                    ltac:(lia)).
      nia.
    + intros c Hc. destruct (@children_bounded _ _ Hb Hc) as [_ Hl].
      unfold Frontier.weight. now rewrite Hl.
Qed.

Lemma expand_returns qn q words :
  bounded qn ->
  expand s board qn q words =
  Done (q ++ Frontier.children s board qn,
        words ++ flat_map Frontier.found (Frontier.children s board qn)).
Proof.
  intros Hb. assert (Hon := proj1 Hb).
  destruct (expand s board qn q words) as [st| |] eqn:E.
  - apply expand_Done in E. now subst.
  - exfalso. unfold expand in E.
    rewrite calculateAdjacency_Neighbors in E
      by (unfold PathSpec.on_board in Hon; lia).
    cbn [bind] in E.
    destruct (@adjLoop_returns board (parentTrie qn) (seen qn)
                (AdjacencySpec.Neighbors (cols s) (rows s) (parentSquare qn))
                q words) as (r & Hr); [|congruence].
    intros c Hc _. apply Neighbors_adjacent in Hc; try assumption.
    destruct Hc as [Hc _]. apply on_board_byte in Hc.
    destruct Hc as (b & ->). discriminate.
  - exfalso. unfold expand in E.
    rewrite calculateAdjacency_Neighbors in E
      by (unfold PathSpec.on_board in Hon; lia).
    cbn [bind] in E.
    destruct (@adjLoop_returns board (parentTrie qn) (seen qn)
                (AdjacencySpec.Neighbors (cols s) (rows s) (parentSquare qn))
                q words) as (r & Hr); [|congruence].
    intros c Hc _. apply Neighbors_adjacent in Hc; try assumption.
    destruct Hc as [Hc _]. apply on_board_byte in Hc.
    destruct Hc as (b & ->). discriminate.
Qed.

Lemma frontier_weight_app q1 q2 :
  Frontier.frontier_weight cells (q1 ++ q2) =
  (Frontier.frontier_weight cells q1 + Frontier.frontier_weight cells q2)%nat.
Proof.
  unfold Frontier.frontier_weight. now rewrite map_app, list_sum_app.
Qed.

Lemma frontier_weight_cons qn q :
  Frontier.frontier_weight cells (qn :: q) =
  (Frontier.weight cells qn + Frontier.frontier_weight cells q)%nat.
Proof. reflexivity. Qed.

(** The frontier loop drains: with fuel no less than the weight of the
    queue it returns, and it neither panics nor runs out of fuel. *)
Lemma drain_returns fuel : forall q words,
  Forall bounded q ->
  (Frontier.frontier_weight cells q <= fuel)%nat ->
  exists ws, drain fuel s board q words = Done ws.
Proof.
  induction fuel as [|fuel IH]; intros q words Hq Hfuel.
  - destruct q as [|qn q]; [eexists; reflexivity|].
    exfalso. rewrite frontier_weight_cons in Hfuel.
    pose proof (weight_pos qn). lia.
  - destruct q as [|qn q]; [eexists; reflexivity|].
    cbn [drain]. inversion Hq as [|? ? Hqn Hq']; subst.
    rewrite expand_returns by assumption. cbn [bind].
    apply IH.
    + apply Forall_app. split; [assumption|].
      apply Forall_forall. intros c Hc. now apply (@children_bounded _ _ Hqn Hc).
    + rewrite frontier_weight_app.
      pose proof (@children_weight _ Hqn).
      rewrite frontier_weight_cons in Hfuel. lia.
Qed.

End Search.

(** ** The outer loop *)

Lemma searchFrom_words s tree board fuel initSqs : forall words ws,
  searchFrom fuel s tree board initSqs words = Done ws ->
  forall w,
    In w ws <->
    In w words \/
    exists initSq, In initSq initSqs /\ Frontier.found_from s tree board initSq w.
Proof.
  induction initSqs as [|c0 initSqs IH]; intros words ws H w;
    cbn [searchFrom] in H.
  - inversion H; subst. split; [now left|].
    intros [Hw|(c & [] & _)]. assumption.
  - destruct (startNode tree board c0) as [n0| |] eqn:E0;
      cbn [bind] in H; try discriminate.
    destruct (drain fuel s board (pushBack [] n0) words) as [words'| |] eqn:ED;
      cbn [bind] in H; try discriminate.
    rewrite (IH _ _ H w). rewrite (@drain_words s board fuel _ _ _ ED w).
    unfold pushBack. cbn [app In]. split.
    + intros [[Hw|(n & d & [<-|[]] & Hd & Hf)]|(c & Hc & Hf)].
      * now left.
      * right. exists c0. split; [now left|]. exists n0, d. auto.
      * right. exists c. split; [now right | assumption].
    + intros [Hw|(c & [<-|Hc] & Hf)].
      * left. now left.
      * left. right. destruct Hf as (n & d & Hn & Hd & Hf).
        rewrite E0 in Hn. inversion Hn; subst n. exists n0, d. auto.
      * right. exists c. auto.
Qed.

Lemma walk_incl columns rows ext : forall cur seen seen',
  (forall x, In x seen' -> In x seen) ->
  Frontier.walk columns rows cur seen ext ->
  Frontier.walk columns rows cur seen' ext.
Proof.
  induction ext as [|c ext IH]; intros cur seen seen' Hincl; cbn [Frontier.walk];
    [trivial|].
  intros (Hadj & Hon & Hs & Hw). repeat (split; [solve [auto]|]).
  apply (IH c (seen ++ [c])); [|assumption].
  intros x Hx. apply in_app_iff in Hx. apply in_app_iff.
  destruct Hx as [Hx|Hx]; auto.
Qed.

Lemma spell_length board path : forall key,
  PathSpec.spell board path = Some key ->
  String.length key = List.length path.
Proof.
  induction path as [|c path IH]; intros key; cbn [PathSpec.spell].
  - intros H. inversion H. reflexivity.
  - destruct (byte_at board c); [|discriminate].
    destruct (PathSpec.spell board path) as [w|]; [|discriminate].
    intros H. inversion H. cbn [String.length List.length]. now rewrite (IH w).
Qed.

Lemma spell_cons board c path key :
  PathSpec.spell board (c :: path) = Some key <->
  exists b w, byte_at board c = Some b /\ PathSpec.spell board path = Some w /\
              key = String b w.
Proof.
  cbn [PathSpec.spell]. split.
  - destruct (byte_at board c) as [b|]; [|discriminate].
    destruct (PathSpec.spell board path) as [w|]; [|discriminate].
    intros H. inversion H. eauto.
  - intros (b & w & -> & -> & ->). reflexivity.
Qed.

Lemma starts_a_key_on_path t b :
  radixtree.starts_a_key t b = radixtree.on_path t (String b "").
Proof.
  unfold radixtree.starts_a_key, radixtree.on_path.
  induction (radixtree.keys t) as [|key l IH]; cbn [existsb]; [reflexivity|].
  rewrite IH. f_equal. destruct key as [|k0 rest]; cbn [String.prefix].
  - reflexivity.
  - destruct (ascii_dec b k0) as [->|Hne].
    + rewrite Ascii.eqb_refl. now destruct rest.
    + apply Ascii.eqb_neq. congruence.
Qed.

Section Solving.

Variable s : Solver.
Variable tree : radixtree.Tree.
Variable board : string.
Hypothesis Hcols : 1 <= cols s.
Hypothesis Hrows : 1 <= rows s.
Hypothesis Hsize : len board = cols s * rows s.
Hypothesis Hint : len board <= GoInt.max_int.

Local Abbreviation on_board := (PathSpec.on_board (cols s) (rows s)).
Local Abbreviation walk := (Frontier.walk (cols s) (rows s)).
Local Abbreviation cells := (String.length board).

Lemma startNode_Done c0 b :
  byte_at board c0 = Some b ->
  startNode tree board c0 =
  Done {| parentSquare := c0;
          parentTrie := {| radixtree.tree := tree;
                           radixtree.consumed := Frontier.start_prefix tree b |};
          seen := [c0] |}.
Proof.
  intros Hb. unfold startNode, at_index. rewrite Hb. cbn [bind].
  unfold radixtree.Next, radixtree.NewStepper, Frontier.start_prefix.
  cbn [radixtree.tree radixtree.consumed String.append].
  destruct (radixtree.on_path tree (String b "")); reflexivity.
Qed.

(** What one start cell contributes: the keys completed by a walk that
    leaves the cell, read from where the start stepper stands. *)
Lemma found_from_walk c0 b w :
  byte_at board c0 = Some b ->
  Frontier.found_from s tree board c0 w <->
  exists ext letters,
    ext <> [] /\ walk c0 [c0] ext /\
    PathSpec.spell board ext = Some letters /\
    In (Frontier.start_prefix tree b ++ letters)%string (radixtree.keys tree) /\
    w = PathSpec.rehydrated (Frontier.start_prefix tree b ++ letters)%string.
Proof.
  intros Hb.
  assert (Hon : on_board c0).
  { apply (on_board_byte s board Hsize). eauto. }
  unfold Frontier.found_from. rewrite (startNode_Done _ Hb). split.
  - intros (n0 & d & Hn0 & Hd & Hf). inversion Hn0; subst n0. clear Hn0.
    apply (descendant_walk Hcols Hrows Hsize Hint) in Hd; [|exact Hon].
    destruct Hd as (ext & letters & Hne & Hw & Hsp & Ht & _).
    cbn [parentSquare parentTrie seen radixtree.tree radixtree.consumed] in *.
    apply found_In in Hf. rewrite Ht in Hf.
    cbn [radixtree.tree radixtree.consumed] in Hf. destruct Hf as [-> Hk].
    exists ext, letters. auto.
  - intros (ext & letters & Hne & Hw & Hsp & Hk & ->).
    eexists. destruct (@walk_descendant s board Hcols Hrows Hsize Hint ext
      {| parentSquare := c0;
         parentTrie := {| radixtree.tree := tree;
                          radixtree.consumed := Frontier.start_prefix tree b |};
         seen := [c0] |} letters Hne Hon Hw Hsp Hk) as (d & Hd & Ht).
    exists d. split; [reflexivity|]. split; [exact Hd|].
    apply found_In. rewrite Ht. cbn [radixtree.tree radixtree.consumed]. auto.
Qed.

Lemma searchFrom_returns fuel initSqs : forall words,
  Forall on_board initSqs ->
  (Nat.pow 9 (cells - 1) <= fuel)%nat ->
  exists ws, searchFrom fuel s tree board initSqs words = Done ws.
Proof.
  induction initSqs as [|c0 initSqs IH]; intros words Hall Hfuel;
    cbn [searchFrom]; [eexists; reflexivity|].
  inversion Hall as [|? ? Hc0 Hall']; subst.
  destruct (proj1 (on_board_byte s board Hsize c0) Hc0) as (b & Hb).
  rewrite (startNode_Done _ Hb). cbn [bind]. unfold pushBack. cbn [app].
  destruct (@drain_returns s board Hcols Hrows Hsize Hint fuel
              [{| parentSquare := c0;
                  parentTrie := {| radixtree.tree := tree;
                                   radixtree.consumed :=
                                     Frontier.start_prefix tree b |};
                  seen := [c0] |}] words) as (words' & Hd).
  - constructor; [|constructor]. unfold Frontier.bounded. cbn [parentSquare seen].
    split; [assumption|]. split; [|now constructor].
    constructor; [intros []|constructor].
  - rewrite frontier_weight_cons. unfold Frontier.weight. cbn [seen List.length].
    unfold Frontier.frontier_weight. cbn [map list_sum fold_right]. lia.
  - rewrite Hd. cbn [bind]. now apply IH.
Qed.

Lemma stepwise_tail (R : Z -> Z -> Prop) a l :
  PathSpec.stepwise R (a :: l) -> PathSpec.stepwise R l.
Proof. intros H. inversion H; subst; [constructor | assumption]. Qed.

(** Every word recorded from a start cell is the written-back form of a
    key that a simple path spells. *)
Lemma found_from_spellable c0 w :
  on_board c0 ->
  Frontier.found_from s tree board c0 w ->
  exists key,
    In key (radixtree.keys tree) /\
    PathSpec.spellable (cols s) (rows s) board key /\
    w = PathSpec.rehydrated key.
Proof.
  intros Hon Hf.
  destruct (proj1 (on_board_byte s board Hsize c0) Hon) as (b & Hb).
  apply (@found_from_walk c0 b w Hb) in Hf.
  destruct Hf as (ext & letters & Hne & Hw & Hsp & Hk & ->).
  apply walk_simple in Hw; [|constructor; [intros []|constructor]].
  destruct Hw as (Hst & Hall & Hnd). cbn [app] in Hnd.
  eexists. split; [exact Hk|]. split; [|reflexivity].
  unfold Frontier.start_prefix.
  destruct (radixtree.on_path tree (String b "")).
  - exists (c0 :: ext). split.
    + split; [now constructor | split; assumption].
    + cbn [PathSpec.spell String.append]. now rewrite Hb, Hsp.
  - exists ext. split.
    + split; [assumption|]. split; [now inversion Hnd|].
      eapply stepwise_tail; eassumption.
    + cbn [String.append]. assumption.
Qed.

(** No valid word is missed: a key of at least two letters spelled by a
    simple path is recorded from the first cell of the path. *)
Lemma spellable_found key :
  (2 <= String.length key)%nat ->
  In key (radixtree.keys tree) ->
  PathSpec.spellable (cols s) (rows s) board key ->
  exists c0, on_board c0 /\
             Frontier.found_from s tree board c0 (PathSpec.rehydrated key).
Proof.
  intros Hlen Hk (path & (Hall & Hnd & Hst) & Hsp).
  pose proof (spell_length _ _ Hsp) as Hl.
  destruct path as [|c0 [|c1 rest]]; cbn [List.length] in Hl; try lia.
  apply spell_cons in Hsp. destruct Hsp as (b & letters & Hb & Hrest & ->).
  inversion Hall as [|? ? Hc0 Hall']; subst.
  exists c0. split; [assumption|].
  assert (Hpre : Frontier.start_prefix tree b = String b "").
  { unfold Frontier.start_prefix.
    assert (E : radixtree.on_path tree (String b "") = true).
    { unfold radixtree.on_path. apply existsb_exists.
      exists (String b letters). split; [assumption|].
      apply (prefix_append (String b "") letters). }
    now rewrite E. }
  apply (@found_from_walk c0 b _ Hb). exists (c1 :: rest), letters.
  rewrite Hpre. cbn [String.append].
  split; [discriminate|]. split; [|auto].
  apply walk_simple; [constructor; [intros []|constructor]|].
  split; [assumption|]. split; assumption.
Qed.

(** A start cell whose letter begins no key only records words that
    another start cell records as well. *)
Lemma found_from_elsewhere c b w :
  radixtree.long_keys tree ->
  byte_at board c = Some b ->
  radixtree.starts_a_key tree b = false ->
  Frontier.found_from s tree board c w ->
  exists c1, c1 <> c /\ on_board c1 /\ Frontier.found_from s tree board c1 w.
Proof.
  intros Hlong Hb Hstart Hf. rewrite starts_a_key_on_path in Hstart.
  apply (@found_from_walk c b w Hb) in Hf.
  destruct Hf as (ext & letters & Hne & Hw & Hsp & Hk & ->).
  unfold Frontier.start_prefix in Hk |- *. rewrite Hstart in Hk |- *.
  cbn [String.append] in Hk |- *.
  pose proof (Hlong _ Hk) as Hlen.
  pose proof (spell_length _ _ Hsp) as Hl.
  destruct ext as [|c1 [|c2 ext']]; cbn [List.length] in Hl; try lia.
  cbn [Frontier.walk] in Hw. destruct Hw as (Hadj & Hon1 & Hs1 & Hw).
  apply spell_cons in Hsp. destruct Hsp as (b1 & rest & Hb1 & Hrest & ->).
  exists c1. split; [intros ->; apply Hs1; now left|]. split; [assumption|].
  assert (Hpre : Frontier.start_prefix tree b1 = String b1 "").
  { unfold Frontier.start_prefix.
    assert (E : radixtree.on_path tree (String b1 "") = true).
    { unfold radixtree.on_path. apply existsb_exists.
      exists (String b1 rest). split; [assumption|].
      apply (prefix_append (String b1 "") rest). }
    now rewrite E. }
  apply (@found_from_walk c1 b1 _ Hb1). exists (c2 :: ext'), rest.
  rewrite Hpre. cbn [String.append].
  split; [discriminate|]. split; [|auto].
  apply (@walk_incl (cols s) (rows s) (c2 :: ext') c1 ([c] ++ [c1]) [c1]);
    [|exact Hw].
  intros x [<-|[]]. apply in_app_iff. right. now left.
Qed.

End Solving.

(** ** Solve *)

Lemma map_bytes_length f s : String.length (map_bytes f s) = String.length s.
Proof. induction s as [|c s IH]; cbn; [reflexivity | now rewrite IH]. Qed.

Lemma ToLower_ascii (U : Unicode) s :
  is_ascii s = true -> ToLower s = map_bytes lower_byte s.
Proof. unfold ToLower. now intros ->. Qed.

Lemma ToUpper_ascii (U : Unicode) s :
  is_ascii s = true -> ToUpper s = map_bytes upper_byte s.
Proof. unfold ToUpper. now intros ->. Qed.

Lemma ToLower_len (U : Unicode) grid :
  is_ascii grid = true -> len (ToLower grid) = len grid.
Proof.
  intros H. rewrite (ToLower_ascii U _ H). unfold len.
  now rewrite map_bytes_length.
Qed.

Lemma startCells_In board c :
  In c (startCells board) <-> 0 <= c < len board.
Proof.
  unfold startCells, len. rewrite in_map_iff. split.
  - intros (k & <- & Hk). apply in_seq in Hk. lia.
  - intros H. exists (Z.to_nat c). split; [lia|]. apply in_seq. lia.
Qed.

Lemma startCellsWithout_In board c x :
  In x (startCellsWithout c board) <-> 0 <= x < len board /\ x <> c.
Proof.
  unfold startCellsWithout. rewrite filter_In, startCells_In.
  destruct (Z.eqb_spec x c); cbn [negb]; intuition congruence.
Qed.

Lemma go_string_int s : go_string s -> len s <= GoInt.max_int.
Proof.
  unfold go_string. intros H.
  assert (max_alloc <= GoInt.max_int) by (vm_compute; discriminate). lia.
Qed.

Lemma BoardSize_exact s grid :
  len grid = cols s * rows s -> len grid <= GoInt.max_int ->
  BoardSize s = len grid.
Proof.
  intros Hsize Hint. unfold BoardSize, GoInt.mul. rewrite <- Hsize.
  apply wrap_small. unfold GoInt.in_range in *.
  pose proof (len_nonneg grid).
  assert (GoInt.min_int < 0) by reflexivity. lia.
Qed.

(** [Solve] over any choice of start cells on the board: with enough fuel
    it returns the sorted set of the words recorded from those cells. *)
Lemma SolveFrom_spec (U : Unicode) s tree grid (initSqs : string -> list Z) :
  rt s = Some tree -> 1 <= cols s -> 1 <= rows s ->
  is_ascii grid = true ->
  len grid = cols s * rows s -> len grid <= GoInt.max_int ->
  Forall (PathSpec.on_board (cols s) (rows s)) (initSqs (ToLower grid)) ->
  forall fuel, (Nat.pow 9 (String.length grid - 1) <= fuel)%nat ->
  exists ws,
    SolveFrom fuel s grid initSqs = Done (Ok ws) /\
    strictly_increasing ws /\
    forall w,
      In w ws <->
      w <> "" /\
      exists initSq, In initSq (initSqs (ToLower grid)) /\
                     Frontier.found_from s tree (ToLower grid) initSq w.
Proof.
  intros Hrt Hcols Hrows Hascii Hsize Hint Hall fuel Hfuel.
  unfold SolveFrom. rewrite Hrt, (@BoardSize_exact s grid Hsize Hint), Z.eqb_refl.
  cbn [negb].
  assert (Hsize' : len (ToLower grid) = cols s * rows s)
    by now rewrite ToLower_len.
  assert (Hint' : len (ToLower grid) <= GoInt.max_int)
    by now rewrite ToLower_len.
  destruct (@searchFrom_returns s tree (ToLower grid) Hcols Hrows Hsize' Hint'
              fuel (initSqs (ToLower grid)) [] Hall) as (raw & Hraw).
  { rewrite (ToLower_ascii U _ Hascii). now rewrite map_bytes_length. }
  rewrite Hraw. cbn [bind]. eexists. split; [reflexivity|].
  split; [apply uniqueSortedWords_increasing|].
  intros w. rewrite uniqueSortedWords_In.
  rewrite (@searchFrom_words s tree (ToLower grid) fuel _ _ _ Hraw w).
  cbn [In]. tauto.
Qed.

(** *** Solvers built by [New] *)

Lemma New_built xlen ylen src s :
  New xlen ylen src = Done (Ok s) ->
  1 <= xlen /\ 1 <= ylen /\ cols s = xlen /\ rows s = ylen /\
  exists tree, rt s = Some tree /\
               loadWords src (GoInt.mul xlen ylen) 3 = Done (Ok tree).
Proof.
  unfold New.
  destruct (Z.ltb_spec xlen 1) as [Hx|Hx]; cbn [orb]; [discriminate|].
  destruct (Z.ltb_spec ylen 1) as [Hy|Hy]; cbn [orb]; [discriminate|].
  destruct (loadWords src (GoInt.mul xlen ylen) 3) as [[tree|err]| |];
    cbn [bind]; try discriminate.
  intros H. inversion H; subst. cbn [cols rows rt]. eauto 10.
Qed.

Lemma loadWords_keys src maxLen tree :
  loadWords src maxLen 3 = Done (Ok tree) ->
  exists words,
    src = Lines words None /\
    forall key,
      In key (radixtree.keys tree) <->
      exists word, In word words /\ BuildSpec.accepted maxLen word = true /\
                   key = BuildSpec.collapse word.
Proof.
  destruct src as [err|err|words [err|]]; cbn [loadWords]; try discriminate.
  - destruct (scanLoop radixtree.New words maxLen 3); discriminate.
  - intros H. exists words. split; [reflexivity|].
    destruct (scanLoop_keys words radixtree.New maxLen)
      as (tree' & Hrun & _ & Hkeys).
    rewrite Hrun in H. cbn [bind] in H. inversion H; subst tree'.
    intros key. rewrite Hkeys. cbn [radixtree.New radixtree.keys In]. tauto.
Qed.

Lemma accepted_collapse_length maxLen word :
  BuildSpec.accepted maxLen word = true ->
  (2 <= String.length (BuildSpec.collapse word))%nat.
Proof.
  unfold BuildSpec.accepted. intros H.
  apply andb_prop in H. destruct H as [H _].
  apply andb_prop in H. destruct H as [H _].
  apply andb_prop in H. destruct H as [_ H].
  apply negb_true_iff, Z.ltb_ge in H. unfold len in H.
  destruct word as [|w0 [|w1 [|w2 rest]]]; cbn [String.length] in H; try lia.
  destruct w0 as [[] [] [] [] [] [] [] []];
    try (cbn [BuildSpec.collapse String.length]; lia).
  destruct w1 as [[] [] [] [] [] [] [] []];
    cbn [BuildSpec.collapse String.length]; lia.
Qed.

Lemma accepted_rehydrated maxLen word :
  BuildSpec.accepted maxLen word = true ->
  PathSpec.rehydrated (BuildSpec.collapse word) = word.
Proof.
  unfold BuildSpec.accepted. intros H.
  apply andb_prop in H. destruct H as [_ H].
  destruct word as [|w0 rest]; [reflexivity|].
  destruct (Ascii.eqb_spec w0 "q") as [->|Hq].
  - destruct rest as [|w1 rest]; [discriminate H|].
    cbn [BuildSpec.q_then_u] in H. apply Ascii.eqb_eq in H. subst w1.
    reflexivity.
  - destruct w0 as [[] [] [] [] [] [] [] []]; try reflexivity. now elim Hq.
Qed.

Lemma rehydrated_nonempty key : key <> "" -> PathSpec.rehydrated key <> "".
Proof.
  destruct key as [|k0 rest]; [congruence|]. intros _.
  destruct k0 as [[] [] [] [] [] [] [] []]; discriminate.
Qed.

(** The dictionary of a solver built from a word list, on a board whose
    size fits an [int]. *)
Lemma built_dictionary xlen ylen words s :
  New xlen ylen (Lines words None) = Done (Ok s) ->
  xlen * ylen <= GoInt.max_int ->
  1 <= cols s /\ 1 <= rows s /\ cols s = xlen /\ rows s = ylen /\
  exists tree,
    rt s = Some tree /\ radixtree.long_keys tree /\
    forall key,
      In key (radixtree.keys tree) <->
      exists word, In word words /\
                   BuildSpec.accepted (xlen * ylen) word = true /\
                   key = BuildSpec.collapse word.
Proof.
  intros HNew Hfit.
  apply New_built in HNew.
  destruct HNew as (Hx & Hy & Hc & Hr & tree & Hrt & Hload).
  assert (Hmul : GoInt.mul xlen ylen = xlen * ylen).
  { apply wrap_small. unfold GoInt.in_range.
    assert (GoInt.min_int < 0) by reflexivity. nia. }
  rewrite Hmul in Hload. apply loadWords_keys in Hload.
  destruct Hload as (words' & Hsrc & Hkeys). inversion Hsrc; subst words'.
  repeat (split; [lia|]). exists tree. split; [assumption|].
  split; [|exact Hkeys].
  intros key Hk. apply Hkeys in Hk. destruct Hk as (word & _ & Ha & ->).
  eapply accepted_collapse_length; eassumption.
Qed.

(** The words the search records are never empty: a word is recorded for
    a pushed node, whose stepper has consumed at least one letter. *)
Lemma found_nonempty s board n d w :
  Frontier.descendant s board n d -> In w (Frontier.found d) -> w <> "".
Proof.
  intros Hd Hf.
  assert (Hpar : exists p, In d (Frontier.children s board p)).
  { induction Hd as [n c Hc | n c d Hc Hd IH]; eauto. }
  destruct Hpar as (p & Hp). unfold Frontier.children in Hp.
  destruct (calculateAdjacency (cols s) (rows s) (parentSquare p));
    try (destruct Hp).
  apply pushed_In in Hp. destruct Hp as (c & b & _ & _ & _ & _ & ->).
  apply found_In in Hf. cbn [parentTrie radixtree.consumed] in Hf.
  destruct Hf as [-> _]. apply rehydrated_nonempty, append_nonempty.
Qed.

(** C2.  Whenever [Solve] returns without error, the returned sequence is
    strictly increasing in the byte-wise lexicographic order, hence without
    duplicates and without inversions.  It is the normalised form of the
    words collected by the search: [uniqueSortedWords] sorts them and drops
    the repetitions, so that the result holds exactly the collected words;
    on the empty input it yields the empty output. *)
Theorem Solve_result_strictly_increasing
    (U : Unicode) (fuel : nat) (s : Solver) (grid : string)
    (ws : list string) :
  Solve fuel s grid = Done (Ok ws) ->
  strictly_increasing ws /\ NoDup ws /\
  (exists tree raw,
      rt s = Some tree /\
      searchFrom fuel s tree (ToLower grid) (startCells (ToLower grid)) []
        = Done raw /\
      ws = uniqueSortedWords raw /\
      forall w, In w ws <-> In w raw) /\
  uniqueSortedWords [] = [].
Proof.
  intros H. unfold Solve, SolveFrom in H.
  destruct (rt s) as [tree|]; [|discriminate].
  destruct (negb (len grid =? BoardSize s));
    [destruct (len grid <? BoardSize s); discriminate|].
  destruct (searchFrom fuel s tree (ToLower grid)
              (startCells (ToLower grid)) []) as [raw| |] eqn:Hraw;
    cbn [bind] in H; try discriminate.
  inversion H as [Hws]. clear H. subst ws.
  split; [apply uniqueSortedWords_increasing|].
  split; [apply strictly_increasing_NoDup, uniqueSortedWords_increasing|].
  split; [|reflexivity].
  exists tree, raw. split; [reflexivity|]. split; [exact Hraw|].
  split; [reflexivity|].
  intros w. rewrite uniqueSortedWords_In. split; [tauto|].
  intros Hw. split; [exact Hw|].
  apply (@searchFrom_words s tree (ToLower grid) fuel _ _ _ Hraw w) in Hw.
  destruct Hw as [[]|(c0 & _ & n0 & d & _ & Hd & Hf)].
  eapply found_nonempty; eassumption.
Qed.

Lemma Solve_result_strictly_increasing_witness :
  Solve (U := ascii_only) 10
        {| cols := 2; rows := 2;
           rt := Some {| radixtree.keys := ["cab"; "abc"; "bca"] |} |}
        "abca" = Done (Ok ["abc"; "bca"; "cab"]) /\
  strictly_increasing ["abc"; "bca"; "cab"].
Proof.
  assert (H : Solve (U := ascii_only) 10
                {| cols := 2; rows := 2;
                   rt := Some {| radixtree.keys := ["cab"; "abc"; "bca"] |} |}
                "abca" = Done (Ok ["abc"; "bca"; "cab"])) by reflexivity.
  split; [exact H|].
  exact (proj1 (@Solve_result_strictly_increasing _ _ _ _ _ H)).
Defined.

(** C3 (as amended).  For a solver built by [New] whose board size
    columns*rows fits an [int]: a grid strictly shorter than columns*rows is
    answered by the error "not enough letters for board", a strictly longer
    one by "too many letters for board", both whatever the fuel, down to
    none at all: the error is returned before the search starts and no word
    is produced.  A grid of exactly columns*rows ASCII bytes is searched and
    a result is returned. *)
Theorem Solve_validates_length
    (U : Unicode) (xlen ylen : Z) (src : wordSource) (s : Solver)
    (grid : string) :
  New xlen ylen src = Done (Ok s) ->
  xlen * ylen <= GoInt.max_int ->
  (len grid < xlen * ylen ->
   forall fuel, Solve fuel s grid = Done (Err "not enough letters for board")) /\
  (xlen * ylen < len grid ->
   forall fuel, Solve fuel s grid = Done (Err "too many letters for board")) /\
  (len grid = xlen * ylen -> is_ascii grid = true ->
   exists ws fuel0, forall fuel, (fuel0 <= fuel)%nat ->
                                 Solve fuel s grid = Done (Ok ws)).
Proof.
  intros HNew Hfit. apply New_built in HNew.
  destruct HNew as (Hx & Hy & Hc & Hr & tree & Hrt & _). subst xlen ylen.
  assert (Hsz : BoardSize s = cols s * rows s).
  { apply wrap_small. unfold GoInt.in_range.
    assert (GoInt.min_int < 0) by reflexivity. nia. }
  split; [|split].
  - intros Hlt fuel. unfold Solve, SolveFrom. rewrite Hrt, Hsz.
    destruct (Z.eqb_spec (len grid) (cols s * rows s)); [lia|]. cbn [negb].
    destruct (Z.ltb_spec (len grid) (cols s * rows s)); [reflexivity | lia].
  - intros Hgt fuel. unfold Solve, SolveFrom. rewrite Hrt, Hsz.
    destruct (Z.eqb_spec (len grid) (cols s * rows s)); [lia|]. cbn [negb].
    destruct (Z.ltb_spec (len grid) (cols s * rows s)); [lia | reflexivity].
  - intros Heq Hascii.
    assert (Hint : len grid <= GoInt.max_int) by lia.
    assert (Hall : Forall (PathSpec.on_board (cols s) (rows s))
                          (startCells (ToLower grid))).
    { apply Forall_forall. intros c Hc0. apply startCells_In in Hc0.
      rewrite ToLower_len in Hc0 by assumption. unfold PathSpec.on_board. lia. }
    destruct (@SolveFrom_spec U s tree grid startCells Hrt Hx Hy Hascii Heq Hint
                Hall _ (Nat.le_refl _)) as (ws & Hrun & Hinc & Hmem).
    exists ws, (Nat.pow 9 (String.length grid - 1)). intros fuel Hfuel.
    destruct (@SolveFrom_spec U s tree grid startCells Hrt Hx Hy Hascii Heq Hint
                Hall fuel Hfuel) as (ws' & Hrun' & Hinc' & Hmem').
    unfold Solve. rewrite Hrun'. do 2 f_equal.
    apply strictly_increasing_ext; try assumption.
    intros w. rewrite Hmem, Hmem'. reflexivity.
Qed.

Lemma Solve_validates_length_witness :
  Solve (U := ascii_only) 0
        {| cols := 2; rows := 2;
           rt := Some {| radixtree.keys := ["abc"] |} |} "abc"
    = Done (Err "not enough letters for board") /\
  Solve (U := ascii_only) 0
        {| cols := 2; rows := 2;
           rt := Some {| radixtree.keys := ["abc"] |} |} "abcde"
    = Done (Err "too many letters for board") /\
  exists ws fuel0, forall fuel, (fuel0 <= fuel)%nat ->
    Solve (U := ascii_only) fuel
          {| cols := 2; rows := 2;
             rt := Some {| radixtree.keys := ["abc"] |} |} "xabc"
      = Done (Ok ws).
Proof.
  assert (HNew : New 2 2 (Lines ["abc"] None)
                 = Done (Ok {| cols := 2; rows := 2;
                               rt := Some {| radixtree.keys := ["abc"] |} |}))
    by reflexivity.
  assert (Hfit : 2 * 2 <= GoInt.max_int) by (vm_compute; discriminate).
  split; [|split].
  - apply (proj1 (@Solve_validates_length ascii_only 2 2 _ _ "abc" HNew Hfit)).
    vm_compute. reflexivity.
  - apply (proj1 (proj2 (@Solve_validates_length ascii_only 2 2 _ _ "abcde" HNew Hfit))).
    vm_compute. reflexivity.
  - apply (proj2 (proj2 (@Solve_validates_length ascii_only 2 2 _ _ "xabc" HNew Hfit)));
      reflexivity.
Defined.

(** C3 as stated fails when columns*rows overflows.  [New 4294967296
    2147483648] succeeds; its board size 2^63 wraps to -2^63, so a grid of
    three letters, far shorter than columns*rows, is answered by "too many
    letters for board".  [New 4611686018427387905 4] succeeds as well; its
    board size wraps to 4, so the grid "abcd" passes the length test and the
    search then reads the board at the index of the cell below cell 0,
    which is 2^62 + 1: the call panics. *)
Lemma Solve_validates_length_counterexample :
  (New (2 ^ 32) (2 ^ 31) (Lines ["abc"] None)
     = Done (Ok {| cols := 2 ^ 32; rows := 2 ^ 31;
                   rt := Some {| radixtree.keys := [] |} |}) /\
   len "abc" < 2 ^ 32 * 2 ^ 31 /\
   Solve (U := ascii_only) 0
         {| cols := 2 ^ 32; rows := 2 ^ 31;
            rt := Some {| radixtree.keys := [] |} |} "abc"
     = Done (Err "too many letters for board")) /\
  (New (2 ^ 62 + 1) 4 (Lines ["abc"] None)
     = Done (Ok {| cols := 2 ^ 62 + 1; rows := 4;
                   rt := Some {| radixtree.keys := ["abc"] |} |}) /\
   len "abcd" = BoardSize {| cols := 2 ^ 62 + 1; rows := 4;
                             rt := Some {| radixtree.keys := ["abc"] |} |} /\
   forall fuel,
     Solve (U := ascii_only) (S fuel)
           {| cols := 2 ^ 62 + 1; rows := 4;
              rt := Some {| radixtree.keys := ["abc"] |} |} "abcd"
       = Panic "index out of range").
Proof.
  split; [repeat split; vm_compute; reflexivity|].
  split; [reflexivity|]. split; [reflexivity|].
  intros fuel. reflexivity.
Qed.

(** C8.  For a solver built by [New] and a grid of exactly columns*rows
    ASCII bytes, [Solve] terminates and does not fail: some amount of fuel
    suffices for every frontier loop, and with it (or more) the call returns
    a word list, neither panicking nor returning an error.  The frontier
    drains because a state pushed while a state within the board is
    expanded is again within the board, has a visited list longer by one,
    and no visited list is longer than the board. *)
Theorem Solve_terminates
    (U : Unicode) (xlen ylen : Z) (src : wordSource) (s : Solver)
    (grid : string) :
  New xlen ylen src = Done (Ok s) ->
  is_ascii grid = true ->
  go_string grid ->
  len grid = xlen * ylen ->
  (exists ws fuel0, forall fuel, (fuel0 <= fuel)%nat ->
                                 Solve fuel s grid = Done (Ok ws)) /\
  (forall n c,
      Frontier.bounded xlen ylen n ->
      In c (Frontier.children s (ToLower grid) n) ->
      Frontier.bounded xlen ylen c /\
      List.length (seen c) = S (List.length (seen n)) /\
      (List.length (seen c) <= String.length grid)%nat).
Proof.
  intros HNew Hascii Hint Hsize. apply go_string_int in Hint.
  apply New_built in HNew.
  destruct HNew as (Hx & Hy & Hc & Hr & tree & Hrt & _). subst xlen ylen.
  assert (HsizeL : len (ToLower grid) = cols s * rows s)
    by now rewrite ToLower_len.
  assert (HintL : len (ToLower grid) <= GoInt.max_int)
    by now rewrite ToLower_len.
  split.
  - assert (Hall : Forall (PathSpec.on_board (cols s) (rows s))
                          (startCells (ToLower grid))).
    { apply Forall_forall. intros c Hc0. apply startCells_In in Hc0.
      unfold PathSpec.on_board. lia. }
    destruct (@SolveFrom_spec U s tree grid startCells Hrt Hx Hy Hascii Hsize
                Hint Hall _ (Nat.le_refl _)) as (ws & Hrun & Hinc & Hmem).
    exists ws, (Nat.pow 9 (String.length grid - 1)). intros fuel Hfuel.
    destruct (@SolveFrom_spec U s tree grid startCells Hrt Hx Hy Hascii Hsize
                Hint Hall fuel Hfuel) as (ws' & Hrun' & Hinc' & Hmem').
    unfold Solve. rewrite Hrun'. do 2 f_equal.
    apply strictly_increasing_ext; try assumption.
    intros w. rewrite Hmem, Hmem'. reflexivity.
  - intros n c Hn Hc.
    destruct (@children_bounded s (ToLower grid) Hx Hy HsizeL HintL n c Hn Hc)
      as [Hb Hl].
    split; [exact Hb|]. split; [exact Hl|].
    pose proof (@bounded_length s (ToLower grid) HsizeL c Hb) as Hle.
    rewrite (ToLower_ascii U _ Hascii) in Hle.
    now rewrite map_bytes_length in Hle.
Qed.

Lemma Solve_terminates_witness :
  exists ws fuel0, forall fuel, (fuel0 <= fuel)%nat ->
    Solve (U := ascii_only) fuel
          {| cols := 3; rows := 2;
             rt := Some {| radixtree.keys := ["tea"; "eat"; "qit"] |} |}
          "TeaQui" = Done (Ok ws).
Proof.
  apply (@Solve_terminates ascii_only 3 2
           (Lines ["tea"; "eat"; "quit"; "at"] None)).
  - reflexivity.
  - reflexivity.
  - vm_compute. discriminate.
  - reflexivity.
Defined.

(** C7 (as amended).  For a solver built from a word list and a grid of
    exactly columns*rows ASCII bytes, let [c] be a cell whose lower-cased
    letter begins no dictionary entry.  The search from [c] adds nothing to
    the result: every word recorded during the iteration of the outer loop
    for [c] is also recorded from another start cell, so [Solve] returns
    what it returns when [c] is left out of the outer loop. *)
Theorem Solve_unaffected_by_dead_start_cell
    (U : Unicode) (xlen ylen : Z) (words : list string) (s : Solver)
    (tree : radixtree.Tree) (grid : string) (c : Z) (b : ascii) :
  New xlen ylen (Lines words None) = Done (Ok s) ->
  rt s = Some tree ->
  is_ascii grid = true ->
  go_string grid ->
  len grid = xlen * ylen ->
  byte_at (ToLower grid) c = Some b ->
  radixtree.starts_a_key tree b = false ->
  exists ws fuel0, forall fuel, (fuel0 <= fuel)%nat ->
    Solve fuel s grid = Done (Ok ws) /\
    SolveFrom fuel s grid (startCellsWithout c) = Done (Ok ws).
Proof.
  intros HNew Hrt Hascii Hint Hsize Hb Hdead. apply go_string_int in Hint.
  destruct (built_dictionary _ _ _ HNew) as
    (Hcols & Hrows & Hc & Hr & tree' & Hrt' & Hlong & _).
  { rewrite <- Hsize. exact Hint. }
  rewrite Hrt in Hrt'. inversion Hrt'; subst tree' xlen ylen. clear Hrt'.
  assert (HsizeL : len (ToLower grid) = cols s * rows s)
    by now rewrite ToLower_len.
  assert (HintL : len (ToLower grid) <= GoInt.max_int)
    by now rewrite ToLower_len.
  assert (Hall : Forall (PathSpec.on_board (cols s) (rows s))
                        (startCells (ToLower grid))).
  { apply Forall_forall. intros x Hx. apply startCells_In in Hx.
    unfold PathSpec.on_board. lia. }
  assert (Hall' : Forall (PathSpec.on_board (cols s) (rows s))
                         (startCellsWithout c (ToLower grid))).
  { apply Forall_forall. intros x Hx. apply startCellsWithout_In in Hx.
    unfold PathSpec.on_board. lia. }
  destruct (@SolveFrom_spec U s tree grid startCells Hrt Hcols Hrows Hascii
              Hsize Hint Hall _ (Nat.le_refl _)) as (ws & Hrun & Hinc & Hmem).
  exists ws, (Nat.pow 9 (String.length grid - 1)). intros fuel Hfuel.
  destruct (@SolveFrom_spec U s tree grid startCells Hrt Hcols Hrows Hascii
              Hsize Hint Hall fuel Hfuel) as (ws1 & Hrun1 & Hinc1 & Hmem1).
  destruct (@SolveFrom_spec U s tree grid (startCellsWithout c) Hrt Hcols Hrows
              Hascii Hsize Hint Hall' fuel Hfuel)
    as (ws2 & Hrun2 & Hinc2 & Hmem2).
  unfold Solve. rewrite Hrun1, Hrun2. split; do 2 f_equal.
  - apply strictly_increasing_ext; try assumption.
    intros w. rewrite Hmem, Hmem1. reflexivity.
  - symmetry. apply strictly_increasing_ext; try assumption.
    intros w. rewrite Hmem, Hmem2. split.
    + intros (Hne & c0 & Hc0 & Hf). split; [exact Hne|].
      destruct (Z.eq_dec c0 c) as [->|Hne0].
      * destruct (@found_from_elsewhere s tree (ToLower grid) Hcols Hrows
                    HsizeL HintL c b w Hlong Hb Hdead Hf)
          as (c1 & Hc1 & Hon1 & Hf1).
        exists c1. split; [|exact Hf1]. apply startCellsWithout_In.
        unfold PathSpec.on_board in Hon1. lia.
      * exists c0. split; [|exact Hf]. apply startCellsWithout_In.
        apply startCells_In in Hc0. lia.
    + intros (Hne & c0 & Hc0 & Hf). split; [exact Hne|].
      exists c0. split; [|exact Hf]. apply startCells_In.
      apply startCellsWithout_In in Hc0. lia.
Qed.

Lemma Solve_unaffected_by_dead_start_cell_witness :
  exists ws fuel0, forall fuel, (fuel0 <= fuel)%nat ->
    Solve (U := ascii_only) fuel
          {| cols := 2; rows := 2;
             rt := Some {| radixtree.keys := ["abc"; "cab"] |} |} "xabc"
      = Done (Ok ws) /\
    SolveFrom (U := ascii_only) fuel
              {| cols := 2; rows := 2;
                 rt := Some {| radixtree.keys := ["abc"; "cab"] |} |}
              "xabc" (startCellsWithout 0) = Done (Ok ws).
Proof.
  apply (@Solve_unaffected_by_dead_start_cell
           ascii_only 2 2 ["abc"; "cab"; "xa"] _
           {| radixtree.keys := ["abc"; "cab"] |} "xabc" 0 "x").
  - reflexivity.
  - reflexivity.
  - reflexivity.
  - vm_compute. discriminate.
  - reflexivity.
  - reflexivity.
  - reflexivity.
Defined.

(** C7 as stated fails: the start cell is not skipped.  On the 2x2 grid
    "xabc" no key begins with the letter of cell 0, yet the iteration of the
    outer loop for cell 0 pushes a successor of the start node and records
    the words "abc" and "cab". *)
Lemma dead_start_cell_counterexample :
  radixtree.starts_a_key {| radixtree.keys := ["abc"; "cab"] |} "x" = false /\
  byte_at (ToLower (U := ascii_only) "xabc") 0 = Some "x"%char /\
  (exists n0,
     startNode {| radixtree.keys := ["abc"; "cab"] |} "xabc" 0 = Done n0 /\
     Frontier.children
       {| cols := 2; rows := 2;
          rt := Some {| radixtree.keys := ["abc"; "cab"] |} |} "xabc" n0
     <> []) /\
  searchFrom 10 {| cols := 2; rows := 2;
                   rt := Some {| radixtree.keys := ["abc"; "cab"] |} |}
             {| radixtree.keys := ["abc"; "cab"] |} "xabc" [0] []
    = Done ["abc"; "cab"].
Proof.
  split; [reflexivity|]. split; [reflexivity|]. split; [|reflexivity].
  eexists. split; [reflexivity|]. vm_compute. discriminate.
Qed.

(** ** The simple-path invariant of the frontier *)

Lemma startNode_simple tree board initSq n0 :
  startNode tree board initSq = Done n0 -> Frontier.simple_state n0.
Proof.
  unfold startNode, at_index.
  destruct (byte_at board initSq) as [b|]; cbn [bind]; [|discriminate].
  destruct (radixtree.Next (radixtree.NewStepper tree) b) as [stepper ok].
  intros H. inversion H; subst. split; cbn [seen parentSquare].
  - constructor; [intros []|constructor].
  - exists []. reflexivity.
Qed.

(** The states pushed while [qn] is expanded: each holds a fresh list, the
    parent's visited cells followed by the one new cell. *)
Lemma children_extend s board qn c :
  In c (Frontier.children s board qn) ->
  exists curSq,
    ~ In curSq (seen qn) /\ seen c = seen qn ++ [curSq] /\
    parentSquare c = curSq.
Proof.
  unfold Frontier.children.
  destruct (calculateAdjacency (cols s) (rows s) (parentSquare qn));
    try (intros []).
  intros H. apply pushed_In in H.
  destruct H as (curSq & b & _ & Hs & _ & _ & ->).
  exists curSq. auto.
Qed.

Lemma children_simple s board qn c :
  Frontier.simple_state qn -> In c (Frontier.children s board qn) ->
  Frontier.simple_state c.
Proof.
  intros [Hnd _] Hc. apply children_extend in Hc.
  destruct Hc as (curSq & Hs & Hseen & Hsq). split.
  - rewrite Hseen. now apply NoDup_snoc.
  - exists (seen qn). now rewrite Hsq.
Qed.

Lemma step_children s board qn q words st' :
  Frontier.step s board (qn :: q, words) st' ->
  fst st' = q ++ Frontier.children s board qn.
Proof.
  unfold Frontier.step. cbn [fst snd]. intros H.
  apply expand_Done in H. now subst.
Qed.

Lemma step_simple s board st st' :
  Frontier.step s board st st' ->
  Forall Frontier.simple_state (fst st) ->
  Forall Frontier.simple_state (fst st').
Proof.
  destruct st as [[|qn q] words]; [intros []|].
  intros H Hall. rewrite (step_children H). cbn [fst] in Hall.
  inversion Hall as [|? ? Hqn Hq]; subst.
  apply Forall_app. split; [assumption|].
  apply Forall_forall. intros c Hc. eapply children_simple; eassumption.
Qed.

(** The frontier loop is the iteration of [step]. *)
Lemma drain_step fuel s board qn q words :
  drain (S fuel) s board (qn :: q) words =
  (st' <- expand s board qn q words ;; drain fuel s board (fst st') (snd st')).
Proof.
  cbn [drain]. destruct (expand s board qn q words) as [[q' words']| |];
    reflexivity.
Qed.

(** C6.  Every state that is ever on the frontier of a start cell
    satisfies the simple-path invariant: its visited list repeats no cell
    and ends with its current cell.  Every extension step preserves it: the
    states it pushes are appended to the queue, and each carries its own
    list, the visited cells of the expanded state followed by exactly the
    one new cell, which was not among them; the visited cells only grow
    along a path and no cell repeats. *)
Theorem frontier_states_are_simple_paths
    (s : Solver) (tree : radixtree.Tree) (board : string) (initSq : Z)
    (n0 : qNode) (words : list string) (st : list qNode * list string) :
  startNode tree board initSq = Done n0 ->
  clos_refl_trans _ (Frontier.step s board) (pushBack [] n0, words) st ->
  Forall Frontier.simple_state (fst st) /\
  forall qn q st',
    fst st = qn :: q ->
    Frontier.step s board st st' ->
    exists pushed,
      fst st' = q ++ pushed /\
      Forall Frontier.simple_state (fst st') /\
      Forall (fun c => exists curSq,
                  ~ In curSq (seen qn) /\
                  seen c = seen qn ++ [curSq] /\
                  parentSquare c = curSq) pushed.
Proof.
  intros Hstart Hreach.
  assert (Hinv : Forall Frontier.simple_state (fst st)).
  { apply clos_rt_rtn1 in Hreach.
    induction Hreach as [|st1 st2 Hstep _ IH].
    - cbn [fst pushBack app]. constructor; [|constructor].
      eapply startNode_simple; eassumption.
    - eapply step_simple; eassumption. }
  split; [exact Hinv|].
  intros qn q st' Hfst Hstep.
  destruct st as [q0 words0]. cbn [fst] in Hfst. subst q0.
  exists (Frontier.children s board qn).
  split; [now apply (step_children Hstep)|].
  split; [eapply step_simple; eassumption|].
  apply Forall_forall. intros c Hc. now apply (children_extend _ _ _ _ Hc).
Qed.

Lemma frontier_states_are_simple_paths_witness :
  Forall Frontier.simple_state
    [ {| parentSquare := 2;
         parentTrie := {| radixtree.tree := {| radixtree.keys := ["abc"; "cab"] |};
                          radixtree.consumed := "c" |};
         seen := [0; 2] |};
      {| parentSquare := 3;
         parentTrie := {| radixtree.tree := {| radixtree.keys := ["abc"; "cab"] |};
                          radixtree.consumed := "ab" |};
         seen := [0; 1; 3] |} ].
Proof.
  pose (t := {| radixtree.keys := ["abc"; "cab"] |}).
  pose (s := {| cols := 2; rows := 2; rt := Some t |}).
  pose (n0 := {| parentSquare := 0;
                 parentTrie := {| radixtree.tree := t; radixtree.consumed := "" |};
                 seen := [0] |}).
  pose (n1 := {| parentSquare := 1;
                 parentTrie := {| radixtree.tree := t; radixtree.consumed := "a" |};
                 seen := [0; 1] |}).
  pose (n2 := {| parentSquare := 2;
                 parentTrie := {| radixtree.tree := t; radixtree.consumed := "c" |};
                 seen := [0; 2] |}).
  refine (proj1 (@frontier_states_are_simple_paths
                   s t "xacb" 0 n0 [] (_, []) eq_refl _)).
  apply rt_trans with (y := ([n1; n2], [])).
  - apply rt_step. reflexivity.
  - apply rt_step. reflexivity.
Defined.

(** ** The array-backed trie *)

Local Abbreviation lower_rune := Trie.lower_rune.
Local Abbreviation same_runes := Trie.same_runes.

Lemma childIndex_small c : -2 ^ 31 + 97 <= c < 2 ^ 31 -> Trie.childIndex c = c - 97.
Proof.
  intros H. unfold Trie.childIndex, Trie.wrap32.
  rewrite Z.mod_small; lia.
Qed.

Lemma childIndex_wrapped c :
  -2 ^ 31 <= c < -2 ^ 31 + 97 -> Trie.childIndex c = c - 97 + 2 ^ 32.
Proof.
  intros H. unfold Trie.childIndex, Trie.wrap32.
  rewrite <- (Z.mod_add _ 1) by lia. rewrite Z.mod_small; lia.
Qed.

(** The index [int(c - 'a')] of a rune lies within the array exactly when
    the rune is one of ['a'..'z']. *)
Lemma childIndex_in_bounds c :
  Trie.rune_range c -> (0 <= Trie.childIndex c < 26 <-> lower_rune c).
Proof.
  unfold Trie.rune_range, lower_rune. intros H.
  destruct (Z_lt_ge_dec c (-2 ^ 31 + 97)) as [Hlow|Hhigh].
  - rewrite childIndex_wrapped by lia. lia.
  - rewrite childIndex_small by lia. lia.
Qed.

Lemma slot_Done t index :
  0 <= index < 26 ->
  Trie.slot t index = Done (nth (Z.to_nat index) (Trie.children t) None).
Proof.
  intros H. unfold Trie.slot.
  destruct (Z.leb_spec 0 index); [|lia].
  destruct (Z.ltb_spec index 26); [reflexivity | lia].
Qed.

Lemma slot_Panic t index :
  ~ (0 <= index < 26) -> Trie.slot t index = Panic "index out of range".
Proof.
  intros H. unfold Trie.slot.
  destruct (Z.leb_spec 0 index); [|reflexivity].
  destruct (Z.ltb_spec index 26); [lia | reflexivity].
Qed.

Lemma update_length cs : forall i v,
  List.length (Trie.update cs i v) = List.length cs.
Proof.
  induction cs as [|c cs IH]; intros [|i] v; cbn; auto.
Qed.

Lemma update_nth_same cs : forall i v,
  (i < List.length cs)%nat -> nth i (Trie.update cs i v) None = v.
Proof.
  induction cs as [|c cs IH]; intros [|i] v; cbn [List.length Trie.update nth];
    try lia; [reflexivity|].
  intros H. apply IH. lia.
Qed.

Lemma update_nth_other cs : forall i j v,
  i <> j -> nth j (Trie.update cs i v) None = nth j cs None.
Proof.
  induction cs as [|c cs IH]; intros [|i] [|j] v Hne;
    cbn [Trie.update nth]; try reflexivity; try congruence.
  apply IH. congruence.
Qed.

Lemma update_nth_error cs : forall i j v t,
  nth_error (Trie.update cs i v) j = Some (Some t) ->
  (j = i /\ v = Some t) \/ nth_error cs j = Some (Some t).
Proof.
  induction cs as [|c cs IH]; intros [|i] [|j] v t;
    cbn [Trie.update nth_error]; auto.
  - intros H. inversion H. auto.
  - intros H. apply IH in H. destruct H as [[-> ->]|H]; auto.
Qed.

Lemma wf_NewTrie : Trie.wf Trie.NewTrie.
Proof.
  constructor; [reflexivity|].
  intros i t H. exfalso.
  assert (Hin : In (Some t) (repeat (@None Trie.Trie) 26))
    by (eapply nth_error_In; eassumption).
  apply repeat_spec in Hin. discriminate.
Qed.

Lemma wf_child t i :
  Trie.wf t ->
  match nth i (Trie.children t) None with
  | Some n => Trie.wf n
  | None => True
  end.
Proof.
  intros Hwf. destruct Hwf as [w cs Hlen Hch]. cbn [Trie.children].
  destruct (nth i cs None) as [n|] eqn:E; [|trivial].
  apply (Hch i). destruct (nth_error cs i) as [o|] eqn:En.
  - apply (nth_error_nth cs i None) in En. congruence.
  - apply nth_error_None in En.
    rewrite nth_overflow in E by assumption. discriminate.
Qed.

Lemma containsRunes_NewTrie rs :
  Forall lower_rune rs -> Trie.containsRunes Trie.NewTrie rs = Done false.
Proof.
  intros H. destruct H as [|c rs Hc _]; cbn [Trie.containsRunes]; [reflexivity|].
  rewrite slot_Done
    by (apply childIndex_in_bounds; [unfold Trie.rune_range, lower_rune in *; lia
                                    | assumption]).
  cbn [bind Trie.NewTrie Trie.children].
  assert (Hn : nth (Z.to_nat (Trie.childIndex c)) (repeat (@None Trie.Trie) 26) None
               = None).
  { destruct (nth_in_or_default (Z.to_nat (Trie.childIndex c))
                (repeat (@None Trie.Trie) 26) None) as [Hin|E]; [|exact E].
    now apply repeat_spec in Hin. }
  now rewrite Hn.
Qed.

(** Inserting a word of lower-case runes succeeds, keeps the trie well
    formed, and adds that word, and no other, to the words it contains. *)
Lemma insertRunes_spec rs : forall t,
  Trie.wf t -> Forall lower_rune rs ->
  exists t',
    Trie.insertRunes t rs = Done t' /\ Trie.wf t' /\
    forall rs2 b0,
      Forall lower_rune rs2 ->
      Trie.containsRunes t rs2 = Done b0 ->
      Trie.containsRunes t' rs2 = Done (b0 || same_runes rs2 rs).
Proof.
  induction rs as [|c rs IH]; intros t Hwf Hrs; cbn [Trie.insertRunes].
  - exists (Trie.Node true (Trie.children t)). split; [reflexivity|]. split.
    + destruct Hwf as [w cs Hlen Hch]. now constructor.
    + intros rs2 b0 Hrs2 Hc. destruct rs2 as [|c2 rs2].
      * cbn. now rewrite orb_true_r.
      * cbn [Trie.containsRunes] in *. unfold Trie.slot in *.
        cbn [Trie.children] in *. rewrite Hc.
        unfold same_runes. destruct (list_eq_dec Z.eq_dec (c2 :: rs2) []);
          [discriminate | now rewrite orb_false_r].
  - inversion Hrs as [|? ? Hc Hrs']; subst.
    assert (Hidx : 0 <= Trie.childIndex c < 26).
    { apply childIndex_in_bounds; [unfold Trie.rune_range, lower_rune in *; lia
                                  | assumption]. }
    rewrite slot_Done by assumption. cbn [bind].
    set (i := Z.to_nat (Trie.childIndex c)).
    set (next := match nth i (Trie.children t) None with
                 | Some n => n
                 | None => Trie.NewTrie
                 end).
    assert (Hnext : Trie.wf next).
    { subst next. pose proof (wf_child i Hwf) as H.
      destruct (nth i (Trie.children t) None); [exact H | apply wf_NewTrie]. }
    destruct (IH next Hnext Hrs') as (next' & Hins & Hwf' & Hcont).
    rewrite Hins. cbn [bind]. eexists. split; [reflexivity|].
    destruct Hwf as [w cs Hlen Hch]. cbn [Trie.children Trie.isWord] in *.
    assert (Hi : (i < List.length cs)%nat) by (subst i; lia).
    split.
    + constructor; [now rewrite update_length|].
      intros j t0 Hj. apply update_nth_error in Hj.
      destruct Hj as [[_ Heq]|Hj]; [inversion Heq; now subst | eauto].
    + intros rs2 b0 Hrs2 Hc2. destruct rs2 as [|c2 rs2].
      * cbn [Trie.containsRunes Trie.isWord] in *. rewrite Hc2.
        unfold same_runes. destruct (list_eq_dec Z.eq_dec [] (c :: rs));
          [discriminate | now rewrite orb_false_r].
      * inversion Hrs2 as [|? ? Hc2r Hrs2']; subst.
        assert (Hidx2 : 0 <= Trie.childIndex c2 < 26).
        { apply childIndex_in_bounds;
            [unfold Trie.rune_range, lower_rune in *; lia | assumption]. }
        cbn [Trie.containsRunes] in *.
        rewrite slot_Done in * by assumption. cbn [bind Trie.children] in *.
        destruct (Z.eq_dec c2 c) as [->|Hne].
        -- fold i. rewrite update_nth_same by assumption.
           fold i in Hc2. subst next.
           assert (Hsame : same_runes (c :: rs2) (c :: rs) = same_runes rs2 rs).
           { unfold same_runes.
             destruct (list_eq_dec Z.eq_dec (c :: rs2) (c :: rs)) as [E|E];
               destruct (list_eq_dec Z.eq_dec rs2 rs) as [E'|E'];
               try reflexivity; congruence. }
           rewrite Hsame.
           destruct (nth i cs None) as [n|].
           ++ now apply Hcont.
           ++ inversion Hc2; subst b0. apply Hcont; [assumption|].
              now apply containsRunes_NewTrie.
        -- rewrite update_nth_other
             by (subst i; rewrite !childIndex_small in * by (unfold lower_rune in *; lia);
                 unfold lower_rune in *; lia).
           assert (Hdiff : same_runes (c2 :: rs2) (c :: rs) = false).
           { unfold same_runes.
             destruct (list_eq_dec Z.eq_dec (c2 :: rs2) (c :: rs)) as [E|E];
               [congruence | reflexivity]. }
           rewrite Hdiff, orb_false_r. exact Hc2.
Qed.

Lemma byte_val_bound c : 0 <= byte_val c < 256.
Proof.
  unfold byte_val. pose proof (N_ascii_bounded c). lia.
Qed.

Lemma byte_val_ascii_of_N n :
  (n < 256)%N -> byte_val (ascii_of_N n) = Z.of_N n.
Proof. intros H. unfold byte_val. now rewrite N_ascii_embedding. Qed.

(** A letter is an ASCII byte whose lower-case form is one of ['a'..'z']
    and again an ASCII byte. *)
Lemma letter_lower c :
  Trie.letter c = true ->
  is_ascii_byte c = true /\ is_ascii_byte (lower_byte c) = true /\
  lower_rune (byte_val (lower_byte c)).
Proof.
  unfold Trie.letter, lower_rune, is_ascii_byte. intros H.
  apply andb_prop in H. destruct H as [H1 H2]. apply Z.leb_le in H1, H2.
  pose proof (byte_val_bound c) as Hb.
  assert (Hc : byte_val c < 128).
  { revert H1 H2. unfold lower_byte.
    destruct ((65 <=? byte_val c) && (byte_val c <=? 90)) eqn:E; [|lia].
    apply andb_prop in E. destruct E as [E1 E2]. apply Z.leb_le in E1, E2.
    lia. }
  split; [now apply Z.ltb_lt|]. split; [apply Z.ltb_lt; lia | lia].
Qed.

Lemma alphabetic_ascii word :
  Trie.alphabetic word = true ->
  is_ascii word = true /\ is_ascii (map_bytes lower_byte word) = true /\
  Forall lower_rune (byte_runes (map_bytes lower_byte word)).
Proof.
  induction word as [|c word IH]; cbn [Trie.alphabetic]; intros H.
  - repeat split. constructor.
  - apply andb_prop in H. destruct H as [Hc Hw].
    destruct (letter_lower _ Hc) as (H1 & H2 & H3).
    destruct (IH Hw) as (H4 & H5 & H6).
    cbn [is_ascii map_bytes]. rewrite H1, H2, H4, H5.
    repeat split. unfold byte_runes.
    cbn [list_ascii_of_string map]. now constructor.
Qed.

(** The runes ranged over by [Insert] and [ContainsWord] for a word of
    ASCII letters. *)
Lemma alphabetic_runes (U : Unicode) word :
  Trie.alphabetic word = true ->
  runes (ToLower word) = byte_runes (map_bytes lower_byte word) /\
  ToLower word = map_bytes lower_byte word.
Proof.
  intros H. destruct (alphabetic_ascii _ H) as (H1 & H2 & _).
  rewrite (ToLower_ascii U _ H1). unfold runes. rewrite H2. auto.
Qed.

Lemma byte_runes_inj a : forall b, byte_runes a = byte_runes b -> a = b.
Proof.
  unfold byte_runes.
  induction a as [|x a IH]; intros [|y b]; cbn [list_ascii_of_string map];
    intros H; try discriminate; [reflexivity|].
  inversion H as [[Hxy Hab]]. apply byte_val_inj in Hxy. subst y.
  f_equal. now apply IH.
Qed.

Lemma same_runes_eqb (a b : string) :
  same_runes (byte_runes a) (byte_runes b) = (b =? a)%string.
Proof.
  unfold same_runes, Trie.same_runes.
  destruct (list_eq_dec Z.eq_dec (byte_runes a) (byte_runes b)) as [E|E].
  - apply byte_runes_inj in E. subst. now rewrite String.eqb_refl.
  - symmetry. apply String.eqb_neq. intros ->. now apply E.
Qed.

Lemma InsertAll_spec (U : Unicode) words : forall t,
  Trie.wf t -> Forall (fun w => Trie.alphabetic w = true) words ->
  exists t',
    Trie.InsertAll t words = Done t' /\ Trie.wf t' /\
    forall rs2 b0,
      Forall lower_rune rs2 ->
      Trie.containsRunes t rs2 = Done b0 ->
      Trie.containsRunes t' rs2 =
      Done (b0 || existsb (fun w => same_runes rs2 (runes (ToLower w))) words).
Proof.
  induction words as [|word words IH]; intros t Hwf Hall; cbn [Trie.InsertAll].
  - exists t. split; [reflexivity|]. split; [assumption|].
    intros rs2 b0 _ H. cbn [existsb]. now rewrite orb_false_r.
  - inversion Hall as [|? ? Hw Hall']; subst.
    destruct (alphabetic_runes U _ Hw) as [Hr _].
    destruct (alphabetic_ascii _ Hw) as (_ & _ & Hlow).
    destruct (@insertRunes_spec (runes (ToLower word)) t Hwf) as
      (t1 & Hins & Hwf1 & Hc1); [now rewrite Hr|].
    unfold Trie.Insert. rewrite Hins. cbn [bind].
    destruct (IH t1 Hwf1 Hall') as (t' & Hall2 & Hwf' & Hc2).
    exists t'. split; [assumption|]. split; [assumption|].
    intros rs2 b0 Hrs2 H0. cbn [existsb]. rewrite orb_assoc.
    apply Hc2; [assumption|]. now apply Hc1.
Qed.

Lemma existsb_same_runes (U : Unicode) (word : string) (words : list string) :
  Trie.alphabetic word = true ->
  Forall (fun w => Trie.alphabetic w = true) words ->
  existsb (fun w => same_runes (runes (ToLower word)) (runes (ToLower w))) words
  = existsb (fun w => (ToLower w =? ToLower word)%string) words.
Proof.
  intros Hword Hwords.
  destruct (alphabetic_runes U _ Hword) as [Hr Hl].
  induction Hwords as [|w words Hw _ IH]; cbn [existsb]; [reflexivity|].
  destruct (alphabetic_runes U _ Hw) as [Hrw Hlw].
  rewrite IH, Hr, Hrw, Hl, Hlw. now rewrite same_runes_eqb.
Qed.

(** C10 (as amended).  The index [int(c - 'a')] computed for a rune lies
    within the 26-entry child array exactly when the rune is one of
    ['a'..'z'].  [Child] does not lower-case its argument: it reads the array
    in bounds for the runes ['a'..'z'] and goes out of bounds for every
    other rune, an upper-case letter included.  [ContainsWord] lower-cases
    first: on a trie built by inserting words that are all made of ASCII
    letters, and for a word made of ASCII letters, it stays in bounds and
    returns true exactly when some inserted word has the same lower-case
    form. *)
Theorem Trie_lookups_in_bounds_for_letters (U : Unicode) :
  (forall c, Trie.rune_range c ->
             (0 <= Trie.childIndex c < 26 <-> 97 <= c <= 122)) /\
  (forall t c, Trie.rune_range c ->
               (97 <= c <= 122 -> exists child, Trie.Child t c = Done child) /\
               (~ 97 <= c <= 122 ->
                Trie.Child t c = Panic "index out of range")) /\
  (forall words word,
      Forall (fun w => Trie.alphabetic w = true) words ->
      Trie.alphabetic word = true ->
      exists t,
        Trie.InsertAll Trie.NewTrie words = Done t /\
        Trie.ContainsWord t word =
        Done (existsb (fun w => (ToLower w =? ToLower word)%string) words)).
Proof.
  split; [exact childIndex_in_bounds|]. split.
  - intros t c Hc. unfold Trie.Child. split; intros H.
    + rewrite slot_Done by now apply childIndex_in_bounds. eauto.
    + apply slot_Panic. intros Hi. apply H. now apply childIndex_in_bounds.
  - intros words word Hwords Hword.
    destruct (@InsertAll_spec U words Trie.NewTrie wf_NewTrie Hwords)
      as (t & Hins & _ & Hcont).
    exists t. split; [assumption|]. unfold Trie.ContainsWord.
    assert (Hlow : Forall lower_rune (runes (ToLower word))).
    { destruct (alphabetic_runes U _ Hword) as [-> _].
      now apply alphabetic_ascii. }
    rewrite (Hcont _ false Hlow (containsRunes_NewTrie Hlow)).
    cbn [orb]. now rewrite existsb_same_runes.
Qed.

(** C10 as stated fails for [Child] and for the letter case.  Every
    character of "Hi" lower-cases into ['a'..'z'], yet [Child] on the rune
    'H' (72) indexes the array at -25; and after inserting "hi" alone,
    [ContainsWord] answers true for "HI", a word that was never inserted. *)
Lemma Trie_counterexample :
  Trie.alphabetic "Hi" = true /\
  Trie.childIndex 72 = -25 /\
  Trie.Child Trie.NewTrie 72 = Panic "index out of range" /\
  ~ In "HI" ["hi"] /\
  exists t, Trie.InsertAll (U := ascii_only) Trie.NewTrie ["hi"] = Done t /\
            Trie.ContainsWord (U := ascii_only) t "HI" = Done true.
Proof.
  split; [reflexivity|]. split; [reflexivity|]. split; [reflexivity|]. split.
  - intros [H|[]]. discriminate H.
  - eexists. split; reflexivity.
Qed.

(** ** Grid rendering *)

Lemma set_nth_Some line : forall i v,
  (i < List.length line)%nat ->
  exists line', set_nth line i v = Some line' /\
                List.length line' = List.length line.
Proof.
  induction line as [|e line IH]; intros [|i] v; cbn [List.length set_nth];
    try lia.
  - intros _. eexists. split; reflexivity.
  - intros H. destruct (IH i v ltac:(lia)) as (l & -> & Hl).
    eexists. split; [reflexivity|]. cbn [List.length]. now rewrite Hl.
Qed.

Lemma set_index_Done line i v :
  0 <= i < Z.of_nat (List.length line) ->
  exists line', set_index line i v = Done line' /\
                List.length line' = List.length line.
Proof.
  intros H. unfold set_index. destruct (Z.ltb_spec i 0); [lia|].
  destruct (@set_nth_Some line (Z.to_nat i) v ltac:(lia)) as (l & -> & Hl).
  eauto.
Qed.

Lemma at_index_in_range s i : 0 <= i < len s -> exists c, at_index s i = Done c.
Proof.
  intros H. apply byte_at_in_range in H. unfold at_index.
  destruct (byte_at s i); [eauto | congruence].
Qed.

Lemma at_index_out_of_range s i :
  ~ (0 <= i < len s) -> at_index s i = Panic "index out of range".
Proof.
  intros H. unfold at_index. destruct (byte_at s i) eqn:E; [|reflexivity].
  exfalso. apply H. apply byte_at_in_range. congruence.
Qed.

Section Rendering.

Variable gridChars : string.
Variable cols : Z.
Hypothesis Hcols : 1 <= cols <= GoInt.max_int.
Hypothesis Hlen : len gridChars <= GoInt.max_int.

Let in_range_nonneg z : 0 <= z <= GoInt.max_int -> GoInt.in_range z.
Proof.
  unfold GoInt.in_range. assert (GoInt.min_int < 0) by reflexivity. lia.
Qed.

(** A row all of whose cells are indices of the grid is filled in. *)
Lemma cellLoop_Done yi n : forall x line,
  0 <= yi -> 0 <= x ->
  yi + x + Z.of_nat n <= len gridChars ->
  x + Z.of_nat n <= cols ->
  Z.of_nat (List.length line) = cols + 2 ->
  exists line',
    cellLoop gridChars yi n x line = Done line' /\
    List.length line' = List.length line.
Proof.
  induction n as [|n IH]; intros x line Hyi Hx Hfit Hn Hline; cbn [cellLoop].
  - eauto.
  - unfold GoInt.add.
    rewrite (wrap_small (z := yi + x)) by (apply in_range_nonneg; lia).
    rewrite (wrap_small (z := 1 + x)) by (apply in_range_nonneg; lia).
    rewrite (wrap_small (z := x + 1)) by (apply in_range_nonneg; lia).
    destruct (@at_index_in_range gridChars (yi + x) ltac:(lia)) as (cell & ->).
    cbn [bind].
    destruct (@set_index_Done line (1 + x)
                (if byte_val cell =? 81 then " Qu" else Sprintf_c cell)
                ltac:(lia)) as (line1 & -> & Hl1).
    cbn [bind].
    destruct (IH (x + 1) line1) as (line' & Hrun & Hl'); try lia.
    exists line'. split; [exact Hrun | lia].
Qed.

(** A row that runs past the end of the grid panics. *)
Lemma cellLoop_Panic yi n : forall x line,
  0 <= yi -> 0 <= x ->
  yi + x <= len gridChars < yi + x + Z.of_nat n ->
  x + Z.of_nat n <= cols ->
  Z.of_nat (List.length line) = cols + 2 ->
  exists msg, cellLoop gridChars yi n x line = Panic msg.
Proof.
  induction n as [|n IH]; intros x line Hyi Hx Hpast Hn Hline; cbn [cellLoop].
  - lia.
  - unfold GoInt.add.
    rewrite (wrap_small (z := yi + x)) by (apply in_range_nonneg; lia).
    rewrite (wrap_small (z := 1 + x)) by (apply in_range_nonneg; lia).
    rewrite (wrap_small (z := x + 1)) by (apply in_range_nonneg; lia).
    destruct (Z.eq_dec (yi + x) (len gridChars)) as [Heq|Hne].
    + rewrite at_index_out_of_range by lia. cbn [bind]. eauto.
    + destruct (@at_index_in_range gridChars (yi + x) ltac:(lia)) as (cell & ->).
      cbn [bind].
      destruct (@set_index_Done line (1 + x)
                  (if byte_val cell =? 81 then " Qu" else Sprintf_c cell)
                  ltac:(lia)) as (line1 & -> & Hl1).
      cbn [bind]. apply IH; lia.
Qed.

Lemma rowLoop_Done n : forall y line gridLines,
  0 <= y -> y + Z.of_nat n <= GoInt.max_int ->
  (y + Z.of_nat n) * cols <= len gridChars ->
  Z.of_nat (List.length line) = cols + 2 ->
  exists out, rowLoop gridChars cols n y line gridLines = Done out.
Proof.
  induction n as [|n IH]; intros y line gridLines Hy Hmax Hfit Hline;
    cbn [rowLoop].
  - eauto.
  - unfold GoInt.mul, GoInt.add.
    rewrite (wrap_small (z := y * cols)) by (apply in_range_nonneg; nia).
    rewrite (wrap_small (z := y + 1)) by (apply in_range_nonneg; lia).
    destruct (@cellLoop_Done (y * cols) (Z.to_nat cols) 0 line)
      as (line' & -> & Hl'); try nia.
    cbn [bind]. apply IH; (lia || nia).
Qed.

Lemma rowLoop_Panic n : forall y line gridLines,
  0 <= y -> y + Z.of_nat n <= GoInt.max_int ->
  y * cols <= len gridChars < (y + Z.of_nat n) * cols ->
  Z.of_nat (List.length line) = cols + 2 ->
  exists msg, rowLoop gridChars cols n y line gridLines = Panic msg.
Proof.
  induction n as [|n IH]; intros y line gridLines Hy Hmax Hpast Hline;
    cbn [rowLoop].
  - lia.
  - unfold GoInt.mul, GoInt.add.
    rewrite (wrap_small (z := y * cols)) by (apply in_range_nonneg; nia).
    rewrite (wrap_small (z := y + 1)) by (apply in_range_nonneg; lia).
    destruct (Z_le_gt_dec ((y + 1) * cols) (len gridChars)) as [Hrow|Hrow].
    + destruct (@cellLoop_Done (y * cols) (Z.to_nat cols) 0 line)
        as (line' & -> & Hl'); try nia.
      cbn [bind]. apply IH; (lia || nia).
    + destruct (@cellLoop_Panic (y * cols) (Z.to_nat cols) 0 line)
        as (msg & ->); try nia.
      cbn [bind]. eauto.
Qed.

End Rendering.

(** C9.  For every [cols >= 1], [rows >= 1] and grid of ASCII bytes,
    [GridString] panics when the length of the grid is not [cols * rows],
    and returns a rendered string, without panicking, when it is.  The
    mismatch is not reported as an error value: the function has none. *)
Theorem GridString_panics_unless_length_matches
    (U : Unicode) (grid : string) (cols rows : Z) :
  1 <= cols <= GoInt.max_int ->
  1 <= rows <= GoInt.max_int ->
  go_string grid ->
  is_ascii grid = true ->
  (len grid <> cols * rows ->
   exists msg, GridString grid cols rows = Panic msg) /\
  (len grid = cols * rows ->
   exists out, GridString grid cols rows = Done out).
Proof.
  intros Hcols Hrows Hmem Hascii.
  pose proof (go_string_int Hmem) as Hint.
  assert (Hmax : GoInt.max_int = 2 ^ 63 - 1) by reflexivity.
  assert (Hmin : GoInt.min_int = - 2 ^ 63) by reflexivity.
  assert (Halloc : max_alloc = 2 ^ 48) by reflexivity.
  unfold go_string in Hmem.
  pose proof (len_nonneg grid) as Hnonneg.
  assert (HlenU : len (ToUpper grid) = len grid).
  { rewrite (ToUpper_ascii U _ Hascii). unfold len.
    now rewrite map_bytes_length. }
  assert (Hint' : len (ToUpper grid) <= GoInt.max_int)
    by (rewrite HlenU; exact Hint).
  assert (Hline : Z.of_nat (List.length
                              ((([] ++ [""]) ++ repeat "---" (Z.to_nat cols))
                                 ++ [newline])) = cols + 2).
  { rewrite !length_app, repeat_length. cbn [List.length]. lia. }
  split.
  - intros Hne. unfold GridString.
    destruct (Z.eqb_spec (len grid) (GoInt.mul cols rows)) as [Heq|Hneq];
      cbn [negb]; [|eauto].
    assert (Hbig : len grid < cols * rows).
    { destruct (Z_le_gt_dec (cols * rows) GoInt.max_int) as [Hfit|Hfit];
        [|lia].
      exfalso. apply Hne. rewrite Heq. unfold GoInt.mul. apply wrap_small.
      unfold GoInt.in_range. nia. }
    unfold make_cap.
    destruct (GoInt.add cols 2 <? 0); cbn [bind]; [eauto|].
    destruct (GoInt.add (GoInt.mul 2 rows) 1 <? 0); cbn [bind]; [eauto|].
    destruct (@rowLoop_Panic (ToUpper grid) cols Hcols Hint' (Z.to_nat rows) 0
                ((([] ++ [""]) ++ repeat "---" (Z.to_nat cols)) ++ [newline])
                ([] ++ [""])) as (msg & Hp);
      try lia; try (rewrite HlenU; lia); try exact Hline.
    rewrite Hp. cbn [bind]. eauto.
  - intros Heq. unfold GridString.
    assert (Hc : cols <= len grid) by nia.
    assert (Hr : rows <= len grid) by nia.
    assert (Hmul : GoInt.mul cols rows = cols * rows).
    { unfold GoInt.mul. apply wrap_small. unfold GoInt.in_range. lia. }
    rewrite Hmul. destruct (Z.eqb_spec (len grid) (cols * rows)); [|lia].
    cbn [negb]. unfold make_cap.
    assert (Hc2 : GoInt.add cols 2 = cols + 2).
    { unfold GoInt.add. apply wrap_small. unfold GoInt.in_range. lia. }
    assert (Hr2 : GoInt.add (GoInt.mul 2 rows) 1 = 2 * rows + 1).
    { unfold GoInt.add, GoInt.mul.
      rewrite (wrap_small (z := 2 * rows)) by (unfold GoInt.in_range; lia).
      apply wrap_small. unfold GoInt.in_range. lia. }
    rewrite Hc2, Hr2.
    destruct (Z.ltb_spec (cols + 2) 0); [lia|]. cbn [bind].
    destruct (Z.ltb_spec (2 * rows + 1) 0); [lia|]. cbn [bind].
    destruct (@rowLoop_Done (ToUpper grid) cols Hcols Hint' (Z.to_nat rows) 0
                ((([] ++ [""]) ++ repeat "---" (Z.to_nat cols)) ++ [newline])
                ([] ++ [""])) as (out & Hd);
      try lia; try (rewrite HlenU; lia); try exact Hline.
    rewrite Hd. cbn [bind]. eauto.
Qed.

Lemma GridString_panics_unless_length_matches_witness :
  (exists msg, GridString (U := ascii_only) "abcde" 2 2 = Panic msg) /\
  (exists out, GridString (U := ascii_only) "qbcd" 2 2 = Done out).
Proof.
  assert (Hc : 1 <= 2 <= GoInt.max_int) by (vm_compute; split; discriminate).
  assert (H5 : go_string "abcde") by (vm_compute; discriminate).
  assert (H4 : go_string "qbcd") by (vm_compute; discriminate).
  split.
  - apply (proj1 (@GridString_panics_unless_length_matches
                    ascii_only "abcde" 2 2 Hc Hc H5 eq_refl)).
    vm_compute. discriminate.
  - apply (proj2 (@GridString_panics_unless_length_matches
                    ascii_only "qbcd" 2 2 Hc Hc H4 eq_refl)).
    reflexivity.
Defined.

(** * Further properties of the engine *)

(** ** Adjacency is the king's-move relation *)

Lemma adjacent_sym columns a b :
  PathSpec.adjacent columns a b -> PathSpec.adjacent columns b a.
Proof.
  unfold PathSpec.adjacent. intros (Hne & Hc & Hr).
  split; [congruence|]. split; lia.
Qed.

(** X1.  On a grid of at least one column and one row whose size fits an
    [int], the slice returned by [calculateAdjacency] for a cell of the
    board holds exactly the other cells of the board whose column and whose
    row differ from the cell's by at most one.  The cell itself is never
    listed, and the relation is symmetric: a cell is listed for another
    exactly when that other cell is listed for it. *)
Theorem calculateAdjacency_kings_move (columns rows a : Z) :
  1 <= columns -> 1 <= rows -> columns * rows <= GoInt.max_int ->
  0 <= a < columns * rows ->
  exists adj,
    calculateAdjacency columns rows a = Done adj /\
    ~ In a adj /\
    (forall b,
        In b adj <->
        0 <= b < columns * rows /\ b <> a /\
        Z.abs (a mod columns - b mod columns) <= 1 /\
        Z.abs (a / columns - b / columns) <= 1) /\
    (forall b, 0 <= b < columns * rows ->
               exists adjb, calculateAdjacency columns rows b = Done adjb /\
                            (In b adj <-> In a adjb)).
Proof.
  intros Hc Hr Hfit Ha.
  exists (AdjacencySpec.Neighbors columns rows a).
  split; [now apply calculateAdjacency_Neighbors|].
  assert (Hchar : forall c d, 0 <= c < columns * rows ->
            (In d (AdjacencySpec.Neighbors columns rows c) <->
             0 <= d < columns * rows /\ d <> c /\
             Z.abs (c mod columns - d mod columns) <= 1 /\
             Z.abs (c / columns - d / columns) <= 1)).
  { intros c d Hcd. rewrite (@Neighbors_adjacent columns rows c d Hc Hr Hcd).
    unfold PathSpec.on_board, PathSpec.adjacent, AdjacencySpec.column,
      AdjacencySpec.row.
    split; [intros (Hon & Hne & H1 & H2) | intros (Hon & Hne & H1 & H2)];
      (split; [assumption|]); (split; [congruence|]); split; assumption. }
  split; [|split].
  - intros Hin. apply Hchar in Hin; [|assumption].
    destruct Hin as (_ & Hne & _). now apply Hne.
  - intros b. now apply Hchar.
  - intros b Hb. exists (AdjacencySpec.Neighbors columns rows b).
    split; [now apply calculateAdjacency_Neighbors|].
    rewrite (Hchar a b Ha), (Hchar b a Hb). split.
    + intros (_ & Hne & H1 & H2). split; [assumption|].
      split; [congruence|]. split; lia.
    + intros (_ & Hne & H1 & H2). split; [assumption|].
      split; [congruence|]. split; lia.
Qed.

Lemma calculateAdjacency_kings_move_witness :
  exists adj,
    calculateAdjacency 4 4 6 = Done adj /\
    ~ In 6 adj /\
    (forall b,
        In b adj <->
        0 <= b < 4 * 4 /\ b <> 6 /\
        Z.abs (6 mod 4 - b mod 4) <= 1 /\
        Z.abs (6 / 4 - b / 4) <= 1) /\
    (forall b, 0 <= b < 4 * 4 ->
               exists adjb, calculateAdjacency 4 4 b = Done adjb /\
                            (In b adj <-> In 6 adjb)).
Proof.
  apply (@calculateAdjacency_kings_move 4 4 6); try lia.
  vm_compute. discriminate.
Defined.

(** X2.  The returned slice is strictly increasing: the neighbours come in
    ascending cell order, none twice, and there are at most eight. *)
Theorem calculateAdjacency_ascending (columns rows cell : Z) :
  1 <= columns -> 1 <= rows -> columns * rows <= GoInt.max_int ->
  0 <= cell < columns * rows ->
  exists adj,
    calculateAdjacency columns rows cell = Done adj /\
    StronglySorted Z.lt adj /\ NoDup adj /\ (List.length adj <= 8)%nat.
Proof.
  intros Hc Hr Hfit Hcell.
  destruct (@cell_coordinates columns rows cell Hc Hcell) as (Hxy & Hx & Hy).
  assert (Hsorted : StronglySorted Z.lt (AdjacencySpec.Neighbors columns rows cell)).
  { rewrite Neighbors_unfold by assumption.
    set (x := AdjacencySpec.column columns cell) in *.
    set (y := AdjacencySpec.row columns cell) in *.
    destruct (Z.leb_spec 0 (y - 1)); destruct (Z.leb_spec 0 (x - 1));
      destruct (Z.ltb_spec (x + 1) columns); destruct (Z.ltb_spec (y + 1) rows);
      cbn [app]; repeat (constructor; try lia). }
  exists (AdjacencySpec.Neighbors columns rows cell).
  split; [now apply calculateAdjacency_Neighbors|].
  split; [exact Hsorted|]. split; [|apply Neighbors_length].
  clear - Hsorted.
  induction Hsorted as [|v l Hl IH Hv]; constructor; [|exact IH].
  intros Hin. rewrite Forall_forall in Hv. apply Hv in Hin. lia.
Qed.

Lemma calculateAdjacency_ascending_witness :
  exists adj,
    calculateAdjacency 3 2 4 = Done adj /\
    StronglySorted Z.lt adj /\ NoDup adj /\ (List.length adj <= 8)%nat.
Proof.
  apply (@calculateAdjacency_ascending 3 2 4); try lia.
  vm_compute. discriminate.
Defined.

(** ** The normaliser on arbitrary input *)

(** X3.  Whatever slice it is given, [uniqueSortedWords] returns a strictly
    increasing slice that holds exactly the non-empty words of the input:
    the empty string, equal to the initial value of [prev], is dropped even
    when it occurs once.  The result is never longer than the input. *)
Theorem uniqueSortedWords_contract (words : list string) :
  strictly_increasing (uniqueSortedWords words) /\
  (forall w, In w (uniqueSortedWords words) <-> In w words /\ w <> "") /\
  ~ In "" (uniqueSortedWords words) /\
  (List.length (uniqueSortedWords words) <= List.length words)%nat.
Proof.
  pose proof (uniqueSortedWords_increasing words) as Hinc.
  split; [exact Hinc|]. split; [apply uniqueSortedWords_In|]. split.
  - intros Hin. apply uniqueSortedWords_In in Hin. now destruct Hin.
  - apply NoDup_incl_length; [now apply strictly_increasing_NoDup|].
    intros w Hw. now apply uniqueSortedWords_In in Hw.
Qed.

(** X4.  The result is a canonical form of the set of non-empty input
    words: it does not depend on the order or the repetitions of the input,
    normalising twice is normalising once, and a strictly increasing slice
    without the empty string is returned as it is. *)
Theorem uniqueSortedWords_canonical (words : list string) :
  (forall words', (forall w, In w words <-> In w words') ->
                  uniqueSortedWords words' = uniqueSortedWords words) /\
  (forall words', Permutation words words' ->
                  uniqueSortedWords words' = uniqueSortedWords words) /\
  uniqueSortedWords (uniqueSortedWords words) = uniqueSortedWords words /\
  (strictly_increasing words -> ~ In "" words ->
   uniqueSortedWords words = words).
Proof.
  assert (Hset : forall l1 l2, (forall w, In w l1 <-> In w l2) ->
                               uniqueSortedWords l2 = uniqueSortedWords l1).
  { intros l1 l2 H. apply strictly_increasing_ext;
      try apply uniqueSortedWords_increasing.
    intros w. rewrite !uniqueSortedWords_In, H. reflexivity. }
  split; [now apply Hset|]. split; [|split].
  - intros words' Hperm. apply Hset. intros w. split; intros Hw.
    + eapply Permutation_in; eassumption.
    + eapply Permutation_in; [apply Permutation_sym|]; eassumption.
  - apply strictly_increasing_ext; try apply uniqueSortedWords_increasing.
    intros w. rewrite !uniqueSortedWords_In. tauto.
  - intros Hinc Hne. apply strictly_increasing_ext;
      [apply uniqueSortedWords_increasing | exact Hinc |].
    intros w. rewrite uniqueSortedWords_In. split; [tauto|].
    intros Hw. split; [exact Hw|]. intros ->. now apply Hne.
Qed.

(** The case checked by the package's own test (TestUniqueSortedWords). *)
Example uniqueSortedWords_test_vector :
  uniqueSortedWords
    ["gamma"; "delta"; "alpha"; "beta"; "zeta"; "delta"; "delta"]
  = ["alpha"; "beta"; "delta"; "gamma"; "zeta"].
Proof. reflexivity. Qed.

(** ** Building a solver *)

Lemma loadWord_outcome tree word maxLen minLen :
  (exists tree', loadWord tree word maxLen minLen = Done tree') \/
  loadWord tree word maxLen minLen = Panic "index out of range".
Proof.
  unfold loadWord.
  destruct ((maxLen <? len word) || (len word <? minLen)); [eauto|].
  destruct word as [|w0 rest]; [now right|].
  destruct (byte_val w0 <? 97); [eauto|].
  destruct (byte_val w0 =? 113); [|eauto].
  destruct rest as [|w1 rest2]; [now right|].
  destruct (negb (byte_val w1 =? 117)); eauto.
Qed.

Lemma loadWord_long tree word maxLen minLen :
  2 <= minLen -> exists tree', loadWord tree word maxLen minLen = Done tree'.
Proof.
  intros Hmin. unfold loadWord.
  destruct (Z.ltb_spec maxLen (len word)); cbn [orb]; [eauto|].
  destruct (Z.ltb_spec (len word) minLen); [eauto|].
  destruct word as [|w0 [|w1 rest2]]; try (cbn in *; lia).
  destruct (byte_val w0 <? 97); [eauto|].
  destruct (byte_val w0 =? 113); [|eauto].
  destruct (negb (byte_val w1 =? 117)); eauto.
Qed.

Lemma scanLoop_panics (bad : string) maxLen minLen words : forall tree,
  (forall tree0, loadWord tree0 bad maxLen minLen = Panic "index out of range") ->
  In bad words ->
  scanLoop tree words maxLen minLen = Panic "index out of range".
Proof.
  induction words as [|word words IH]; intros tree Hbad Hin; [destruct Hin|].
  cbn [scanLoop].
  destruct (loadWord_outcome tree word maxLen minLen) as [(tree' & E)|E];
    rewrite E; cbn [bind]; [|reflexivity].
  destruct Hin as [->|Hin]; [rewrite Hbad in E; discriminate|].
  now apply IH.
Qed.

Lemma scanLoop_long maxLen minLen :
  2 <= minLen ->
  forall words tree,
    exists tree', scanLoop tree words maxLen minLen = Done tree'.
Proof.
  intros Hmin. induction words as [|w ws IH]; intros tree; cbn [scanLoop];
    [eauto|].
  destruct (@loadWord_long tree w maxLen minLen Hmin) as (tree' & ->).
  cbn [bind]. apply IH.
Qed.

(** X5.  The loader reads [word[0]] and [word[1]] after the length test
    only.  With a minimum length of at least 2 (the solver passes 3) both
    reads are in bounds and the scan never panics, whatever the lines and
    the maximum length.  With a minimum length of 1 or less, the line "q"
    passes the length test and the read of its second byte panics; with a
    minimum length of 0 or less an empty line panics on its first byte. *)
Theorem loadWords_index_safety
    (words : list string) (scanErr : option string) (maxLen minLen : Z) :
  (2 <= minLen ->
   exists r, loadWords (Lines words scanErr) maxLen minLen = Done r) /\
  (minLen <= 1 <= maxLen -> In "q" words ->
   loadWords (Lines words scanErr) maxLen minLen = Panic "index out of range") /\
  (minLen <= 0 <= maxLen -> In "" words ->
   loadWords (Lines words scanErr) maxLen minLen = Panic "index out of range").
Proof.
  split; [|split].
  - intros Hmin.
    destruct (@scanLoop_long maxLen minLen Hmin words radixtree.New)
      as (tree & Htree).
    unfold loadWords. rewrite Htree. cbn [bind].
    destruct scanErr; eauto.
  - intros Hlen Hin. unfold loadWords.
    rewrite (@scanLoop_panics "q" maxLen minLen words); [reflexivity | | exact Hin].
    intros tree0. unfold loadWord.
    change (len "q") with 1.
    destruct (Z.ltb_spec maxLen 1); [lia|].
    destruct (Z.ltb_spec 1 minLen); [lia|]. reflexivity.
  - intros Hlen Hin. unfold loadWords.
    rewrite (@scanLoop_panics "" maxLen minLen words); [reflexivity | | exact Hin].
    intros tree0. unfold loadWord.
    change (len "") with 0.
    destruct (Z.ltb_spec maxLen 0); [lia|].
    destruct (Z.ltb_spec 0 minLen); [lia|]. reflexivity.
Qed.

(** X6.  [New] never panics.  It reports "invalid board dimensions" when a
    dimension is below 1, before the word source is looked at; otherwise it
    fails exactly when the words file cannot be opened, unzipped or read to
    its end, with the loader's error, and a partial read yields no solver.
    A solver that is returned has the dimensions asked for, as
    [Dimensions] reports them, the wrapped product as its board size, and a
    dictionary. *)
Theorem New_outcome (xlen ylen : Z) (src : wordSource) :
  exists r,
    New xlen ylen src = Done r /\
    match r with
    | Err msg =>
        if (xlen <? 1) || (ylen <? 1) then msg = "invalid board dimensions"
        else match src with
             | OpenFails err =>
                 msg = ("solver: error opening words file: " ++ err)%string
             | UnzipFails err =>
                 msg = ("solver: error unzipping words file: " ++ err)%string
             | Lines _ (Some err) =>
                 msg = ("solver: error reading words file: " ++ err)%string
             | Lines _ None => False
             end
    | Ok s =>
        1 <= xlen /\ 1 <= ylen /\ (exists words, src = Lines words None) /\
        Dimensions s = (xlen, ylen) /\
        BoardSize s = GoInt.wrap (xlen * ylen) /\
        exists tree n, rt s = Some tree /\ WordCount s = Done n /\ 0 <= n
    end.
Proof.
  unfold New.
  destruct (Z.ltb_spec xlen 1) as [Hx|Hx]; cbn [orb].
  { eexists. split; [reflexivity|]. reflexivity. }
  destruct (Z.ltb_spec ylen 1) as [Hy|Hy].
  { eexists. split; [reflexivity|]. reflexivity. }
  destruct src as [err|err|words scanErr].
  - eexists. split; [reflexivity|]. reflexivity.
  - eexists. split; [reflexivity|]. reflexivity.
  - destruct (@scanLoop_long (GoInt.mul xlen ylen) 3 ltac:(lia) words
                radixtree.New) as (tree & Hscan).
    unfold loadWords. rewrite Hscan. cbn [bind].
    destruct scanErr as [err|].
    + eexists. split; [reflexivity|]. reflexivity.
    + eexists. split; [reflexivity|].
      split; [exact Hx|]. split; [exact Hy|]. split; [eauto|].
      split; [reflexivity|]. split; [reflexivity|].
      exists tree, (radixtree.Len tree). split; [reflexivity|].
      split; [reflexivity|]. unfold radixtree.Len. lia.
Qed.

Lemma collapse_injective maxLen w1 w2 :
  BuildSpec.accepted maxLen w1 = true -> BuildSpec.accepted maxLen w2 = true ->
  BuildSpec.collapse w1 = BuildSpec.collapse w2 -> w1 = w2.
Proof.
  intros H1 H2 Heq.
  rewrite <- (accepted_rehydrated _ _ H1), <- (accepted_rehydrated _ _ H2).
  now rewrite Heq.
Qed.

(** X7.  [WordCount] of a solver built from a word list is the number of
    distinct words of the list that pass the loader's filters for its board
    size: a word that occurs on several lines is counted once, a skipped
    word is not counted, and the count never exceeds the number of lines. *)
Theorem WordCount_counts_distinct_accepted_words
    (xlen ylen : Z) (words : list string) (s : Solver) :
  New xlen ylen (Lines words None) = Done (Ok s) ->
  WordCount s =
    Done (Z.of_nat (List.length
                      (nodup string_dec
                             (filter (BuildSpec.accepted (BoardSize s)) words)))) /\
  exists n, WordCount s = Done n /\ 0 <= n <= Z.of_nat (List.length words).
Proof.
  intros HNew. apply New_built in HNew.
  destruct HNew as (_ & _ & Hc & Hr & tree & Hrt & Hload).
  assert (Hsize : BoardSize s = GoInt.mul xlen ylen)
    by (unfold BoardSize; now rewrite Hc, Hr).
  rewrite Hsize. clear Hsize Hc Hr.
  set (maxLen := GoInt.mul xlen ylen) in *.
  destruct (scanLoop_keys words radixtree.New maxLen)
    as (tree' & Hscan & Hnodup & Hkeys).
  unfold loadWords in Hload. rewrite Hscan in Hload. cbn [bind] in Hload.
  inversion Hload; subst tree'. clear Hload.
  specialize (Hnodup (NoDup_nil _)).
  set (kept := nodup string_dec (filter (BuildSpec.accepted maxLen) words)).
  assert (Hkept : forall w, In w kept <->
                            In w words /\ BuildSpec.accepted maxLen w = true).
  { intros w. unfold kept. rewrite nodup_In, filter_In. reflexivity. }
  assert (Hperm : Permutation (radixtree.keys tree)
                              (map BuildSpec.collapse kept)).
  { apply NoDup_Permutation; [exact Hnodup | |].
    - apply NoDup_map_NoDup_ForallPairs; [|apply NoDup_nodup].
      intros w1 w2 H1 H2 Heq. apply Hkept in H1, H2.
      destruct H1 as (_ & H1), H2 as (_ & H2).
      exact (@collapse_injective maxLen w1 w2 H1 H2 Heq).
    - intros key. rewrite Hkeys, in_map_iff. cbn [radixtree.New radixtree.keys In].
      split.
      + intros [[]|(w & Hw & Ha & ->)]. exists w. split; [reflexivity|].
        apply Hkept. auto.
      + intros (w & <- & Hw). apply Hkept in Hw. right. exists w. tauto. }
  assert (Hlen : List.length (radixtree.keys tree) = List.length kept).
  { rewrite (Permutation_length Hperm). apply length_map. }
  assert (Hcount : WordCount s = Done (Z.of_nat (List.length kept))).
  { unfold WordCount. rewrite Hrt. unfold radixtree.Len. now rewrite Hlen. }
  split; [exact Hcount|].
  eexists. split; [exact Hcount|]. split; [lia|].
  apply Nat2Z.inj_le. apply NoDup_incl_length; [apply NoDup_nodup|].
  intros w Hw. apply Hkept in Hw. tauto.
Qed.

Lemma WordCount_counts_distinct_accepted_words_witness :
  WordCount {| cols := 2; rows := 2;
               rt := Some {| radixtree.keys := ["abc"; "qab"] |} |} =
    Done (Z.of_nat (List.length
                      (nodup string_dec
                             (filter (BuildSpec.accepted 4)
                                     ["abc"; "quab"; "Abc"; "abc"; "ab"])))) /\
  exists n, WordCount {| cols := 2; rows := 2;
                         rt := Some {| radixtree.keys := ["abc"; "qab"] |} |}
            = Done n /\
            0 <= n <= Z.of_nat (List.length ["abc"; "quab"; "Abc"; "abc"; "ab"]).
Proof.
  apply (@WordCount_counts_distinct_accepted_words
           2 2 ["abc"; "quab"; "Abc"; "abc"; "ab"]).
  reflexivity.
Defined.

(** ** Words are stored and reported without loss *)

(** X8.  The leading "qu" folded by the loader is unfolded by the search:
    the key under which [loadWords] stores a line is written back by
    [Solve] ("qu" + key[1:]) as that very line, so a word is reported as it
    stands in the words file.  The fold loses nothing: two lines stored
    under the same key are the same line, because a line that starts with
    'q' without a 'u' is never stored. *)
Theorem stored_key_rehydrates_to_word (word : string) (maxLen : Z) :
  (forall tree,
      exists tree',
        loadWord tree word maxLen 3 = Done tree' /\
        forall key, In key (radixtree.keys tree') ->
                    In key (radixtree.keys tree) \/ rehydrate key = Done word) /\
  (forall word2 key,
      loadWord radixtree.New word maxLen 3
        = Done {| radixtree.keys := [key] |} ->
      loadWord radixtree.New word2 maxLen 3
        = Done {| radixtree.keys := [key] |} ->
      word2 = word).
Proof.
  split.
  - intros tree. rewrite loadWord_accepted.
    destruct (BuildSpec.accepted maxLen word) eqn:Ha.
    + eexists. split; [reflexivity|]. intros key Hk.
      apply Put_keys in Hk. destruct Hk as [Hk| ->]; [now left|]. right.
      rewrite rehydrate_nonempty.
      * now rewrite (accepted_rehydrated _ _ Ha).
      * intros E. apply accepted_collapse_length in Ha. rewrite E in Ha.
        cbn in Ha. lia.
    + eexists. split; [reflexivity|]. intros key Hk. now left.
  - intros word2 key. rewrite !loadWord_accepted.
    destruct (BuildSpec.accepted maxLen word) eqn:Ha;
      destruct (BuildSpec.accepted maxLen word2) eqn:Ha2;
      cbn; intros H1 H2; try discriminate.
    inversion H1 as [E1]. inversion H2 as [E2].
    apply (@collapse_injective maxLen word2 word Ha2 Ha). congruence.
Qed.

(** ** The search, relative to the keys of the dictionary *)

(** What [Solve] returns for a solver holding dictionary [tree]: the
    written-back forms of the keys that a simple path spells on the
    lower-cased grid. *)
Lemma Solve_finds_keys (U : Unicode) s tree grid :
  rt s = Some tree -> 1 <= cols s -> 1 <= rows s ->
  radixtree.long_keys tree ->
  is_ascii grid = true ->
  len grid = cols s * rows s -> len grid <= GoInt.max_int ->
  exists ws,
    (forall fuel, (Nat.pow 9 (String.length grid - 1) <= fuel)%nat ->
                  Solve fuel s grid = Done (Ok ws)) /\
    strictly_increasing ws /\
    forall w,
      In w ws <->
      exists key, In key (radixtree.keys tree) /\
                  PathSpec.spellable (cols s) (rows s) (ToLower grid) key /\
                  w = PathSpec.rehydrated key.
Proof.
  intros Hrt Hcols Hrows Hlong Hascii Hsize Hint.
  assert (HsizeL : len (ToLower grid) = cols s * rows s)
    by now rewrite ToLower_len.
  assert (HintL : len (ToLower grid) <= GoInt.max_int)
    by now rewrite ToLower_len.
  assert (Hall : Forall (PathSpec.on_board (cols s) (rows s))
                        (startCells (ToLower grid))).
  { apply Forall_forall. intros c Hc0. apply startCells_In in Hc0.
    unfold PathSpec.on_board. lia. }
  destruct (@SolveFrom_spec U s tree grid startCells Hrt Hcols Hrows Hascii
              Hsize Hint Hall _ (Nat.le_refl _)) as (ws & Hrun & Hinc & Hmem).
  exists ws. split; [|split; [exact Hinc|]].
  - intros fuel Hfuel.
    destruct (@SolveFrom_spec U s tree grid startCells Hrt Hcols Hrows Hascii
                Hsize Hint Hall fuel Hfuel) as (ws' & Hrun' & Hinc' & Hmem').
    unfold Solve. rewrite Hrun'. do 2 f_equal.
    apply strictly_increasing_ext; try assumption.
    intros w. rewrite Hmem, Hmem'. reflexivity.
  - intros w. rewrite Hmem. split.
    + intros (Hne & c0 & Hc0 & Hf). apply startCells_In in Hc0.
      apply (@found_from_spellable s tree (ToLower grid) Hcols Hrows HsizeL HintL)
        in Hf; [exact Hf | unfold PathSpec.on_board; lia].
    + intros (key & Hk & Hsp & ->).
      destruct (@spellable_found s tree (ToLower grid) Hcols Hrows HsizeL HintL
                  _ (Hlong _ Hk) Hk Hsp) as (c0 & Hon & Hf).
      split.
      * apply rehydrated_nonempty. intros ->. specialize (Hlong _ Hk).
        cbn in Hlong. lia.
      * exists c0. split; [|exact Hf]. apply startCells_In.
        unfold PathSpec.on_board in Hon. lia.
Qed.

Lemma is_ascii_map_lower s : is_ascii s = true -> is_ascii (map_bytes lower_byte s) = true.
Proof.
  induction s as [|c s IH]; cbn [is_ascii map_bytes]; [reflexivity|].
  rewrite andb_true_iff. intros (Hc & Hs). rewrite (IH Hs), andb_true_r.
  unfold is_ascii_byte, lower_byte in *. apply Z.ltb_lt in Hc.
  destruct ((65 <=? byte_val c) && (byte_val c <=? 90)) eqn:E;
    [|now apply Z.ltb_lt].
  apply andb_true_iff in E. destruct E as (E1 & E2).
  apply Z.leb_le in E1, E2. apply Z.ltb_lt.
  unfold byte_val in *. rewrite N_ascii_embedding; lia.
Qed.

Lemma is_ascii_map_upper s : is_ascii s = true -> is_ascii (map_bytes upper_byte s) = true.
Proof.
  induction s as [|c s IH]; cbn [is_ascii map_bytes]; [reflexivity|].
  rewrite andb_true_iff. intros (Hc & Hs). rewrite (IH Hs), andb_true_r.
  unfold is_ascii_byte, upper_byte in *. apply Z.ltb_lt in Hc.
  destruct ((97 <=? byte_val c) && (byte_val c <=? 122)) eqn:E;
    [|now apply Z.ltb_lt].
  apply andb_true_iff in E. destruct E as (E1 & E2).
  apply Z.leb_le in E1, E2. apply Z.ltb_lt.
  unfold byte_val in *. rewrite N_ascii_embedding; lia.
Qed.

Lemma lower_upper_byte c : lower_byte (upper_byte c) = lower_byte c.
Proof.
  unfold lower_byte, upper_byte.
  destruct ((97 <=? byte_val c) && (byte_val c <=? 122)) eqn:E.
  - apply andb_true_iff in E. destruct E as (E1 & E2).
    apply Z.leb_le in E1, E2.
    assert (Hv : byte_val (ascii_of_N (N_of_ascii c - 32)) = byte_val c - 32).
    { unfold byte_val in *. rewrite N_ascii_embedding; lia. }
    rewrite Hv.
    destruct (Z.leb_spec 65 (byte_val c - 32)); [|lia].
    destruct (Z.leb_spec (byte_val c - 32) 90); [|lia]. cbn [andb].
    destruct (Z.leb_spec 65 (byte_val c)); [|lia].
    destruct (Z.leb_spec (byte_val c) 90); [lia|]. cbn [andb].
    rewrite <- (ascii_N_embedding c) at 2. f_equal.
    rewrite N_ascii_embedding by (unfold byte_val in *; lia).
    unfold byte_val in *. lia.
  - reflexivity.
Qed.

Lemma upper_lower_byte c : upper_byte (lower_byte c) = upper_byte c.
Proof.
  destruct ((65 <=? byte_val c) && (byte_val c <=? 90)) eqn:E.
  - assert (Hl : lower_byte c = ascii_of_N (N_of_ascii c + 32))
      by (unfold lower_byte; now rewrite E).
    apply andb_true_iff in E. destruct E as (E1 & E2).
    apply Z.leb_le in E1, E2.
    assert (Hv : byte_val (ascii_of_N (N_of_ascii c + 32)) = byte_val c + 32).
    { unfold byte_val in *. rewrite N_ascii_embedding; lia. }
    rewrite Hl. unfold upper_byte. rewrite Hv.
    destruct (Z.leb_spec 97 (byte_val c + 32)); [|lia].
    destruct (Z.leb_spec (byte_val c + 32) 122); [|lia]. cbn [andb].
    destruct (Z.leb_spec 97 (byte_val c)); [lia|]. cbn [andb].
    rewrite N_ascii_embedding by (unfold byte_val in *; lia).
    replace (N_of_ascii c + 32 - 32)%N with (N_of_ascii c) by lia.
    apply ascii_N_embedding.
  - assert (Hl : lower_byte c = c) by (unfold lower_byte; now rewrite E).
    now rewrite Hl.
Qed.

Lemma lower_lower_byte c : lower_byte (lower_byte c) = lower_byte c.
Proof.
  destruct ((65 <=? byte_val c) && (byte_val c <=? 90)) eqn:E.
  - assert (Hl : lower_byte c = ascii_of_N (N_of_ascii c + 32))
      by (unfold lower_byte; now rewrite E).
    apply andb_true_iff in E. destruct E as (E1 & E2).
    apply Z.leb_le in E1, E2.
    assert (Hv : byte_val (ascii_of_N (N_of_ascii c + 32)) = byte_val c + 32).
    { unfold byte_val in *. rewrite N_ascii_embedding; lia. }
    rewrite Hl. unfold lower_byte. rewrite Hv.
    destruct (Z.leb_spec 65 (byte_val c + 32)); [|lia].
    destruct (Z.leb_spec (byte_val c + 32) 90); [lia|]. reflexivity.
  - assert (Hl : lower_byte c = c) by (unfold lower_byte; now rewrite E).
    now rewrite !Hl.
Qed.

Lemma map_bytes_compose f g s :
  map_bytes f (map_bytes g s) = map_bytes (fun c => f (g c)) s.
Proof. induction s as [|c s IH]; cbn [map_bytes]; [reflexivity | now rewrite IH]. Qed.

Lemma map_bytes_ext f g s :
  (forall c, f c = g c) -> map_bytes f s = map_bytes g s.
Proof.
  intros H. induction s as [|c s IH]; cbn [map_bytes]; [reflexivity|].
  now rewrite H, IH.
Qed.

(** X9.  The search is case-insensitive on ASCII grids: [Solve] gives the
    same outcome (words, error or panic, for the same fuel) for a grid, for
    its upper-cased form and for its lower-cased form, whatever the
    solver. *)
Theorem Solve_case_insensitive
    (U : Unicode) (fuel : nat) (s : Solver) (grid : string) :
  is_ascii grid = true ->
  Solve fuel s (ToUpper grid) = Solve fuel s grid /\
  Solve fuel s (ToLower grid) = Solve fuel s grid.
Proof.
  intros Hascii.
  assert (Hup : ToLower (ToUpper grid) = ToLower grid).
  { rewrite (ToUpper_ascii U _ Hascii).
    rewrite (ToLower_ascii U _ (is_ascii_map_upper _ Hascii)).
    rewrite (ToLower_ascii U _ Hascii), map_bytes_compose.
    apply map_bytes_ext, lower_upper_byte. }
  assert (Hlow : ToLower (ToLower grid) = ToLower grid).
  { rewrite (ToLower_ascii U _ Hascii).
    rewrite (ToLower_ascii U _ (is_ascii_map_lower _ Hascii)).
    rewrite map_bytes_compose. apply map_bytes_ext, lower_lower_byte. }
  assert (HlenU : len (ToUpper grid) = len grid).
  { rewrite (ToUpper_ascii U _ Hascii). unfold len.
    now rewrite map_bytes_length. }
  assert (HlenL : len (ToLower grid) = len grid) by now apply ToLower_len.
  unfold Solve, SolveFrom. destruct (rt s) as [tree|]; [|split; reflexivity].
  rewrite HlenU, HlenL, Hup, Hlow. split; reflexivity.
Qed.

Lemma Solve_case_insensitive_witness :
  Solve (U := ascii_only) 100
        {| cols := 2; rows := 2;
           rt := Some {| radixtree.keys := ["abc"; "qab"] |} |}
        (ToUpper (U := ascii_only) "qAbC")
  = Solve (U := ascii_only) 100
          {| cols := 2; rows := 2;
             rt := Some {| radixtree.keys := ["abc"; "qab"] |} |} "qAbC" /\
  Solve (U := ascii_only) 100
        {| cols := 2; rows := 2;
           rt := Some {| radixtree.keys := ["abc"; "qab"] |} |}
        (ToLower (U := ascii_only) "qAbC")
  = Solve (U := ascii_only) 100
          {| cols := 2; rows := 2;
             rt := Some {| radixtree.keys := ["abc"; "qab"] |} |} "qAbC".
Proof.
  apply (@Solve_case_insensitive ascii_only 100). reflexivity.
Defined.

Lemma pow9_le (a b : nat) : (a <= b)%nat -> (Nat.pow 9 a <= Nat.pow 9 b)%nat.
Proof. intros H. apply Nat.pow_le_mono_r; lia. Qed.

Lemma accepted_length maxLen w :
  BuildSpec.accepted maxLen w = true -> 3 <= len w <= maxLen.
Proof.
  unfold BuildSpec.accepted. rewrite !andb_true_iff, !negb_true_iff.
  intros (((H1 & H2) & _) & _). apply Z.ltb_ge in H1, H2. lia.
Qed.

(** X10.  A board of fewer than three cells has no words: the loader keeps
    no word shorter than three letters and none longer than the board, so
    the dictionary of such a solver is empty, [WordCount] is 0, and [Solve]
    returns the empty list for every grid of the right length. *)
Theorem Solve_small_board_finds_nothing
    (U : Unicode) (xlen ylen : Z) (words : list string) (s : Solver)
    (grid : string) :
  New xlen ylen (Lines words None) = Done (Ok s) ->
  xlen * ylen < 3 ->
  is_ascii grid = true ->
  len grid = xlen * ylen ->
  WordCount s = Done 0 /\
  forall fuel, (9 <= fuel)%nat -> Solve fuel s grid = Done (Ok []).
Proof.
  intros HNew Hsmall Hascii Hsize.
  assert (Hmax : GoInt.max_int = 2 ^ 63 - 1) by reflexivity.
  destruct (built_dictionary _ _ _ HNew) as
    (Hcols & Hrows & Hc & Hr & tree & Hrt & Hlong & Hkeys); [lia|].
  assert (Hempty : radixtree.keys tree = []).
  { destruct (radixtree.keys tree) as [|key keys] eqn:E; [reflexivity|].
    destruct (proj1 (Hkeys key)) as (w & _ & Ha & _);
      [try rewrite E; now left|].
    apply accepted_length in Ha. lia. }
  split.
  - unfold WordCount. rewrite Hrt. unfold radixtree.Len. now rewrite Hempty.
  - subst xlen ylen.
    destruct (@Solve_finds_keys U s tree grid Hrt Hcols Hrows Hlong Hascii
                Hsize ltac:(lia)) as (ws & Hrun & _ & Hmem).
    assert (Hws : ws = []).
    { destruct ws as [|w ws]; [reflexivity|].
      destruct (proj1 (Hmem w) (or_introl eq_refl)) as (key & Hk & _).
      rewrite Hempty in Hk. destruct Hk. }
    subst ws. intros fuel Hfuel. apply Hrun.
    etransitivity; [|exact Hfuel].
    change 9%nat with (Nat.pow 9 1). apply pow9_le.
    unfold len in Hsize. lia.
Qed.

Lemma Solve_small_board_finds_nothing_witness :
  WordCount {| cols := 2; rows := 1; rt := Some {| radixtree.keys := [] |} |}
    = Done 0 /\
  forall fuel, (9 <= fuel)%nat ->
    Solve (U := ascii_only) fuel
          {| cols := 2; rows := 1; rt := Some {| radixtree.keys := [] |} |}
          "ab" = Done (Ok []).
Proof.
  apply (@Solve_small_board_finds_nothing ascii_only 2 1 ["ab"; "abc"; "to"]);
    try reflexivity.
Defined.

Lemma rehydrated_cases c rest :
  PathSpec.rehydrated (String c rest) =
  if (c =? "q")%char then String "q" (String "u" rest) else String c rest.
Proof.
  destruct (Ascii.eqb_spec c "q") as [->|Hq]; [reflexivity|].
  destruct c as [[] [] [] [] [] [] [] []]; try reflexivity. now elim Hq.
Qed.

Lemma rehydrated_injective k1 k2 :
  PathSpec.rehydrated k1 = PathSpec.rehydrated k2 -> k1 = k2.
Proof.
  destruct k1 as [|c1 r1], k2 as [|c2 r2]; rewrite ?rehydrated_cases.
  - reflexivity.
  - cbn [PathSpec.rehydrated]. destruct (c2 =? "q")%char; discriminate.
  - cbn [PathSpec.rehydrated]. destruct (c1 =? "q")%char; discriminate.
  - destruct (Ascii.eqb_spec c1 "q") as [->|H1];
      destruct (Ascii.eqb_spec c2 "q") as [->|H2];
      intros H; inversion H; subst; try reflexivity; congruence.
Qed.

(** The result of [Solve] for a solver built from a word list, with the
    fuel that suffices. *)
Lemma Solve_finds_words (U : Unicode) xlen ylen words s grid :
  New xlen ylen (Lines words None) = Done (Ok s) ->
  is_ascii grid = true -> go_string grid -> len grid = xlen * ylen ->
  exists tree ws,
    rt s = Some tree /\
    (forall fuel, (Nat.pow 9 (String.length grid - 1) <= fuel)%nat ->
                  Solve fuel s grid = Done (Ok ws)) /\
    strictly_increasing ws /\
    (forall w, In w ws -> exists key, In key (radixtree.keys tree) /\
                                      w = PathSpec.rehydrated key) /\
    forall w,
      In w ws <->
      In w words /\ BuildSpec.accepted (xlen * ylen) w = true /\
      PathSpec.spellable xlen ylen (ToLower grid) (BuildSpec.collapse w).
Proof.
  intros HNew Hascii Hint Hsize. apply go_string_int in Hint.
  destruct (built_dictionary _ _ _ HNew) as
    (Hcols & Hrows & Hc & Hr & tree & Hrt & Hlong & Hkeys).
  { rewrite <- Hsize. exact Hint. }
  subst xlen ylen.
  destruct (@Solve_finds_keys U s tree grid Hrt Hcols Hrows Hlong Hascii
              Hsize Hint) as (ws & Hrun & Hinc & Hmem).
  exists tree, ws. split; [exact Hrt|]. split; [exact Hrun|].
  split; [exact Hinc|]. split.
  - intros w Hw. apply Hmem in Hw. destruct Hw as (key & Hk & _ & ->). eauto.
  - intros w. rewrite Hmem. split.
    + intros (key & Hk & Hsp & ->). apply Hkeys in Hk.
      destruct Hk as (word & Hw & Ha & ->).
      rewrite (accepted_rehydrated _ _ Ha). auto.
    + intros (Hw & Ha & Hsp). exists (BuildSpec.collapse w).
      split; [apply Hkeys; eauto|]. split; [exact Hsp|].
      now rewrite (accepted_rehydrated _ _ Ha).
Qed.

(** X11.  [Solve] never returns more words than [WordCount] reports, and
    every word it returns is a line of the word list that has at least
    three letters, at most as many letters as the board has cells, and a
    first byte not below ['a']. *)
Theorem Solve_result_within_dictionary
    (U : Unicode) (xlen ylen : Z) (words : list string) (s : Solver)
    (grid : string) :
  New xlen ylen (Lines words None) = Done (Ok s) ->
  is_ascii grid = true -> go_string grid -> len grid = xlen * ylen ->
  exists ws fuel0 n,
    (forall fuel, (fuel0 <= fuel)%nat -> Solve fuel s grid = Done (Ok ws)) /\
    WordCount s = Done n /\
    Z.of_nat (List.length ws) <= n /\
    Forall (fun w => In w words /\ 3 <= len w <= xlen * ylen /\
                     exists c rest, w = String c rest /\ 97 <= byte_val c) ws.
Proof.
  intros HNew Hascii Hint Hsize.
  destruct (@Solve_finds_words U xlen ylen words s grid HNew Hascii Hint Hsize)
    as (tree & ws & Hrt & Hrun & Hinc & Hkey & Hmem).
  exists ws, (Nat.pow 9 (String.length grid - 1)), (radixtree.Len tree).
  split; [exact Hrun|]. split; [unfold WordCount; now rewrite Hrt|]. split.
  - unfold radixtree.Len. apply Nat2Z.inj_le.
    rewrite <- (length_map PathSpec.rehydrated (radixtree.keys tree)).
    apply NoDup_incl_length; [now apply strictly_increasing_NoDup|].
    intros w Hw. destruct (Hkey w Hw) as (key & Hk & ->).
    now apply in_map.
  - apply Forall_forall. intros w Hw. apply Hmem in Hw.
    destruct Hw as (Hw & Ha & _). split; [exact Hw|].
    split; [now apply accepted_length|].
    unfold BuildSpec.accepted in Ha. rewrite !andb_true_iff in Ha.
    destruct Ha as ((_ & Hfirst) & _).
    destruct w as [|c rest]; [discriminate Hfirst|].
    exists c, rest. split; [reflexivity|].
    cbn [BuildSpec.first_not_below_a] in Hfirst. now apply Z.leb_le.
Qed.

Lemma Solve_result_within_dictionary_witness :
  exists ws fuel0 n,
    (forall fuel, (fuel0 <= fuel)%nat ->
       Solve (U := ascii_only) fuel
             {| cols := 2; rows := 2;
                rt := Some {| radixtree.keys := ["abc"; "qab"; "cab"] |} |}
             "QABC" = Done (Ok ws)) /\
    WordCount {| cols := 2; rows := 2;
                 rt := Some {| radixtree.keys := ["abc"; "qab"; "cab"] |} |}
      = Done n /\
    Z.of_nat (List.length ws) <= n /\
    Forall (fun w => In w ["abc"; "quab"; "Abc"; "ab"; "cab"; "qab"] /\
                     3 <= len w <= 2 * 2 /\
                     exists c rest, w = String c rest /\ 97 <= byte_val c) ws.
Proof.
  apply (@Solve_result_within_dictionary
           ascii_only 2 2 ["abc"; "quab"; "Abc"; "ab"; "cab"; "qab"]).
  - reflexivity.
  - reflexivity.
  - vm_compute. discriminate.
  - reflexivity.
Defined.

(** X12.  The result grows with the word list: for the same board and
    grid, every word found with a list is found with any list that holds
    all its words.  In particular two lists with the same words (in any
    order, with any repetitions) give the same result. *)
Theorem Solve_monotone_in_word_list
    (U : Unicode) (xlen ylen : Z) (words1 words2 : list string)
    (s1 s2 : Solver) (grid : string) :
  New xlen ylen (Lines words1 None) = Done (Ok s1) ->
  New xlen ylen (Lines words2 None) = Done (Ok s2) ->
  is_ascii grid = true -> go_string grid -> len grid = xlen * ylen ->
  incl words1 words2 ->
  exists ws1 ws2 fuel0,
    (forall fuel, (fuel0 <= fuel)%nat ->
                  Solve fuel s1 grid = Done (Ok ws1) /\
                  Solve fuel s2 grid = Done (Ok ws2)) /\
    incl ws1 ws2 /\
    (incl words2 words1 -> ws1 = ws2).
Proof.
  intros HNew1 HNew2 Hascii Hint Hsize Hincl.
  destruct (@Solve_finds_words U xlen ylen words1 s1 grid HNew1 Hascii Hint Hsize)
    as (tree1 & ws1 & _ & Hrun1 & Hinc1 & _ & Hmem1).
  destruct (@Solve_finds_words U xlen ylen words2 s2 grid HNew2 Hascii Hint Hsize)
    as (tree2 & ws2 & _ & Hrun2 & Hinc2 & _ & Hmem2).
  exists ws1, ws2, (Nat.pow 9 (String.length grid - 1)).
  split; [|split].
  - intros fuel Hfuel. split; [now apply Hrun1 | now apply Hrun2].
  - intros w Hw. apply Hmem2. apply Hmem1 in Hw.
    destruct Hw as (Hw & Ha & Hsp). auto.
  - intros Hincl'. apply strictly_increasing_ext; try assumption.
    intros w. rewrite Hmem1, Hmem2. split; intros (Hw & Ha & Hsp); auto.
Qed.

Lemma Solve_monotone_in_word_list_witness :
  exists ws1 ws2 fuel0,
    (forall fuel, (fuel0 <= fuel)%nat ->
       Solve (U := ascii_only) fuel
             {| cols := 2; rows := 2;
                rt := Some {| radixtree.keys := ["abc"] |} |} "xabc"
         = Done (Ok ws1) /\
       Solve (U := ascii_only) fuel
             {| cols := 2; rows := 2;
                rt := Some {| radixtree.keys := ["cab"; "abc"] |} |} "xabc"
         = Done (Ok ws2)) /\
    incl ws1 ws2 /\
    (incl ["cab"; "abc"; "abc"] ["abc"] -> ws1 = ws2).
Proof.
  apply (@Solve_monotone_in_word_list
           ascii_only 2 2 ["abc"] ["cab"; "abc"; "abc"]).
  - reflexivity.
  - reflexivity.
  - reflexivity.
  - vm_compute. discriminate.
  - reflexivity.
  - intros w [<-|[]]. right. now left.
Defined.

(** ** A half-turn of the board *)

Lemma get_nth_error s : forall n,
  String.get n s = nth_error (list_ascii_of_string s) n.
Proof.
  induction s as [|c s IH]; intros [|n]; cbn; auto.
Qed.

Lemma list_ascii_length s :
  List.length (list_ascii_of_string s) = String.length s.
Proof. induction s as [|c s IH]; cbn; [reflexivity | now rewrite IH]. Qed.

Lemma reverse_string_length s :
  String.length (reverse_string s) = String.length s.
Proof.
  unfold reverse_string.
  rewrite <- list_ascii_length, list_ascii_of_string_of_list_ascii, length_rev.
  apply list_ascii_length.
Qed.

Lemma reverse_string_involutive s : reverse_string (reverse_string s) = s.
Proof.
  unfold reverse_string.
  rewrite list_ascii_of_string_of_list_ascii, rev_involutive.
  apply string_of_list_ascii_of_string.
Qed.

Lemma reverse_string_byte_at s i :
  0 <= i < len s ->
  byte_at (reverse_string s) (len s - 1 - i) = byte_at s i.
Proof.
  intros Hi. unfold byte_at, len in *.
  destruct (Z.ltb_spec (Z.of_nat (String.length s) - 1 - i) 0); [lia|].
  destruct (Z.ltb_spec i 0); [lia|].
  rewrite !get_nth_error. unfold reverse_string.
  rewrite list_ascii_of_string_of_list_ascii, nth_error_rev, list_ascii_length.
  destruct (Nat.ltb_spec (Z.to_nat (Z.of_nat (String.length s) - 1 - i))
                         (String.length s)); [|lia].
  f_equal. lia.
Qed.

Lemma map_bytes_list f s :
  list_ascii_of_string (map_bytes f s) = map f (list_ascii_of_string s).
Proof. induction s as [|c s IH]; cbn; [reflexivity | now rewrite IH]. Qed.

Lemma map_bytes_reverse f s :
  map_bytes f (reverse_string s) = reverse_string (map_bytes f s).
Proof.
  rewrite <- (string_of_list_ascii_of_string (map_bytes f (reverse_string s))).
  unfold reverse_string.
  rewrite !map_bytes_list, list_ascii_of_string_of_list_ascii, map_rev.
  reflexivity.
Qed.

Lemma is_ascii_forallb s :
  is_ascii s = forallb is_ascii_byte (list_ascii_of_string s).
Proof. induction s as [|c s IH]; cbn; [reflexivity | now rewrite IH]. Qed.

Lemma is_ascii_reverse s : is_ascii (reverse_string s) = is_ascii s.
Proof.
  rewrite !is_ascii_forallb. unfold reverse_string.
  rewrite list_ascii_of_string_of_list_ascii.
  destruct (forallb is_ascii_byte (list_ascii_of_string s)) eqn:E.
  - apply forallb_forall. intros c Hc. apply in_rev in Hc.
    rewrite forallb_forall in E. now apply E.
  - destruct (forallb is_ascii_byte (rev (list_ascii_of_string s))) eqn:E';
      [|reflexivity].
    rewrite <- E. symmetry. apply forallb_forall. intros c Hc.
    rewrite forallb_forall in E'. apply E'. now apply in_rev in Hc.
Qed.

Section HalfTurn.

Variables columns rows : Z.
Hypothesis Hcolumns : 1 <= columns.
Hypothesis Hrows : 1 <= rows.

Let turn (i : Z) : Z := columns * rows - 1 - i.

Lemma turn_coordinates i :
  0 <= i < columns * rows ->
  AdjacencySpec.column columns (turn i)
    = columns - 1 - AdjacencySpec.column columns i /\
  AdjacencySpec.row columns (turn i) = rows - 1 - AdjacencySpec.row columns i.
Proof.
  intros Hi. unfold AdjacencySpec.column, AdjacencySpec.row, turn.
  pose proof (Z.div_mod i columns ltac:(lia)) as Hdm.
  pose proof (Z.mod_pos_bound i columns ltac:(lia)) as Hm.
  assert (Heq : columns * rows - 1 - i
                = columns * (rows - 1 - i / columns)
                  + (columns - 1 - i mod columns)) by lia.
  split.
  - symmetry. eapply Z.mod_unique; [|exact Heq]. left. lia.
  - symmetry. eapply Z.div_unique; [|exact Heq]. left. lia.
Qed.

Lemma turn_adjacent a b :
  0 <= a < columns * rows -> 0 <= b < columns * rows ->
  PathSpec.adjacent columns a b ->
  PathSpec.adjacent columns (turn a) (turn b).
Proof.
  intros Ha Hb (Hne & Hc & Hr).
  destruct (turn_coordinates Ha) as (Hca & Hra).
  destruct (turn_coordinates Hb) as (Hcb & Hrb).
  unfold PathSpec.adjacent. rewrite Hca, Hra, Hcb, Hrb.
  split; [unfold turn; lia|]. split; lia.
Qed.

Lemma turn_simple_path path :
  PathSpec.simple_path columns rows path ->
  PathSpec.simple_path columns rows (map turn path).
Proof.
  intros (Hon & Hnd & Hstep). split; [|split].
  - apply Forall_forall. intros c Hc. apply in_map_iff in Hc.
    destruct Hc as (i & <- & Hi). rewrite Forall_forall in Hon.
    specialize (Hon i Hi). unfold PathSpec.on_board, turn in *. lia.
  - apply NoDup_map_NoDup_ForallPairs; [|exact Hnd].
    intros i j _ _ H. unfold turn in H. lia.
  - induction Hstep as [|a|a b l Hab Hstep IH]; cbn [map];
      try constructor.
    + inversion Hon as [|? ? Ha Hon']; subst.
      inversion Hon' as [|? ? Hb _]; subst.
      apply turn_adjacent; assumption.
    + apply IH.
      * now inversion Hon.
      * now inversion Hnd.
Qed.

Lemma turn_spell board path key :
  len board = columns * rows ->
  Forall (PathSpec.on_board columns rows) path ->
  PathSpec.spell board path = Some key ->
  PathSpec.spell (reverse_string board) (map turn path) = Some key.
Proof.
  intros Hlen. revert key.
  induction path as [|c path IH]; intros key Hon Hsp; cbn [map].
  - exact Hsp.
  - apply spell_cons in Hsp. destruct Hsp as (b & w & Hb & Hw & ->).
    inversion Hon as [|? ? Hc Hon']; subst.
    apply spell_cons. exists b, w. split; [|split; [|reflexivity]].
    + unfold turn. rewrite <- Hlen. rewrite reverse_string_byte_at; [exact Hb|].
      unfold PathSpec.on_board in Hc. lia.
    + now apply IH.
Qed.

Lemma turn_spellable board key :
  len board = columns * rows ->
  PathSpec.spellable columns rows board key ->
  PathSpec.spellable columns rows (reverse_string board) key.
Proof.
  intros Hlen (path & Hpath & Hsp). exists (map turn path).
  split; [now apply turn_simple_path|].
  apply turn_spell; [assumption | now destruct Hpath | assumption].
Qed.

End HalfTurn.

(** X13.  Turning the board by a half-turn does not change what is found:
    [Solve] returns the same words for a grid and for the grid read
    backwards. *)
Theorem Solve_half_turn_invariant
    (U : Unicode) (xlen ylen : Z) (src : wordSource) (s : Solver)
    (grid : string) :
  New xlen ylen src = Done (Ok s) ->
  is_ascii grid = true -> go_string grid -> len grid = xlen * ylen ->
  exists ws fuel0,
    forall fuel, (fuel0 <= fuel)%nat ->
      Solve fuel s grid = Done (Ok ws) /\
      Solve fuel s (reverse_string grid) = Done (Ok ws).
Proof.
  intros HNew Hascii Hint Hsize. apply go_string_int in Hint.
  destruct (New_built _ _ _ HNew) as (Hx & Hy & _ & _ & tree0 & _ & Hload).
  apply loadWords_keys in Hload. destruct Hload as (words & Hsrc & _).
  subst src.
  destruct (built_dictionary _ _ _ HNew) as
    (Hcols & Hrows & Hc & Hr & tree & Hrt & Hlong & _).
  { rewrite <- Hsize. exact Hint. }
  subst xlen ylen.
  set (back := reverse_string grid).
  assert (Hlenb : len back = len grid)
    by (unfold len, back; now rewrite reverse_string_length).
  assert (Hasciib : is_ascii back = true)
    by (unfold back; now rewrite is_ascii_reverse).
  assert (Hlowb : ToLower back = reverse_string (ToLower grid)).
  { rewrite (ToLower_ascii U _ Hasciib), (ToLower_ascii U _ Hascii).
    apply map_bytes_reverse. }
  destruct (@Solve_finds_keys U s tree grid Hrt Hcols Hrows Hlong Hascii
              Hsize Hint) as (ws & Hrun & Hinc & Hmem).
  destruct (@Solve_finds_keys U s tree back Hrt Hcols Hrows Hlong Hasciib
              ltac:(lia) ltac:(lia)) as (ws' & Hrun' & Hinc' & Hmem').
  assert (Heq : ws' = ws).
  { apply strictly_increasing_ext; try assumption.
    intros w. rewrite Hmem, Hmem', Hlowb.
    assert (HlenL : len (ToLower grid) = cols s * rows s)
      by now rewrite ToLower_len.
    split; intros (key & Hk & Hsp & ->); exists key;
      (split; [exact Hk|]); (split; [|reflexivity]).
    - rewrite <- (reverse_string_involutive (ToLower grid)).
      apply turn_spellable; try assumption.
      unfold len. rewrite reverse_string_length. exact HlenL.
    - apply turn_spellable; assumption. }
  subst ws'. exists ws, (Nat.pow 9 (String.length grid - 1)).
  intros fuel Hfuel. split; [now apply Hrun|]. apply Hrun'.
  unfold back. now rewrite reverse_string_length.
Qed.

Lemma Solve_half_turn_invariant_witness :
  exists ws fuel0,
    forall fuel, (fuel0 <= fuel)%nat ->
      Solve (U := ascii_only) fuel
            {| cols := 3; rows := 2;
               rt := Some {| radixtree.keys := ["tea"; "qit"] |} |} "TeaQui"
        = Done (Ok ws) /\
      Solve (U := ascii_only) fuel
            {| cols := 3; rows := 2;
               rt := Some {| radixtree.keys := ["tea"; "qit"] |} |}
            (reverse_string "TeaQui")
        = Done (Ok ws).
Proof.
  apply (@Solve_half_turn_invariant
           ascii_only 3 2 (Lines ["tea"; "quit"; "Tea"] None)).
  - reflexivity.
  - reflexivity.
  - vm_compute. discriminate.
  - reflexivity.
Defined.

(** ** The picture drawn by GridString *)

Lemma concat_empty_cons a l :
  String.concat "" (a :: l) = (a ++ String.concat "" l)%string.
Proof.
  destruct l as [|b l]; cbn [String.concat].
  - now rewrite string_append_nil_r.
  - reflexivity.
Qed.

Lemma Join_cons sep l : forall x,
  Join (x :: l) sep
  = (x ++ String.concat "" (map (fun e => sep ++ e) l))%string.
Proof.
  unfold Join. induction l as [|y l IH]; intros x.
  - cbn. now rewrite string_append_nil_r.
  - change (String.concat sep (x :: y :: l))
      with (x ++ sep ++ String.concat sep (y :: l))%string.
    rewrite IH. cbn [map]. rewrite concat_empty_cons.
    now rewrite string_append_assoc.
Qed.

Lemma concat_empty_app l1 l2 :
  String.concat "" (l1 ++ l2)
  = (String.concat "" l1 ++ String.concat "" l2)%string.
Proof.
  induction l1 as [|a l1 IH]; [reflexivity|].
  change ((a :: l1) ++ l2) with (a :: (l1 ++ l2)).
  now rewrite !concat_empty_cons, IH, string_append_assoc.
Qed.

Lemma Join_framed sep body last :
  Join ("" :: body ++ [last]) sep
  = (String.concat "" (map (fun e => sep ++ e) body) ++ sep ++ last)%string.
Proof.
  rewrite Join_cons. cbn [String.append]. rewrite map_app, concat_empty_app.
  cbn [map]. now rewrite concat_empty_cons, string_append_nil_r.
Qed.

Lemma hline_ruleLine n :
  Join ("" :: repeat "---" n ++ [newline]) "+" = ruleLine n.
Proof.
  rewrite Join_framed. unfold ruleLine. do 2 f_equal.
  induction n as [|n IH]; [reflexivity|]. cbn [repeat map]. now rewrite IH.
Qed.

Lemma Join_rowLine cells :
  Join ("" :: map cellText cells ++ [newline]) "|" = rowLine cells.
Proof.
  rewrite Join_framed. unfold rowLine. now rewrite map_map.
Qed.

Lemma substring_get k : forall s m c,
  String.get k s = Some c ->
  String.substring k (S m) s = String c (String.substring (S k) m s).
Proof.
  induction k as [|k IH]; intros [|d s] m c H; cbn in H; try discriminate.
  - inversion H; subst. cbn. destruct m, s; reflexivity.
  - cbn [String.substring]. rewrite (IH s m c H). reflexivity.
Qed.

Lemma substring_length k : forall s m,
  (k + m <= String.length s)%nat ->
  String.length (String.substring k m s) = m.
Proof.
  induction k as [|k IH]; intros s m H.
  - revert s H. induction m as [|m IHm]; intros [|c s] H; cbn in *;
      try reflexivity; try lia.
    f_equal. apply IHm. lia.
  - destruct s as [|c s]; cbn in *; [lia|]. apply IH. lia.
Qed.

Lemma substring_zero s : forall k, String.substring k 0 s = "".
Proof. induction s as [|c s IH]; intros [|k]; cbn; auto. Qed.

Lemma set_nth_app (hd : list string) o rest v :
  set_nth (hd ++ o :: rest) (List.length hd) v = Some (hd ++ v :: rest).
Proof.
  induction hd as [|h hd IH]; cbn [app List.length set_nth]; [reflexivity|].
  now rewrite IH.
Qed.

Section Picture.

Variable gridChars : string.
Variable cols : Z.
Hypothesis Hcols : 1 <= cols <= GoInt.max_int.
Hypothesis Hlen : len gridChars <= GoInt.max_int.

Let nonneg_in_range z : 0 <= z <= GoInt.max_int -> GoInt.in_range z.
Proof.
  unfold GoInt.in_range. assert (GoInt.min_int < 0) by reflexivity. lia.
Qed.

(** One pass of the inner loop overwrites the cells [1 + x ..] of the line
    with the texts of the next [n] bytes of the grid. *)
Lemma cellLoop_fills yi n : forall x hd old tl,
  0 <= yi -> 0 <= x ->
  yi + x + Z.of_nat n <= len gridChars ->
  x + Z.of_nat n <= cols ->
  Z.of_nat (List.length hd) = 1 + x -> List.length old = n ->
  cellLoop gridChars yi n x (hd ++ old ++ tl)
  = Done (hd ++ map cellText
                    (list_ascii_of_string
                       (String.substring (Z.to_nat (yi + x)) n gridChars))
             ++ tl).
Proof.
  induction n as [|n IH]; intros x hd old tl Hyi Hx Hfit Hn Hhd Hold;
    cbn [cellLoop].
  - destruct old; [|discriminate].
    rewrite substring_zero. reflexivity.
  - destruct old as [|o old]; [discriminate|]. cbn [List.length] in Hold.
    unfold GoInt.add.
    rewrite (wrap_small (z := yi + x)) by (apply nonneg_in_range; lia).
    rewrite (wrap_small (z := 1 + x)) by (apply nonneg_in_range; lia).
    rewrite (wrap_small (z := x + 1)) by (apply nonneg_in_range; lia).
    destruct (@at_index_in_range gridChars (yi + x) ltac:(lia)) as (cell & Hcell).
    rewrite Hcell. cbn [bind].
    assert (Hget : String.get (Z.to_nat (yi + x)) gridChars = Some cell).
    { unfold at_index, byte_at in Hcell.
      destruct (Z.ltb_spec (yi + x) 0); [lia|].
      destruct (String.get (Z.to_nat (yi + x)) gridChars);
        [now inversion Hcell | discriminate]. }
    unfold set_index. destruct (Z.ltb_spec (1 + x) 0); [lia|].
    replace (Z.to_nat (1 + x)) with (List.length hd) by lia.
    cbn [app]. rewrite set_nth_app. cbn [bind].
    fold (cellText cell).
    change (hd ++ cellText cell :: old ++ tl)
      with (hd ++ [cellText cell] ++ old ++ tl).
    rewrite app_assoc.
    rewrite (IH (x + 1) (hd ++ [cellText cell]) old tl); try lia.
    + rewrite (substring_get _ _ n Hget).
      replace (Z.to_nat (yi + (x + 1))) with (S (Z.to_nat (yi + x))) by lia.
      cbn [list_ascii_of_string map]. rewrite <- app_assoc. reflexivity.
    + rewrite length_app. cbn [List.length]. lia.
Qed.

(** The outer loop appends one rendered row per iteration; the line is
    reused from row to row and entirely overwritten each time. *)
Lemma rowLoop_renders n : forall y old gridLines,
  0 <= y -> (y + Z.of_nat n) * cols <= len gridChars ->
  List.length old = Z.to_nat cols ->
  rowLoop gridChars cols n y ("" :: old ++ [newline]) gridLines
  = Done (gridLines
            ++ map (fun y' => rowLine (rowCells gridChars (Z.to_nat cols) y'))
                   (seq (Z.to_nat y) n)).
Proof.
  induction n as [|n IH]; intros y old gridLines Hy Hfit Hold; cbn [rowLoop].
  - cbn [seq map]. now rewrite app_nil_r.
  - unfold GoInt.mul, GoInt.add.
    rewrite (wrap_small (z := y * cols)) by (apply nonneg_in_range; nia).
    rewrite (wrap_small (z := y + 1)) by (apply nonneg_in_range; nia).
    change ("" :: old ++ [newline]) with ([""] ++ old ++ [newline]).
    rewrite (@cellLoop_fills (y * cols) (Z.to_nat cols) 0 [""] old [newline]);
      try (cbn [List.length]; nia); try exact Hold.
    cbn [bind].
    set (cells := list_ascii_of_string
                    (String.substring (Z.to_nat (y * cols + 0))
                                      (Z.to_nat cols) gridChars)).
    assert (Hcells : cells = rowCells gridChars (Z.to_nat cols) (Z.to_nat y)).
    { unfold cells, rowCells. do 2 f_equal. nia. }
    change ([""] ++ map cellText cells ++ [newline])
      with ("" :: map cellText cells ++ [newline]).
    rewrite Join_rowLine.
    rewrite (IH (y + 1) (map cellText cells)); try nia.
    + rewrite <- app_assoc. cbn [app seq map].
      replace (Z.to_nat (y + 1)) with (S (Z.to_nat y)) by lia.
      now rewrite Hcells.
    + rewrite length_map. unfold cells. rewrite list_ascii_length.
      apply substring_length. unfold len in *. nia.
Qed.

End Picture.

Lemma concat_map_length (A : Type) (f : A -> string) (L : nat) l :
  (forall x, In x l -> String.length (f x) = L) ->
  String.length (String.concat "" (map f l)) = (List.length l * L)%nat.
Proof.
  induction l as [|a l IH]; intros H; [reflexivity|].
  cbn [map]. rewrite concat_empty_cons, string_length_append.
  rewrite H by now left. rewrite IH by (intros x Hx; apply H; now right).
  cbn [List.length]. lia.
Qed.

Lemma ruleLine_length n : String.length (ruleLine n) = (4 * n + 2)%nat.
Proof.
  unfold ruleLine. rewrite string_length_append.
  assert (H : String.length (String.concat "" (repeat "+---" n)) = (4 * n)%nat).
  { induction n as [|n IH]; [reflexivity|].
    cbn [repeat]. rewrite concat_empty_cons, string_length_append, IH.
    cbn [String.length]. lia. }
  rewrite H. cbn. lia.
Qed.

Lemma cellText_length c :
  is_ascii_byte c = true -> String.length (cellText c) = 3%nat.
Proof.
  intros Hc. unfold cellText. destruct (byte_val c =? 81); [reflexivity|].
  unfold Sprintf_c, utf8_of_byte. unfold is_ascii_byte in Hc. now rewrite Hc.
Qed.

Lemma rowLine_length cells :
  forallb is_ascii_byte cells = true ->
  String.length (rowLine cells) = (4 * List.length cells + 2)%nat.
Proof.
  intros Hcells. unfold rowLine. rewrite string_length_append.
  rewrite (@concat_map_length _ (fun c => ("|" ++ cellText c)%string) 4).
  - cbn. lia.
  - intros c Hc. rewrite forallb_forall in Hcells.
    cbn [String.append String.length]. now rewrite cellText_length by auto.
Qed.

Lemma is_ascii_substring s : forall k m,
  is_ascii s = true -> is_ascii (String.substring k m s) = true.
Proof.
  induction s as [|c s IH]; intros k m H.
  - destruct k, m; reflexivity.
  - cbn [is_ascii] in H. apply andb_true_iff in H. destruct H as (Hc & Hs).
    destruct k as [|k]; cbn [String.substring].
    + destruct m as [|m]; [reflexivity|]. cbn [is_ascii].
      now rewrite Hc, IH.
    + now apply IH.
Qed.

Lemma rendering_length g (c r : nat) :
  is_ascii g = true -> (r * c <= String.length g)%nat ->
  String.length (rendering g c r) = ((2 * r + 1) * (4 * c + 2))%nat.
Proof.
  intros Hascii Hfit. unfold rendering. rewrite string_length_append.
  rewrite (@concat_map_length _
             (fun y => (ruleLine c ++ rowLine (rowCells g c y))%string)
             (2 * (4 * c + 2))).
  - rewrite length_seq, ruleLine_length. nia.
  - intros y Hy. apply in_seq in Hy.
    rewrite string_length_append, ruleLine_length, rowLine_length.
    + unfold rowCells. rewrite list_ascii_length, substring_length; [lia|].
      nia.
    + unfold rowCells. rewrite <- is_ascii_forallb.
      now apply is_ascii_substring.
Qed.

(** The picture of a grid whose length is the product of the dimensions. *)
Lemma GridString_renders (U : Unicode) (g : string) (cols rows : Z) :
  1 <= cols -> 1 <= rows ->
  is_ascii g = true -> len g <= max_alloc -> len g = cols * rows ->
  GridString g cols rows
  = Done (rendering (ToUpper g) (Z.to_nat cols) (Z.to_nat rows)).
Proof.
  intros Hcols Hrows Hg Hmem Hlen.
  assert (Hmax : GoInt.max_int = 2 ^ 63 - 1) by reflexivity.
  assert (Hmin : GoInt.min_int = - 2 ^ 63) by reflexivity.
  assert (Halloc : max_alloc = 2 ^ 48) by reflexivity.
  assert (Hc48 : cols <= 2 ^ 48) by nia.
  assert (Hr48 : rows <= 2 ^ 48) by nia.
  unfold GridString, GoInt.mul, GoInt.add.
  rewrite (wrap_small (z := cols * rows)) by (unfold GoInt.in_range; lia).
  rewrite (wrap_small (z := 2 * rows)) by (unfold GoInt.in_range; lia).
  rewrite !wrap_small by (unfold GoInt.in_range; lia).
  rewrite Hlen, Z.eqb_refl. cbn [negb]. unfold make_cap.
  destruct (Z.ltb_spec (cols + 2) 0); [lia|].
  destruct (Z.ltb_spec (2 * rows + 1) 0); [lia|]. cbn [bind app].
  assert (HlenU : len (ToUpper g) = len g).
  { rewrite (ToUpper_ascii U _ Hg). unfold len.
    now rewrite map_bytes_length. }
  assert (Hc : 1 <= cols <= GoInt.max_int) by lia.
  assert (HintU : len (ToUpper g) <= GoInt.max_int) by lia.
  rewrite (@rowLoop_renders (ToUpper g) cols Hc HintU
             (Z.to_nat rows) 0 (repeat "---" (Z.to_nat cols)) [""]);
    [| lia | lia | apply repeat_length].
  cbn [bind]. rewrite hline_ruleLine.
  change ([""] ++ map (fun y' : nat =>
                         rowLine (rowCells (ToUpper g) (Z.to_nat cols) y'))
                      (seq (Z.to_nat 0) (Z.to_nat rows)))
    with ("" :: map (fun y' : nat =>
                       rowLine (rowCells (ToUpper g) (Z.to_nat cols) y'))
                    (seq 0 (Z.to_nat rows))).
  change (("" :: ?l) ++ [""]) with ("" :: l ++ [""]).
  rewrite Join_framed, string_append_nil_r. unfold rendering.
  now rewrite map_map.
Qed.

(** X14.  For an ASCII grid of exactly [cols * rows] bytes, [GridString]
    returns the picture of the upper-cased grid: for every row a rule
    ["+---+...+"] and the row's cells between bars, each cell being its
    letter between two blanks or [" Qu"] for a 'Q', then a closing rule,
    every line ended by a newline.  The line slice that the loop reuses from
    row to row never leaks a cell of an earlier row.  The picture has
    [2 * rows + 1] lines of [4 * cols + 2] bytes, and does not depend on the
    case of the letters given. *)
Theorem GridString_draws_the_grid
    (U : Unicode) (grid : string) (cols rows : Z) :
  1 <= cols -> 1 <= rows ->
  is_ascii grid = true -> go_string grid -> len grid = cols * rows ->
  GridString grid cols rows
    = Done (rendering (ToUpper grid) (Z.to_nat cols) (Z.to_nat rows)) /\
  len (rendering (ToUpper grid) (Z.to_nat cols) (Z.to_nat rows))
    = (2 * rows + 1) * (4 * cols + 2) /\
  GridString (ToLower grid) cols rows = GridString grid cols rows.
Proof.
  intros Hcols Hrows Hascii Hmem Hsize. unfold go_string in Hmem.
  split; [now apply GridString_renders|]. split.
  - unfold len. rewrite rendering_length.
    + lia.
    + rewrite (ToUpper_ascii U _ Hascii). now apply is_ascii_map_upper.
    + rewrite (ToUpper_ascii U _ Hascii), map_bytes_length.
      unfold len in Hsize. nia.
  - assert (HasciiL : is_ascii (ToLower grid) = true).
    { rewrite (ToLower_ascii U _ Hascii). now apply is_ascii_map_lower. }
    assert (HlenL : len (ToLower grid) = len grid) by now apply ToLower_len.
    rewrite (@GridString_renders U grid cols rows) by assumption.
    rewrite (@GridString_renders U (ToLower grid) cols rows)
      by (try assumption; lia).
    do 2 f_equal.
    rewrite (ToUpper_ascii U _ HasciiL), (ToLower_ascii U _ Hascii),
      (ToUpper_ascii U _ Hascii), map_bytes_compose.
    apply map_bytes_ext, upper_lower_byte.
Qed.

Lemma GridString_draws_the_grid_witness :
  GridString (U := ascii_only) "qadfetriihkriflv" 4 4
    = Done (rendering (ToUpper (U := ascii_only) "qadfetriihkriflv")
                      (Z.to_nat 4) (Z.to_nat 4)) /\
  len (rendering (ToUpper (U := ascii_only) "qadfetriihkriflv")
                 (Z.to_nat 4) (Z.to_nat 4))
    = (2 * 4 + 1) * (4 * 4 + 2) /\
  GridString (U := ascii_only)
             (ToLower (U := ascii_only) "qadfetriihkriflv") 4 4
    = GridString (U := ascii_only) "qadfetriihkriflv" 4 4.
Proof.
  apply (@GridString_draws_the_grid ascii_only "qadfetriihkriflv" 4 4).
  - lia.
  - lia.
  - reflexivity.
  - vm_compute. discriminate.
  - reflexivity.
Defined.

(** The rendering checked by the package's own test (TestGridString). *)
Example GridString_test_vector :
  GridString (U := ascii_only) "abcdefghi" 3 3
  = Done ("+---+---+---+" ++ newline
          ++ "| A | B | C |" ++ newline
          ++ "+---+---+---+" ++ newline
          ++ "| D | E | F |" ++ newline
          ++ "+---+---+---+" ++ newline
          ++ "| G | H | I |" ++ newline
          ++ "+---+---+---+" ++ newline)%string.
Proof. reflexivity. Qed.

(** ** The picture determines the grid *)

Lemma append_inj_length a : forall a' b b',
  String.length a = String.length a' ->
  (a ++ b)%string = (a' ++ b')%string -> a = a' /\ b = b'.
Proof.
  induction a as [|c a IH]; intros [|c' a'] b b' Hlen H; cbn in *;
    try discriminate.
  - auto.
  - inversion H as [[Hc Ht]]. inversion Hlen as [Hl].
    destruct (IH a' b b' Hl Ht) as (-> & ->). auto.
Qed.

Lemma cellText_inj a b :
  is_ascii_byte a = true -> is_ascii_byte b = true ->
  cellText a = cellText b -> a = b.
Proof.
  intros Ha Hb. unfold cellText, Sprintf_c, utf8_of_byte.
  unfold is_ascii_byte in Ha, Hb. rewrite Ha, Hb.
  destruct (Z.eqb_spec (byte_val a) 81) as [Ea|Ea];
    destruct (Z.eqb_spec (byte_val b) 81) as [Eb|Eb]; cbn; intros H.
  - apply byte_val_inj. congruence.
  - inversion H.
  - inversion H.
  - now inversion H.
Qed.

Lemma rowLine_cons a cells :
  rowLine (a :: cells) = ("|" ++ cellText a ++ rowLine cells)%string.
Proof.
  unfold rowLine. cbn [map]. rewrite concat_empty_cons.
  now rewrite !string_append_assoc.
Qed.

Lemma rowLine_inj cells : forall cells',
  forallb is_ascii_byte cells = true -> forallb is_ascii_byte cells' = true ->
  List.length cells = List.length cells' ->
  rowLine cells = rowLine cells' -> cells = cells'.
Proof.
  induction cells as [|a cells IH]; intros [|a' cells'] H1 H2 Hlen H;
    try discriminate; [reflexivity|].
  cbn [forallb] in H1, H2. apply andb_true_iff in H1, H2.
  destruct H1 as (Ha & H1), H2 as (Ha' & H2).
  rewrite !rowLine_cons in H. cbn [String.append] in H.
  inversion H as [H'].
  apply append_inj_length in H'; [|now rewrite !cellText_length].
  destruct H' as (Hc & Ht).
  f_equal; [now apply cellText_inj|].
  apply IH; try assumption. now inversion Hlen.
Qed.

Lemma append_cancel_head a : forall b b',
  (a ++ b)%string = (a ++ b')%string -> b = b'.
Proof.
  induction a as [|c a IH]; intros b b' H; cbn in H; [exact H|].
  inversion H. now apply IH.
Qed.

Lemma rendering_rows_inj g g' (c : nat) ys :
  is_ascii g = true -> is_ascii g' = true ->
  (forall y, In y ys -> (y * c + c <= String.length g)%nat /\
                        (y * c + c <= String.length g')%nat) ->
  (String.concat ""
     (map (fun y => ruleLine c ++ rowLine (rowCells g c y)) ys)
   ++ ruleLine c)%string
  = (String.concat ""
       (map (fun y => ruleLine c ++ rowLine (rowCells g' c y)) ys)
     ++ ruleLine c)%string ->
  forall y, In y ys -> rowCells g c y = rowCells g' c y.
Proof.
  intros Hg Hg'. induction ys as [|y0 ys IH]; intros Hfit H y Hy;
    [destruct Hy|].
  cbn [map] in H. rewrite !concat_empty_cons, !string_append_assoc in H.
  apply append_cancel_head in H.
  destruct (Hfit y0 (or_introl eq_refl)) as (Hf & Hf').
  assert (Hrow : forall s, is_ascii s = true ->
                           forallb is_ascii_byte (rowCells s c y0) = true).
  { intros s Hs. unfold rowCells. rewrite <- is_ascii_forallb.
    now apply is_ascii_substring. }
  assert (Hlen : forall s, (y0 * c + c <= String.length s)%nat ->
                           List.length (rowCells s c y0) = c).
  { intros s Hs. unfold rowCells.
    rewrite list_ascii_length. now apply substring_length. }
  apply append_inj_length in H;
    [|rewrite !rowLine_length by auto; now rewrite !Hlen].
  destruct H as (Hrows & Hrest).
  destruct Hy as [<-|Hy].
  - apply rowLine_inj; auto. now rewrite !Hlen.
  - apply IH; auto. intros z Hz. apply Hfit. now right.
Qed.

Lemma get_beyond s n : (String.length s <= n)%nat -> String.get n s = None.
Proof.
  intros H. destruct (String.get n s) as [c|] eqn:E; [|reflexivity].
  apply get_Some_lt in E. lia.
Qed.

Lemma rows_determine_grid g g' (c r : nat) :
  (1 <= c)%nat ->
  String.length g = (r * c)%nat -> String.length g' = (r * c)%nat ->
  (forall y, (y < r)%nat -> rowCells g c y = rowCells g' c y) ->
  g = g'.
Proof.
  intros Hc Hlen Hlen' Hrows. apply get_correct. intros n.
  destruct (Nat.lt_ge_cases n (r * c)) as [Hn|Hn].
  - pose proof (Nat.div_mod_eq n c) as Hdm.
    pose proof (Nat.mod_upper_bound n c ltac:(lia)) as Hm.
    assert (Hy : (n / c < r)%nat) by (apply Nat.Div0.div_lt_upper_bound; lia).
    specialize (Hrows _ Hy). unfold rowCells in Hrows.
    assert (Hsub : String.substring (n / c * c) c g
                   = String.substring (n / c * c) c g').
    { rewrite <- (string_of_list_ascii_of_string
                    (String.substring (n / c * c) c g)).
      rewrite Hrows. apply string_of_list_ascii_of_string. }
    replace n with (n mod c + n / c * c)%nat by lia.
    rewrite <- !(substring_correct1 _ (n / c * c) c (n mod c)) by assumption.
    now rewrite Hsub.
  - rewrite !get_beyond by lia. reflexivity.
Qed.

(** X15.  The picture loses nothing but the case of the letters: two ASCII
    grids of the right length are drawn alike by [GridString] exactly when
    they are the same grid up to case. *)
Theorem GridString_lossless
    (U : Unicode) (g1 g2 : string) (cols rows : Z) :
  1 <= cols -> 1 <= rows ->
  is_ascii g1 = true -> is_ascii g2 = true ->
  go_string g1 -> len g1 = cols * rows -> len g2 = cols * rows ->
  (GridString g1 cols rows = GridString g2 cols rows <->
   ToUpper g1 = ToUpper g2).
Proof.
  intros Hcols Hrows Ha1 Ha2 Hmem Hlen1 Hlen2. unfold go_string in Hmem.
  rewrite (@GridString_renders U g1 cols rows) by assumption.
  rewrite (@GridString_renders U g2 cols rows) by (try assumption; lia).
  split; [|now intros ->].
  intros H. inversion H as [Hpic]. clear H. unfold rendering in Hpic.
  assert (Hu1 : is_ascii (ToUpper g1) = true)
    by (rewrite (ToUpper_ascii U _ Ha1); now apply is_ascii_map_upper).
  assert (Hu2 : is_ascii (ToUpper g2) = true)
    by (rewrite (ToUpper_ascii U _ Ha2); now apply is_ascii_map_upper).
  assert (Hl1 : String.length (ToUpper g1)
                = (Z.to_nat rows * Z.to_nat cols)%nat).
  { rewrite (ToUpper_ascii U _ Ha1), map_bytes_length.
    unfold len in Hlen1. nia. }
  assert (Hl2 : String.length (ToUpper g2)
                = (Z.to_nat rows * Z.to_nat cols)%nat).
  { rewrite (ToUpper_ascii U _ Ha2), map_bytes_length.
    unfold len in Hlen2. nia. }
  apply (@rows_determine_grid _ _ (Z.to_nat cols) (Z.to_nat rows));
    try assumption; [lia|].
  intros y Hy.
  apply (@rendering_rows_inj (ToUpper g1) (ToUpper g2) (Z.to_nat cols)
           (seq 0 (Z.to_nat rows)) Hu1 Hu2); [|exact Hpic|].
  - intros z Hz. apply in_seq in Hz. rewrite Hl1, Hl2. nia.
  - apply in_seq. lia.
Qed.

Lemma GridString_lossless_witness :
  GridString (U := ascii_only) "qAbC" 2 2
  = GridString (U := ascii_only) "QabC" 2 2 <->
  ToUpper (U := ascii_only) "qAbC" = ToUpper (U := ascii_only) "QabC".
Proof.
  apply (@GridString_lossless ascii_only "qAbC" "QabC" 2 2);
    try reflexivity; try lia.
  vm_compute. discriminate.
Defined.

(** X16.  Whatever [Solve] accepts, [Grid] can draw: for a solver whose
    board fits in memory, an ASCII grid on which [Solve] returns words is
    rendered by [Grid] without panic, as the picture of the upper-cased
    grid in the solver's dimensions. *)
Theorem Grid_draws_what_Solve_accepts
    (U : Unicode) (xlen ylen : Z) (src : wordSource) (s : Solver)
    (grid : string) (fuel : nat) (ws : list string) :
  New xlen ylen src = Done (Ok s) ->
  xlen * ylen <= max_alloc ->
  is_ascii grid = true ->
  Solve fuel s grid = Done (Ok ws) ->
  Grid s grid
  = Done (rendering (ToUpper grid) (Z.to_nat xlen) (Z.to_nat ylen)).
Proof.
  intros HNew Hfit Hascii Hsolve.
  assert (Halloc : max_alloc = 2 ^ 48) by reflexivity.
  destruct (New_built _ _ _ HNew) as (Hx & Hy & Hc & Hr & tree & Hrt & _).
  assert (Hsize : BoardSize s = xlen * ylen).
  { unfold BoardSize, GoInt.mul. rewrite Hc, Hr. apply wrap_small.
    unfold GoInt.in_range, GoInt.min_int, GoInt.max_int. nia. }
  assert (Hlen : len grid = xlen * ylen).
  { unfold Solve, SolveFrom in Hsolve. rewrite Hrt, Hsize in Hsolve.
    destruct (Z.eqb_spec (len grid) (xlen * ylen)) as [E|E]; [exact E|].
    cbn [negb] in Hsolve.
    destruct (len grid <? xlen * ylen); discriminate. }
  unfold Grid. rewrite Hc, Hr.
  apply GridString_renders; try assumption. lia.
Qed.

Lemma Grid_draws_what_Solve_accepts_witness :
  Grid (U := ascii_only)
       {| cols := 2; rows := 2;
          rt := Some {| radixtree.keys := ["abc"; "qab"] |} |} "qAbC"
  = Done (rendering (ToUpper (U := ascii_only) "qAbC")
                    (Z.to_nat 2) (Z.to_nat 2)).
Proof.
  apply (@Grid_draws_what_Solve_accepts
           ascii_only 2 2 (Lines ["abc"; "quab"] None) _ "qAbC" 100
           ["abc"; "quab"]).
  - reflexivity.
  - vm_compute. discriminate.
  - reflexivity.
  - vm_compute. reflexivity.
Defined.

(** ** The trie as a prefix structure *)

Lemma ascii_runes (U : Unicode) word :
  is_ascii word = true ->
  runes (ToLower word) = byte_runes (map_bytes lower_byte word).
Proof.
  intros H. rewrite (ToLower_ascii U _ H). unfold runes.
  now rewrite is_ascii_map_lower.
Qed.

Lemma byte_runes_range s : Forall Trie.rune_range (byte_runes s).
Proof.
  unfold byte_runes. apply Forall_forall. intros r Hr.
  apply in_map_iff in Hr. destruct Hr as (c & <- & _).
  pose proof (byte_val_bound c). unfold Trie.rune_range. lia.
Qed.

Lemma not_alphabetic_runes word :
  Trie.alphabetic word = false ->
  Exists (fun r => ~ Trie.lower_rune r) (byte_runes (map_bytes lower_byte word)).
Proof.
  induction word as [|c word IH]; cbn [Trie.alphabetic]; [discriminate|].
  intros H. unfold byte_runes. cbn [map_bytes list_ascii_of_string map].
  destruct (Trie.letter c) eqn:E.
  - apply Exists_cons_tl. now apply IH.
  - apply Exists_cons_hd. unfold Trie.letter in E. unfold Trie.lower_rune.
    apply andb_false_iff in E. destruct E as [E|E];
      [apply Z.leb_gt in E | apply Z.leb_gt in E]; lia.
Qed.

Lemma insertRunes_panics rs : forall t,
  Forall Trie.rune_range rs ->
  Exists (fun r => ~ Trie.lower_rune r) rs ->
  Trie.insertRunes t rs = Panic "index out of range".
Proof.
  induction rs as [|c rs IH]; intros t Hrange Hbad; [inversion Hbad|].
  inversion Hrange as [|? ? Hc Hrange']; subst.
  cbn [Trie.insertRunes].
  destruct (Z_le_dec 97 c) as [H1|H1]; [destruct (Z_le_dec c 122) as [H2|H2]|].
  - rewrite slot_Done
      by (apply childIndex_in_bounds; [assumption | unfold Trie.lower_rune; lia]).
    cbn [bind]. rewrite IH; [reflexivity | assumption |].
    inversion Hbad as [? ? Hhd|? ? Htl]; subst; [|assumption].
    exfalso. apply Hhd. unfold Trie.lower_rune. lia.
  - rewrite slot_Panic; [reflexivity|]. intros Hi.
    apply childIndex_in_bounds in Hi; [|assumption].
    unfold Trie.lower_rune in Hi. lia.
  - rewrite slot_Panic; [reflexivity|]. intros Hi.
    apply childIndex_in_bounds in Hi; [|assumption].
    unfold Trie.lower_rune in Hi. lia.
Qed.

(** X17.  On a word of ASCII bytes, [Insert] returns exactly when every
    byte is a letter: it then yields a well-formed trie; a word with a
    digit, a blank, a hyphen or any other byte that is not a letter makes
    [Insert] index the child array out of bounds, whatever the trie holds. *)
Theorem Insert_panics_unless_alphabetic
    (U : Unicode) (t : Trie.Trie) (word : string) :
  is_ascii word = true ->
  (Trie.alphabetic word = true -> Trie.wf t ->
   exists t', Trie.Insert t word = Done t' /\ Trie.wf t') /\
  (Trie.alphabetic word = false ->
   Trie.Insert t word = Panic "index out of range").
Proof.
  intros Hascii. unfold Trie.Insert. rewrite (ascii_runes U _ Hascii).
  split.
  - intros Hword Hwf. destruct (alphabetic_ascii _ Hword) as (_ & _ & Hlow).
    destruct (@insertRunes_spec _ t Hwf Hlow) as (t' & Hins & Hwf' & _).
    eauto.
  - intros Hword. apply insertRunes_panics.
    + apply byte_runes_range.
    + now apply not_alphabetic_runes.
Qed.

Lemma Insert_panics_unless_alphabetic_witness :
  (Trie.alphabetic "co-op" = true -> Trie.wf Trie.NewTrie ->
   exists t', Trie.Insert (U := ascii_only) Trie.NewTrie "co-op" = Done t' /\
              Trie.wf t') /\
  (Trie.alphabetic "co-op" = false ->
   Trie.Insert (U := ascii_only) Trie.NewTrie "co-op"
     = Panic "index out of range").
Proof.
  apply (@Insert_panics_unless_alphabetic ascii_only Trie.NewTrie "co-op").
  reflexivity.
Defined.

Lemma containsRunes_descend rs : forall t,
  Trie.containsRunes t rs
  = (r <- TrieWalk.descend t rs ;;
     Done (match r with Some n => Trie.IsWord n | None => false end)).
Proof.
  induction rs as [|c rs IH]; intros t;
    cbn [Trie.containsRunes TrieWalk.descend bind]; [reflexivity|].
  unfold Trie.Child.
  destruct (Trie.slot t (Trie.childIndex c)) as [[t'|]|msg|]; cbn [bind];
    try reflexivity.
  apply IH.
Qed.

Lemma lower_rune_index c :
  Trie.lower_rune c -> 0 <= Trie.childIndex c < 26.
Proof.
  intros H. apply childIndex_in_bounds; [|assumption].
  unfold Trie.rune_range, Trie.lower_rune in *. lia.
Qed.

Lemma descend_NewTrie p :
  Forall Trie.lower_rune p ->
  TrieWalk.descend Trie.NewTrie p
  = Done (match p with [] => Some Trie.NewTrie | _ => None end).
Proof.
  intros H. destruct H as [|c p Hc _]; cbn [TrieWalk.descend]; [reflexivity|].
  unfold Trie.Child. rewrite slot_Done by now apply lower_rune_index.
  cbn [bind Trie.NewTrie Trie.children].
  assert (Hn : nth (Z.to_nat (Trie.childIndex c))
                   (repeat (@None Trie.Trie) 26) None = None).
  { destruct (nth_in_or_default (Z.to_nat (Trie.childIndex c))
                (repeat (@None Trie.Trie) 26) None) as [Hin|E]; [|exact E].
    now apply repeat_spec in Hin. }
  now rewrite Hn.
Qed.

(** Inserting a word adds its initial segments, and nothing else, to the
    rune sequences along which the trie can be walked. *)
Lemma insertRunes_descend rs : forall t t',
  Trie.wf t -> Forall Trie.lower_rune rs ->
  Trie.insertRunes t rs = Done t' ->
  forall p r,
    Forall Trie.lower_rune p ->
    TrieWalk.descend t p = Done r ->
    exists r',
      TrieWalk.descend t' p = Done r' /\
      TrieWalk.is_node r' = TrieWalk.is_node r || TrieWalk.prefix_runes p rs.
Proof.
  induction rs as [|c rs IH]; intros t t' Hwf Hrs Hins p r Hp Hr;
    cbn [Trie.insertRunes] in Hins.
  - inversion Hins; subst t'. clear Hins.
    destruct p as [|c2 p].
    + cbn in Hr. inversion Hr; subst. eexists. split; reflexivity.
    + exists r. split; [|cbn; now rewrite orb_false_r].
      cbn [TrieWalk.descend] in *. unfold Trie.Child, Trie.slot in *.
      cbn [Trie.children]. exact Hr.
  - inversion Hrs as [|? ? Hc Hrs']; subst.
    pose proof (lower_rune_index Hc) as Hidx.
    rewrite slot_Done in Hins by assumption. cbn [bind] in Hins.
    set (i := Z.to_nat (Trie.childIndex c)) in *.
    set (next := match nth i (Trie.children t) None with
                 | Some n => n
                 | None => Trie.NewTrie
                 end) in *.
    assert (Hnext : Trie.wf next).
    { subst next. pose proof (wf_child i Hwf) as H.
      destruct (nth i (Trie.children t) None); [exact H | apply wf_NewTrie]. }
    destruct (Trie.insertRunes next rs) as [next'|msg|] eqn:Hins';
      cbn [bind] in Hins; try discriminate.
    inversion Hins; subst t'. clear Hins.
    destruct p as [|c2 p].
    + cbn in Hr. inversion Hr; subst. eexists. split; reflexivity.
    + inversion Hp as [|? ? Hc2 Hp']; subst.
      pose proof (lower_rune_index Hc2) as Hidx2.
      cbn [TrieWalk.descend] in *. unfold Trie.Child in *.
      rewrite slot_Done in * by assumption. cbn [bind Trie.children] in *.
      destruct Hwf as [w cs Hlen Hch]. cbn [Trie.children Trie.isWord] in *.
      assert (Hi : (i < List.length cs)%nat) by (subst i; lia).
      cbn [TrieWalk.prefix_runes].
      destruct (Z.eqb_spec c2 c) as [->|Hne]; cbn [andb].
      * fold i in Hr |- *. rewrite update_nth_same by assumption.
        subst next. destruct (nth i cs None) as [n|].
        -- exact (IH n next' Hnext Hrs' Hins' p r Hp' Hr).
        -- inversion Hr; subst r. cbn [TrieWalk.is_node orb].
           destruct (IH Trie.NewTrie next' Hnext Hrs' Hins' p _ Hp'
                       (descend_NewTrie Hp')) as (r' & Hr' & Hnode).
           exists r'. split; [exact Hr'|]. rewrite Hnode.
           destruct p; reflexivity.
      * rewrite update_nth_other.
        -- exists r. split; [exact Hr | now rewrite orb_false_r].
        -- subst i. unfold Trie.lower_rune in *.
           rewrite !childIndex_small by lia. lia.
Qed.

Lemma descend_Done p : forall t,
  Forall Trie.lower_rune p -> exists r, TrieWalk.descend t p = Done r.
Proof.
  induction p as [|c p IH]; intros t Hp; cbn [TrieWalk.descend]; [eauto|].
  inversion Hp as [|? ? Hc Hp']; subst. unfold Trie.Child.
  rewrite slot_Done by now apply lower_rune_index. cbn [bind].
  destruct (nth (Z.to_nat (Trie.childIndex c)) (Trie.children t) None);
    [now apply IH | eauto].
Qed.

Lemma InsertAll_descend (U : Unicode) words : forall t t',
  Trie.wf t -> Forall (fun w => Trie.alphabetic w = true) words ->
  Trie.InsertAll t words = Done t' ->
  forall p r,
    Forall Trie.lower_rune p ->
    TrieWalk.descend t p = Done r ->
    exists r',
      TrieWalk.descend t' p = Done r' /\
      TrieWalk.is_node r'
      = TrieWalk.is_node r
        || existsb (fun w => TrieWalk.prefix_runes p (runes (ToLower w))) words.
Proof.
  induction words as [|word words IH]; intros t t' Hwf Hall Hins p r Hp Hr;
    cbn [Trie.InsertAll] in Hins.
  - inversion Hins; subst t'. exists r. split; [exact Hr|].
    cbn [existsb]. now rewrite orb_false_r.
  - inversion Hall as [|? ? Hw Hall']; subst.
    destruct (alphabetic_runes U _ Hw) as [Hrunes _].
    destruct (alphabetic_ascii _ Hw) as (_ & _ & Hlow).
    rewrite <- Hrunes in Hlow.
    destruct (@insertRunes_spec (runes (ToLower word)) t Hwf Hlow)
      as (t1 & Hins1 & Hwf1 & _).
    unfold Trie.Insert in Hins. rewrite Hins1 in Hins. cbn [bind] in Hins.
    destruct (@insertRunes_descend _ t t1 Hwf Hlow Hins1 p r Hp Hr)
      as (r1 & Hr1 & Hnode1).
    destruct (IH t1 t' Hwf1 Hall' Hins p r1 Hp Hr1) as (r' & Hr' & Hnode').
    exists r'. split; [exact Hr'|]. cbn [existsb].
    now rewrite Hnode', Hnode1, orb_assoc.
Qed.

(** X18.  The trie answers prefix queries.  After the words of a list of
    alphabetic words have been inserted into a new trie, walking down from
    the root with [Child] along lower-case letters reaches a node exactly
    when the letters begin the lower-case form of an inserted word; that
    node is marked by [IsWord] exactly when the letters are the whole of
    such a word; and [ContainsLetter] at the root tells whether some
    inserted word begins with the letter. *)
Theorem Trie_walk_follows_prefixes
    (U : Unicode) (words : list string) (c : Z) (p : list Z) :
  Forall (fun w => Trie.alphabetic w = true) words ->
  Forall Trie.lower_rune (c :: p) ->
  exists t r,
    Trie.InsertAll Trie.NewTrie words = Done t /\
    TrieWalk.descend t (c :: p) = Done r /\
    TrieWalk.is_node r
    = existsb (fun w => TrieWalk.prefix_runes (c :: p) (runes (ToLower w)))
              words /\
    (forall node, r = Some node ->
                  Trie.IsWord node
                  = existsb (fun w => Trie.same_runes (c :: p)
                                                      (runes (ToLower w)))
                            words) /\
    Trie.ContainsLetter t c
    = Done (existsb (fun w => TrieWalk.prefix_runes [c] (runes (ToLower w)))
                    words).
Proof.
  intros Hwords Hp.
  destruct (@InsertAll_spec U words Trie.NewTrie wf_NewTrie Hwords)
    as (t & Hins & Hwf & Hcont).
  assert (Hwalk : forall q, Forall Trie.lower_rune q -> q <> [] ->
            exists r, TrieWalk.descend t q = Done r /\
                      TrieWalk.is_node r
                      = existsb (fun w => TrieWalk.prefix_runes
                                            q (runes (ToLower w))) words).
  { intros q Hq Hne.
    destruct (@InsertAll_descend U words Trie.NewTrie t wf_NewTrie Hwords Hins
                q _ Hq (descend_NewTrie Hq)) as (r & Hr & Hnode).
    exists r. split; [exact Hr|]. rewrite Hnode.
    destruct q; [congruence | reflexivity]. }
  destruct (Hwalk (c :: p) Hp ltac:(discriminate)) as (r & Hr & Hnode).
  exists t, r. split; [exact Hins|]. split; [exact Hr|].
  split; [exact Hnode|]. split.
  - intros node ->.
    pose proof (Hcont (c :: p) false Hp (containsRunes_NewTrie Hp)) as Hc.
    rewrite containsRunes_descend, Hr in Hc. cbn [bind orb] in Hc.
    now inversion Hc.
  - inversion Hp as [|? ? Hc _]; subst.
    destruct (Hwalk [c] ltac:(now constructor) ltac:(discriminate))
      as (r1 & Hr1 & Hnode1).
    unfold Trie.ContainsLetter. cbn [TrieWalk.descend] in Hr1.
    destruct (Trie.Child t c) as [[child|]|msg|]; cbn [bind] in *;
      try discriminate.
    + inversion Hr1; subst r1. now rewrite <- Hnode1.
    + inversion Hr1; subst r1. now rewrite <- Hnode1.
Qed.

Lemma Trie_walk_follows_prefixes_witness :
  exists t r,
    Trie.InsertAll (U := ascii_only) Trie.NewTrie ["Hello"; "help"] = Done t /\
    TrieWalk.descend t [104; 101; 108] = Done r /\
    TrieWalk.is_node r
    = existsb (fun w => TrieWalk.prefix_runes
                          [104; 101; 108]
                          (runes (U := ascii_only) (ToLower (U := ascii_only) w)))
              ["Hello"; "help"] /\
    (forall node, r = Some node ->
                  Trie.IsWord node
                  = existsb (fun w => Trie.same_runes
                                        [104; 101; 108]
                                        (runes (U := ascii_only)
                                               (ToLower (U := ascii_only) w)))
                            ["Hello"; "help"]) /\
    Trie.ContainsLetter t 104
    = Done (existsb (fun w => TrieWalk.prefix_runes
                                [104]
                                (runes (U := ascii_only)
                                       (ToLower (U := ascii_only) w)))
                    ["Hello"; "help"]).
Proof.
  apply (@Trie_walk_follows_prefixes ascii_only ["Hello"; "help"] 104 [101; 108]).
  - repeat constructor.
  - repeat constructor; unfold Trie.lower_rune; lia.
Defined.

(** The cases checked by the package's own tests (TestInsert, TestPath). *)
Example Trie_test_vectors :
  exists root,
    Trie.InsertAll (U := ascii_only) Trie.NewTrie ["hello"; "world"; "worldwide"]
      = Done root /\
    Trie.ContainsWord (U := ascii_only) root "hello" = Done true /\
    Trie.ContainsWord (U := ascii_only) root "world" = Done true /\
    Trie.ContainsWord (U := ascii_only) root "worldwide" = Done true /\
    Trie.ContainsWord (U := ascii_only) root "foo" = Done false.
Proof. eexists. repeat split; reflexivity. Qed.

Example Trie_path_test_vectors :
  exists root h i,
    Trie.Insert (U := ascii_only) Trie.NewTrie "hi" = Done root /\
    Trie.ContainsLetter root 97 = Done false /\
    Trie.ContainsLetter root 104 = Done true /\
    Trie.Child root 97 = Done None /\
    Trie.Child root 104 = Done (Some h) /\ Trie.IsWord h = false /\
    Trie.Child h 105 = Done (Some i) /\ Trie.IsWord i = true.
Proof. do 3 eexists. repeat split; reflexivity. Qed.

(** ** The command line *)

Lemma string_of_list_length l :
  String.length (string_of_list_ascii l) = List.length l.
Proof. induction l as [|c l IH]; cbn; [reflexivity | now rewrite IH]. Qed.

Lemma lowercase_letters_forallb s :
  Cmd.lowercase_letters s
  = forallb (fun c => (97 <=? byte_val c) && (byte_val c <=? 122))
            (list_ascii_of_string s).
Proof. induction s as [|c s IH]; cbn; [reflexivity | now rewrite IH]. Qed.

Lemma lowercase_letters_ascii s :
  Cmd.lowercase_letters s = true -> is_ascii s = true.
Proof.
  induction s as [|c s IH]; cbn [Cmd.lowercase_letters is_ascii];
    [reflexivity|].
  rewrite !andb_true_iff. intros ((H1 & H2) & Hs). split; [|now apply IH].
  apply Z.leb_le in H2. unfold is_ascii_byte. apply Z.ltb_lt. lia.
Qed.

Lemma lowercase_letters_append a b :
  Cmd.lowercase_letters (a ++ b)
  = Cmd.lowercase_letters a && Cmd.lowercase_letters b.
Proof.
  induction a as [|c a IH]; cbn [String.append Cmd.lowercase_letters];
    [reflexivity|].
  now rewrite IH, andb_assoc.
Qed.

Lemma lowercase_letters_substring s : forall k m,
  Cmd.lowercase_letters s = true ->
  Cmd.lowercase_letters (String.substring k m s) = true.
Proof.
  induction s as [|c s IH]; intros k m H.
  - destruct k, m; reflexivity.
  - cbn [Cmd.lowercase_letters] in H. apply andb_true_iff in H.
    destruct H as (Hc & Hs).
    destruct k as [|k]; cbn [String.substring].
    + destruct m as [|m]; [reflexivity|]. cbn [Cmd.lowercase_letters].
      now rewrite Hc, IH.
    + now apply IH.
Qed.

Lemma randomByte_letter n :
  0 <= n < 25 -> 97 <= byte_val (Cmd.randomByte n) <= 121.
Proof.
  intros Hn. unfold Cmd.randomByte, GoInt.add.
  rewrite wrap_small
    by (unfold GoInt.in_range, GoInt.min_int, GoInt.max_int; lia).
  rewrite Z.mod_small by lia.
  rewrite byte_val_ascii_of_N by lia. lia.
Qed.

(** The grid drawn for a size that [make] accepts. *)
Lemma randomGrid_drawn draws size :
  (forall i, 0 <= draws i < 25) -> 0 <= size <= max_alloc ->
  exists grid,
    Cmd.randomGrid draws size = Done grid /\
    len grid = size /\
    Forall (fun c => 97 <= byte_val c <= 121) (list_ascii_of_string grid).
Proof.
  intros Hdraws Hsize. unfold Cmd.randomGrid.
  destruct (Z.ltb_spec size 0); [lia|].
  destruct (Z.ltb_spec max_alloc size); [lia|]. cbn [orb].
  eexists. split; [reflexivity|]. split.
  - unfold len. rewrite string_of_list_length, length_map, length_seq. lia.
  - rewrite list_ascii_of_string_of_list_ascii. apply Forall_forall.
    intros c Hc. apply in_map_iff in Hc. destruct Hc as (i & <- & _).
    apply randomByte_letter, Hdraws.
Qed.

Lemma letters_to_y s :
  Forall (fun c => 97 <= byte_val c <= 121) (list_ascii_of_string s) ->
  Cmd.lowercase_letters s = true.
Proof.
  intros H. rewrite lowercase_letters_forallb. apply forallb_forall.
  intros c Hc. rewrite Forall_forall in H. specialize (H c Hc).
  apply andb_true_iff. split; apply Z.leb_le; lia.
Qed.

(** X19.  [randomGrid] panics when [make] refuses the size: a negative
    size, or one above what the allocator can hand out.  For every other
    size, whatever the generator draws, it returns a grid of exactly [size]
    bytes, each one of the letters 'a' to 'y': the letter 'z' never occurs
    in a random grid, since [rnd.Intn(25)] is below 25. *)
Theorem randomGrid_never_draws_z (draws : nat -> Z) (size : Z) :
  (forall i, 0 <= draws i < 25) ->
  (size < 0 \/ max_alloc < size ->
   Cmd.randomGrid draws size = Panic "makeslice: len out of range") /\
  (0 <= size <= max_alloc ->
   exists grid,
     Cmd.randomGrid draws size = Done grid /\
     len grid = size /\
     Cmd.lowercase_letters grid = true /\
     forall i, byte_at grid i <> Some "z"%char).
Proof.
  intros Hdraws. split.
  - intros Hbad. unfold Cmd.randomGrid.
    destruct (Z.ltb_spec size 0); [reflexivity|].
    destruct (Z.ltb_spec max_alloc size); [reflexivity | lia].
  - intros Hsize.
    destruct (@randomGrid_drawn draws size Hdraws Hsize)
      as (grid & Hrun & Hlen & Hall).
    exists grid. split; [exact Hrun|]. split; [exact Hlen|].
    split; [now apply letters_to_y|].
    intros i Hi. unfold byte_at in Hi.
    destruct (i <? 0); [discriminate|].
    rewrite get_nth_error in Hi. apply nth_error_In in Hi.
    rewrite Forall_forall in Hall. specialize (Hall _ Hi).
    change (byte_val "z") with 122 in Hall. lia.
Qed.

Lemma randomGrid_never_draws_z_witness :
  (5 < 0 \/ max_alloc < 5 ->
   Cmd.randomGrid (fun i => Z.of_nat i mod 25) 5
   = Panic "makeslice: len out of range") /\
  (0 <= 5 <= max_alloc ->
   exists grid,
     Cmd.randomGrid (fun i => Z.of_nat i mod 25) 5 = Done grid /\
     len grid = 5 /\
     Cmd.lowercase_letters grid = true /\
     forall i, byte_at grid i <> Some "z"%char).
Proof.
  apply (@randomGrid_never_draws_z (fun i => Z.of_nat i mod 25) 5).
  intros i. apply Z.mod_pos_bound. lia.
Defined.

Lemma validLine_letters (U : Unicode) input :
  is_ascii input = true ->
  Cmd.validLine input = Cmd.lowercase_letters input.
Proof.
  intros Hascii. unfold Cmd.validLine, runes. rewrite Hascii.
  rewrite lowercase_letters_forallb. unfold byte_runes.
  induction (list_ascii_of_string input) as [|c l IH]; cbn [map forallb];
    [reflexivity|].
  rewrite IH. f_equal.
  destruct (Z.ltb_spec (byte_val c) 97); destruct (Z.ltb_spec 122 (byte_val c));
    destruct (Z.leb_spec 97 (byte_val c));
    destruct (Z.leb_spec (byte_val c) 122); cbn; try reflexivity; lia.
Qed.

(** The loop of [readGridFromUser], started with letters already typed. *)
Lemma readLoop_grid (U : Unicode) draws boardSize inputs : forall grid,
  1 <= boardSize <= max_alloc -> (forall i, 0 <= draws i < 25) ->
  Forall (fun line => is_ascii line = true) inputs ->
  Cmd.lowercase_letters grid = true -> len grid < boardSize ->
  exists r,
    Cmd.readLoop draws inputs boardSize grid = Done r /\
    match r with
    | Err msg => msg = "error reading input"
    | Ok g => g = "" \/ (len g = boardSize /\ Cmd.lowercase_letters g = true)
    end.
Proof.
  induction inputs as [|input inputs IH];
    intros grid Hsize Hdraws Hlines Hgrid Hshort; cbn [Cmd.readLoop].
  - eexists. split; reflexivity.
  - inversion Hlines as [|? ? Hline Hlines']; subst.
    destruct (Z.eqb_spec (len input) 0).
    { eexists. split; [reflexivity|]. now left. }
    destruct ((len input =? 1) && String.prefix "*" input).
    { destruct (@randomGrid_drawn draws boardSize Hdraws ltac:(lia))
        as (g & Hrun & Hlen & Hall).
      rewrite Hrun. cbn [bind]. eexists. split; [reflexivity|].
      right. split; [exact Hlen | now apply letters_to_y]. }
    assert (Hlow : is_ascii (ToLower input) = true).
    { rewrite (ToLower_ascii U _ Hline). now apply is_ascii_map_lower. }
    rewrite (validLine_letters U _ Hlow).
    set (grid' := if Cmd.lowercase_letters (ToLower input)
                  then (grid ++ ToLower input)%string else grid).
    assert (Hgrid' : Cmd.lowercase_letters grid' = true).
    { unfold grid'. destruct (Cmd.lowercase_letters (ToLower input)) eqn:E;
        [|exact Hgrid].
      now rewrite lowercase_letters_append, Hgrid, E. }
    destruct (Z.leb_spec boardSize (len grid')) as [Hfull|Hmore].
    + unfold Cmd.truncateGrid.
      destruct (Z.ltb_spec boardSize (len grid')) as [Hlong|Hexact].
      * destruct (Z.ltb_spec boardSize 0); [lia|]. cbn [bind].
        eexists. split; [reflexivity|]. right. split.
        -- unfold len. rewrite substring_length; [lia|].
           unfold len in Hlong. lia.
        -- now apply lowercase_letters_substring.
      * cbn [bind]. eexists. split; [reflexivity|]. right.
        split; [lia | exact Hgrid'].
    + now apply IH.
Qed.

Lemma line_empty input : (len input =? 0) = true <-> input = "".
Proof.
  destruct input as [|c rest]; [split; reflexivity|].
  rewrite len_String. pose proof (len_nonneg rest) as Hrest.
  split; [|discriminate]. intros H. apply Z.eqb_eq in H. lia.
Qed.

Lemma line_star input :
  ((len input =? 1) && String.prefix "*" input) = true <-> input = "*".
Proof.
  destruct input as [|c [|d rest]].
  - split; discriminate.
  - change (len (String c "") =? 1) with true.
    cbn [andb String.prefix].
    destruct (ascii_dec "*" c) as [<-|Hne]; split; try reflexivity.
    + discriminate.
    + intros H. exfalso. apply Hne. now inversion H.
  - rewrite !len_String. pose proof (len_nonneg rest).
    destruct (Z.eqb_spec (1 + (1 + len rest)) 1); [lia|].
    split; discriminate.
Qed.

Lemma typed_cons (U : Unicode) input inputs :
  Cmd.typed (input :: inputs)
  = ((if Cmd.validLine (ToLower input) then ToLower input else "")
     ++ Cmd.typed inputs)%string.
Proof. unfold Cmd.typed. cbn [map]. apply concat_empty_cons. Qed.

Lemma typed_single (U : Unicode) input :
  Cmd.typed [input]
  = if Cmd.validLine (ToLower input) then ToLower input else "".
Proof. reflexivity. Qed.

Lemma typed_split (U : Unicode) input inputs :
  Cmd.typed (input :: inputs)
  = (Cmd.typed [input] ++ Cmd.typed inputs)%string.
Proof. now rewrite typed_cons, typed_single. Qed.

Lemma len_append a b : len (a ++ b) = len a + len b.
Proof. unfold len. rewrite string_length_append. lia. Qed.

Lemma substring_prefix_app a : forall n b,
  (n <= String.length a)%nat ->
  String.substring 0 n (a ++ b) = String.substring 0 n a.
Proof.
  induction a as [|c a IH]; intros [|n] b H; cbn in *; try reflexivity;
    try lia.
  - destruct b; reflexivity.
  - f_equal. apply IH. lia.
Qed.

Lemma substring_full a : String.substring 0 (String.length a) a = a.
Proof. induction a as [|c a IH]; cbn; [reflexivity | now rewrite IH]. Qed.

(** One turn of the loop on a line that is neither empty nor a lone star. *)
Lemma readLoop_line (U : Unicode) draws boardSize input rest grid :
  input <> "" -> input <> "*" ->
  Cmd.readLoop draws (input :: rest) boardSize grid
  = if boardSize <=? len (grid ++ Cmd.typed [input])
    then g <- Cmd.truncateGrid (grid ++ Cmd.typed [input]) boardSize ;;
         Done (Ok g)
    else Cmd.readLoop draws rest boardSize (grid ++ Cmd.typed [input]).
Proof.
  intros Hne Hstar. cbn [Cmd.readLoop].
  destruct (len input =? 0) eqn:E0; [apply line_empty in E0; congruence|].
  destruct ((len input =? 1) && String.prefix "*" input) eqn:E1;
    [apply line_star in E1; congruence|].
  rewrite typed_single.
  destruct (Cmd.validLine (ToLower input));
    [reflexivity | now rewrite string_append_nil_r].
Qed.

(** Lines that leave the grid incomplete are read through. *)
Lemma readLoop_short (U : Unicode) draws boardSize rest pre : forall grid,
  Forall (fun line => line <> "" /\ line <> "*") pre ->
  len grid + len (Cmd.typed pre) < boardSize ->
  Cmd.readLoop draws (pre ++ rest) boardSize grid
  = Cmd.readLoop draws rest boardSize (grid ++ Cmd.typed pre).
Proof.
  induction pre as [|input pre IH]; intros grid Hpre Hshort.
  - unfold Cmd.typed. cbn. now rewrite string_append_nil_r.
  - inversion Hpre as [|? ? (Hne & Hstar) Hpre']; subst.
    change ((input :: pre) ++ rest) with (input :: (pre ++ rest)).
    rewrite readLoop_line by assumption.
    pose proof (typed_split U input pre) as Hsplit.
    rewrite Hsplit, len_append in Hshort.
    pose proof (len_nonneg (Cmd.typed pre)).
    destruct (Z.leb_spec boardSize (len (grid ++ Cmd.typed [input])))
      as [Hfull|Hmore]; [rewrite len_append in Hfull; lia|].
    rewrite IH; [|assumption | rewrite len_append; lia].
    now rewrite Hsplit, string_append_assoc.
Qed.

(** Once the lines hold enough letters the grid is their first
    [boardSize] letters, whatever follows. *)
Lemma readLoop_full (U : Unicode) draws boardSize post pre : forall grid,
  0 <= boardSize ->
  Forall (fun line => line <> "" /\ line <> "*") pre ->
  len grid < boardSize ->
  boardSize <= len grid + len (Cmd.typed pre) ->
  Cmd.readLoop draws (pre ++ post) boardSize grid
  = Done (Ok (String.substring 0 (Z.to_nat boardSize)
                               (grid ++ Cmd.typed pre))).
Proof.
  induction pre as [|input pre IH]; intros grid Hsize Hpre Hshort Hfull.
  - unfold Cmd.typed in Hfull. cbn in Hfull. change (len "") with 0 in Hfull.
    lia.
  - inversion Hpre as [|? ? (Hne & Hstar) Hpre']; subst.
    change ((input :: pre) ++ post) with (input :: (pre ++ post)).
    rewrite readLoop_line by assumption.
    pose proof (typed_split U input pre) as Hsplit.
    rewrite Hsplit, <- string_append_assoc.
    set (grid' := (grid ++ Cmd.typed [input])%string) in *.
    destruct (Z.leb_spec boardSize (len grid')) as [Hnow|Hlater].
    + unfold Cmd.truncateGrid.
      rewrite substring_prefix_app by (unfold len in Hnow; lia).
      destruct (Z.ltb_spec boardSize (len grid')) as [Hlong|Hexact].
      * destruct (Z.ltb_spec boardSize 0); [lia | reflexivity].
      * cbn [bind]. do 2 f_equal.
        replace (Z.to_nat boardSize) with (String.length grid')
          by (unfold len in *; lia).
        symmetry. apply substring_full.
    + apply IH; try assumption.
      rewrite Hsplit, len_append in Hfull. unfold grid'.
      rewrite len_append. lia.
Qed.

(** X20.  [readGridFromUser], asked for a board of at least one cell that
    fits in memory and fed ASCII lines, never panics, and what it returns
    is settled by the lines read before the first empty line or lone star.
    As soon as these lines hold [boardSize] letters (lines with any other
    character are dropped whole, upper-case letters are folded) it returns
    the first [boardSize] of them, whatever follows.  While they hold
    fewer: the end of the input gives "error reading input", and this is
    the only way to that error; an empty line gives the empty grid,
    dropping what was typed; a lone star gives a random grid.  A grid that
    is returned is thus empty or has exactly [boardSize] bytes, all
    lower-case letters. *)
Theorem readGridFromUser_returns_a_full_grid
    (U : Unicode) (draws : nat -> Z) (pre post : list string)
    (boardSize : Z) :
  1 <= boardSize <= max_alloc -> (forall i, 0 <= draws i < 25) ->
  Forall (fun line => is_ascii line = true) (pre ++ post) ->
  Forall (fun line => line <> "" /\ line <> "*") pre ->
  (exists r,
     Cmd.readGridFromUser draws (pre ++ post) boardSize = Done r /\
     match r with
     | Err msg => msg = "error reading input"
     | Ok grid =>
         grid = "" \/
         (len grid = boardSize /\ Cmd.lowercase_letters grid = true)
     end) /\
  (boardSize <= len (Cmd.typed pre) ->
   Cmd.readGridFromUser draws (pre ++ post) boardSize
   = Done (Ok (String.substring 0 (Z.to_nat boardSize) (Cmd.typed pre)))) /\
  (len (Cmd.typed pre) < boardSize ->
   Cmd.readGridFromUser draws (pre ++ "" :: post) boardSize = Done (Ok "") /\
   exists g,
     Cmd.randomGrid draws boardSize = Done g /\
     Cmd.readGridFromUser draws (pre ++ "*" :: post) boardSize
     = Done (Ok g)) /\
  (Cmd.readGridFromUser draws pre boardSize = Done (Err "error reading input")
   <-> len (Cmd.typed pre) < boardSize).
Proof.
  intros Hsize Hdraws Hlines Hpre. unfold Cmd.readGridFromUser.
  assert (Hzero : len "" = 0) by reflexivity.
  split; [|split; [|split]].
  - apply readLoop_grid; try assumption; [reflexivity | lia].
  - intros Hfull.
    rewrite (@readLoop_full U draws boardSize post pre "");
      [reflexivity | lia | assumption | lia | lia].
  - intros Hshort. split.
    + rewrite (@readLoop_short U draws boardSize ("" :: post) pre "")
        by (try assumption; lia).
      reflexivity.
    + destruct (@randomGrid_drawn draws boardSize Hdraws ltac:(lia))
        as (g & Hrun & _).
      exists g. split; [exact Hrun|].
      rewrite (@readLoop_short U draws boardSize ("*" :: post) pre "")
        by (try assumption; lia).
      cbn [Cmd.readLoop]. change (len "*" =? 0) with false.
      change ((len "*" =? 1) && String.prefix "*" "*") with true.
      cbn iota. now rewrite Hrun.
  - split.
    + intros Herr.
      destruct (Z.lt_ge_cases (len (Cmd.typed pre)) boardSize) as [H|H];
        [exact H|].
      rewrite <- (app_nil_r pre) in Herr at 1.
      rewrite (@readLoop_full U draws boardSize [] pre "") in Herr;
        [discriminate | lia | assumption | lia | lia].
    + intros Hshort. rewrite <- (app_nil_r pre) at 1.
      rewrite (@readLoop_short U draws boardSize [] pre "")
        by (try assumption; lia).
      reflexivity.
Qed.

Lemma readGridFromUser_returns_a_full_grid_witness :
  (exists r,
     Cmd.readGridFromUser (U := ascii_only) (fun _ => 0)
                          (["Ab"; "c3"; "cDe"] ++ ["zz"]) 4 = Done r /\
     match r with
     | Err msg => msg = "error reading input"
     | Ok grid =>
         grid = "" \/ (len grid = 4 /\ Cmd.lowercase_letters grid = true)
     end) /\
  (4 <= len (Cmd.typed (U := ascii_only) ["Ab"; "c3"; "cDe"]) ->
   Cmd.readGridFromUser (U := ascii_only) (fun _ => 0)
                        (["Ab"; "c3"; "cDe"] ++ ["zz"]) 4
   = Done (Ok (String.substring
                 0 (Z.to_nat 4)
                 (Cmd.typed (U := ascii_only) ["Ab"; "c3"; "cDe"])))) /\
  (len (Cmd.typed (U := ascii_only) ["Ab"; "c3"; "cDe"]) < 4 ->
   Cmd.readGridFromUser (U := ascii_only) (fun _ => 0)
                        (["Ab"; "c3"; "cDe"] ++ "" :: ["zz"]) 4
   = Done (Ok "") /\
   exists g,
     Cmd.randomGrid (fun _ => 0) 4 = Done g /\
     Cmd.readGridFromUser (U := ascii_only) (fun _ => 0)
                          (["Ab"; "c3"; "cDe"] ++ "*" :: ["zz"]) 4
     = Done (Ok g)) /\
  (Cmd.readGridFromUser (U := ascii_only) (fun _ => 0) ["Ab"; "c3"; "cDe"] 4
   = Done (Err "error reading input")
   <-> len (Cmd.typed (U := ascii_only) ["Ab"; "c3"; "cDe"]) < 4).
Proof.
  apply (@readGridFromUser_returns_a_full_grid
           ascii_only (fun _ => 0) ["Ab"; "c3"; "cDe"] ["zz"] 4).
  - split; [lia|]. vm_compute. discriminate.
  - intros _. lia.
  - repeat constructor.
  - repeat constructor; discriminate.
Defined.

(** X21.  What the command line hands to the solver is searched: for a
    solver whose board fits in memory, a grid that [readGridFromUser]
    returns for the solver's board size is empty (and the program stops
    asking) or is accepted by [Solve], which returns its words without a
    length error and without panicking. *)
Theorem typed_grid_is_searched
    (U : Unicode) (xlen ylen : Z) (src : wordSource) (s : Solver)
    (draws : nat -> Z) (inputs : list string) (grid : string) :
  New xlen ylen src = Done (Ok s) ->
  xlen * ylen <= max_alloc ->
  (forall i, 0 <= draws i < 25) ->
  Forall (fun line => is_ascii line = true) inputs ->
  Cmd.readGridFromUser draws inputs (BoardSize s) = Done (Ok grid) ->
  grid = "" \/
  exists ws fuel0,
    forall fuel, (fuel0 <= fuel)%nat -> Solve fuel s grid = Done (Ok ws).
Proof.
  intros HNew Hfit Hdraws Hlines Hread.
  assert (Halloc : max_alloc = 2 ^ 48) by reflexivity.
  assert (Hmax : GoInt.max_int = 2 ^ 63 - 1) by reflexivity.
  destruct (New_built _ _ _ HNew) as (Hx & Hy & _ & _ & tree0 & _ & Hload).
  apply loadWords_keys in Hload. destruct Hload as (words & Hsrc & _).
  subst src.
  destruct (built_dictionary _ _ _ HNew) as
    (Hcols & Hrows & Hc & Hr & tree & Hrt & Hlong & _); [lia|].
  assert (Hsize : BoardSize s = cols s * rows s).
  { unfold BoardSize, GoInt.mul. apply wrap_small.
    unfold GoInt.in_range, GoInt.min_int. nia. }
  unfold Cmd.readGridFromUser in Hread.
  destruct (@readLoop_grid U draws (BoardSize s) inputs "")
    as (r & Hrun & Hr'); try assumption;
    [nia | reflexivity | change (len "") with 0; nia |].
  rewrite Hread in Hrun. inversion Hrun; subst r. clear Hrun.
  destruct Hr' as [->|(Hlen & Hletters)]; [now left|]. right.
  destruct (@Solve_finds_keys U s tree grid Hrt Hcols Hrows Hlong
              (lowercase_letters_ascii _ Hletters))
    as (ws & Hrun & _); [lia | nia|].
  exists ws, (Nat.pow 9 (String.length grid - 1)). exact Hrun.
Qed.

Lemma typed_grid_is_searched_witness :
  "abcd" = "" \/
  exists ws fuel0,
    forall fuel, (fuel0 <= fuel)%nat ->
      Solve (U := ascii_only) fuel
            {| cols := 2; rows := 2;
               rt := Some {| radixtree.keys := ["abc"] |} |} "abcd"
        = Done (Ok ws).
Proof.
  apply (@typed_grid_is_searched
           ascii_only 2 2 (Lines ["abc"] None) _ (fun _ => 0)
           ["Ab"; "c3"; "cDe"] "abcd").
  - reflexivity.
  - vm_compute. discriminate.
  - intros _. lia.
  - repeat constructor.
  - reflexivity.
Defined.

(** ** The letter q *)

Lemma read_cons board c path key :
  DocSpec.read board (c :: path) = Some key <->
  exists b w,
    byte_at board c = Some b /\ DocSpec.read board path = Some w /\
    key = (DocSpec.cell_letters b ++ w)%string.
Proof.
  cbn [DocSpec.read].
  destruct (byte_at board c) as [b|]; destruct (DocSpec.read board path) as [w|];
    split; try discriminate.
  - intros H. inversion H. eauto.
  - intros (b' & w' & Hb & Hw & ->). inversion Hb. inversion Hw. reflexivity.
  - intros (b' & w' & _ & Hw & _). discriminate.
  - intros (b' & w' & Hb & _). discriminate.
  - intros (b' & w' & Hb & _). discriminate.
Qed.

(** Letters other than 'q' are read as they are matched. *)
Lemma spell_read_no_q board path : forall t,
  DocSpec.has_q t = false ->
  (PathSpec.spell board path = Some t <-> DocSpec.read board path = Some t).
Proof.
  induction path as [|c path IH]; intros t Ht; [reflexivity|].
  rewrite spell_cons, read_cons. split.
  - intros (b & w & Hb & Hw & ->). cbn [DocSpec.has_q] in Ht.
    apply orb_false_iff in Ht. destruct Ht as (Hq & Hrest).
    exists b, w. split; [exact Hb|]. split; [now apply IH|].
    unfold DocSpec.cell_letters. now rewrite Hq.
  - intros (b & w & Hb & Hw & ->). unfold DocSpec.cell_letters in *.
    destruct (b =? "q")%char eqn:Hq; [discriminate Ht|].
    cbn [String.append DocSpec.has_q] in Ht. rewrite Hq in Ht.
    cbn [orb] in Ht. exists b, w. split; [exact Hb|].
    split; [now apply IH | reflexivity].
Qed.

Lemma collapse_not_q c rest :
  (c =? "q")%char = false ->
  BuildSpec.collapse (String c rest) = String c rest.
Proof.
  intros Hq. destruct (Ascii.eqb_spec c "q") as [|Hne]; [discriminate|].
  destruct c as [[] [] [] [] [] [] [] []]; try reflexivity. now elim Hne.
Qed.

(** For a word without a 'q' after its first letter, a path spells the
    stored key byte for byte exactly when it reads the word with every 'q'
    cell counting for "qu". *)
Lemma spell_as_documented board path w :
  BuildSpec.q_then_u w = true -> DocSpec.q_only_first w = true ->
  (PathSpec.spell board path = Some (BuildSpec.collapse w) <->
   DocSpec.read board path = Some w).
Proof.
  intros Hu Hfirst. destruct w as [|c rest].
  - now apply spell_read_no_q.
  - cbn [DocSpec.q_only_first] in Hfirst. apply negb_true_iff in Hfirst.
    destruct (Ascii.eqb_spec c "q") as [->|Hne].
    + destruct rest as [|c2 rest2]; [discriminate Hu|].
      cbn [BuildSpec.q_then_u] in Hu. apply Ascii.eqb_eq in Hu. subst c2.
      cbn [DocSpec.has_q] in Hfirst. apply orb_false_iff in Hfirst.
      destruct Hfirst as (_ & Hrest).
      change (BuildSpec.collapse (String "q" (String "u" rest2)))
        with (String "q" rest2).
      destruct path as [|c0 path]; [split; discriminate|].
      rewrite spell_cons, read_cons. split.
      * intros (b & w & Hb & Hw & E). inversion E; subst b w.
        exists "q"%char, rest2. split; [exact Hb|].
        split; [now apply spell_read_no_q | reflexivity].
      * intros (b & w & Hb & Hw & E). unfold DocSpec.cell_letters in E.
        destruct (Ascii.eqb_spec b "q") as [->|Hb'].
        -- cbn [String.append] in E. inversion E; subst w.
           exists "q"%char, rest2. split; [exact Hb|].
           split; [now apply spell_read_no_q | reflexivity].
        -- cbn [String.append] in E. inversion E. congruence.
    + assert (Hq : (c =? "q")%char = false) by now apply Ascii.eqb_neq.
      rewrite (@collapse_not_q c rest Hq). apply spell_read_no_q.
      cbn [DocSpec.has_q]. now rewrite Hq, Hfirst.
Qed.

Lemma spellable_as_documented columns rows board w :
  BuildSpec.q_then_u w = true -> DocSpec.q_only_first w = true ->
  (PathSpec.spellable columns rows board (BuildSpec.collapse w) <->
   DocSpec.spellable columns rows board w).
Proof.
  intros Hu Hfirst. unfold PathSpec.spellable, DocSpec.spellable.
  split; intros (path & Hpath & Hsp); exists path; (split; [exact Hpath|]);
    now apply (@spell_as_documented board path w Hu Hfirst).
Qed.

(** C1.  For a solver built from a word list and a grid of exactly
    columns*rows ASCII letters, [Solve] returns (given enough fuel for its
    frontier loop) a strictly increasing sequence.  A word of the list is in
    it exactly when the loader accepts it and a simple path of adjacent
    cells spells, byte for byte on the lower-cased grid, the key stored for
    it, which is the word with a leading "qu" folded to "q"; the word is
    returned with the "qu" written back.  For every word without a 'q'
    after its first letter this is the reading of the documentation: the
    word is returned exactly when it is accepted and some simple path reads
    it with every 'q' cell counting for "qu".  A 'q' further inside a word
    is matched as the bare letter. *)
Theorem Solve_returns_exactly_the_spellable_words
    (U : Unicode) (xlen ylen : Z) (words : list string) (s : Solver)
    (grid : string) :
  New xlen ylen (Lines words None) = Done (Ok s) ->
  is_ascii grid = true ->
  go_string grid ->
  len grid = xlen * ylen ->
  exists ws,
    (exists fuel0, forall fuel, (fuel0 <= fuel)%nat ->
                                Solve fuel s grid = Done (Ok ws)) /\
    strictly_increasing ws /\
    (forall w,
        In w ws <->
        In w words /\ BuildSpec.accepted (xlen * ylen) w = true /\
        PathSpec.spellable xlen ylen (ToLower grid) (BuildSpec.collapse w)) /\
    (forall w,
        DocSpec.q_only_first w = true ->
        (In w ws <->
         In w words /\ BuildSpec.accepted (xlen * ylen) w = true /\
         DocSpec.spellable xlen ylen (ToLower grid) w)).
Proof.
  intros HNew Hascii Hint Hsize.
  destruct (@Solve_finds_words U xlen ylen words s grid HNew Hascii Hint Hsize)
    as (tree & ws & _ & Hrun & Hinc & _ & Hmem).
  exists ws. split; [eauto|]. split; [exact Hinc|]. split; [exact Hmem|].
  intros w Hfirst. rewrite Hmem.
  assert (Hagree : BuildSpec.accepted (xlen * ylen) w = true ->
            (PathSpec.spellable xlen ylen (ToLower grid) (BuildSpec.collapse w)
             <-> DocSpec.spellable xlen ylen (ToLower grid) w)).
  { intros Ha. apply spellable_as_documented; [|exact Hfirst].
    unfold BuildSpec.accepted in Ha. apply andb_true_iff in Ha. tauto. }
  split; intros (Hw & Ha & Hsp); (split; [exact Hw|]); (split; [exact Ha|]);
    now apply (Hagree Ha).
Qed.

Lemma Solve_returns_exactly_the_spellable_words_witness :
  exists ws,
    (exists fuel0, forall fuel, (fuel0 <= fuel)%nat ->
       Solve (U := ascii_only) fuel
             {| cols := 2; rows := 2;
                rt := Some {| radixtree.keys := ["abc"; "qab"; "cab"] |} |}
             "QABC" = Done (Ok ws)) /\
    strictly_increasing ws /\
    (forall w,
        In w ws <->
        In w ["abc"; "quab"; "Abc"; "ab"; "cab"; "qab"] /\
        BuildSpec.accepted (2 * 2) w = true /\
        PathSpec.spellable 2 2 (ToLower (U := ascii_only) "QABC")
          (BuildSpec.collapse w)) /\
    (forall w,
        DocSpec.q_only_first w = true ->
        (In w ws <->
         In w ["abc"; "quab"; "Abc"; "ab"; "cab"; "qab"] /\
         BuildSpec.accepted (2 * 2) w = true /\
         DocSpec.spellable 2 2 (ToLower (U := ascii_only) "QABC") w)).
Proof.
  apply (@Solve_returns_exactly_the_spellable_words
           ascii_only 2 2 ["abc"; "quab"; "Abc"; "ab"; "cab"; "qab"]).
  - reflexivity.
  - reflexivity.
  - vm_compute. discriminate.
  - reflexivity.
Defined.

Lemma adjacent_columns_apart columns a b :
  1 < Z.abs (a mod columns - b mod columns) -> ~ PathSpec.adjacent columns a b.
Proof.
  intros Hfar (_ & Hc & _). unfold AdjacencySpec.column in Hc. lia.
Qed.

(** C1 as stated fails for a word with a 'q' inside, in both directions.
    On the 3x2 grid "eqaxxl" the cells e, q, a, l form a simple path that
    reads "equal" when the 'q' cell counts for "qu", and "equal" is in the
    dictionary, yet [Solve] returns nothing.  On the 5x1 grid "equal" no
    simple path reads "equal" (the 'q' cell gives "qu" and the 'a' is not
    next to it), yet [Solve] returns "equal", found along e, q, u, a, l. *)
Lemma Solve_inner_qu_counterexample :
  DocSpec.q_only_first "equal" = false /\
  (New 3 2 (Lines ["equal"] None)
     = Done (Ok {| cols := 3; rows := 2;
                   rt := Some {| radixtree.keys := ["equal"] |} |}) /\
   BuildSpec.accepted (3 * 2) "equal" = true /\
   DocSpec.spellable 3 2 (ToLower (U := ascii_only) "eqaxxl") "equal" /\
   exists fuel0, forall fuel, (fuel0 <= fuel)%nat ->
     Solve (U := ascii_only) fuel
           {| cols := 3; rows := 2;
              rt := Some {| radixtree.keys := ["equal"] |} |} "eqaxxl"
       = Done (Ok [])) /\
  (New 5 1 (Lines ["equal"] None)
     = Done (Ok {| cols := 5; rows := 1;
                   rt := Some {| radixtree.keys := ["equal"] |} |}) /\
   ~ DocSpec.spellable 5 1 (ToLower (U := ascii_only) "equal") "equal" /\
   exists fuel0, forall fuel, (fuel0 <= fuel)%nat ->
     Solve (U := ascii_only) fuel
           {| cols := 5; rows := 1;
              rt := Some {| radixtree.keys := ["equal"] |} |} "equal"
       = Done (Ok ["equal"])).
Proof.
  assert (Hlong : radixtree.long_keys {| radixtree.keys := ["equal"] |}).
  { intros key [<-|[]]. cbn. lia. }
  assert (Hrun : forall (s : Solver) (grid : string),
             rt s = Some {| radixtree.keys := ["equal"] |} ->
             1 <= cols s -> 1 <= rows s -> is_ascii grid = true ->
             len grid = cols s * rows s -> len grid <= GoInt.max_int ->
             forall ws,
               Solve (U := ascii_only) (Nat.pow 9 (String.length grid - 1))
                     s grid = Done (Ok ws) ->
               exists fuel0, forall fuel, (fuel0 <= fuel)%nat ->
                 Solve (U := ascii_only) fuel s grid = Done (Ok ws)).
  { intros s grid Hrt Hc Hr Hascii Hsize Hint ws Hws.
    destruct (@Solve_finds_keys ascii_only s _ grid Hrt Hc Hr Hlong Hascii
                Hsize Hint) as (ws' & Hall & _).
    rewrite (Hall _ (Nat.le_refl _)) in Hws. inversion Hws; subst ws'.
    eauto. }
  split; [reflexivity|]. split.
  - split; [reflexivity|]. split; [reflexivity|]. split.
    + exists [0; 1; 2; 5]. split; [|reflexivity]. split; [|split].
      * repeat constructor; unfold PathSpec.on_board; lia.
      * repeat constructor; cbn [In]; intuition lia.
      * do 3 (apply PathSpec.stepwise_cons;
                [unfold PathSpec.adjacent, AdjacencySpec.column,
                   AdjacencySpec.row;
                 split; [lia|]; split; vm_compute; discriminate|]).
        apply PathSpec.stepwise_one.
    + apply Hrun; vm_compute; first [reflexivity | discriminate].
  - split; [reflexivity|]. split.
    + change (ToLower (U := ascii_only) "equal") with "equal".
      intros (path & (Hon & _ & Hstep) & Hread).
      destruct path as [|c1 path]; [discriminate Hread|].
      apply read_cons in Hread. destruct Hread as (b1 & w1 & Hb1 & Hr1 & E1).
      inversion Hon as [|? ? Hc1 Hon1]; subst.
      unfold PathSpec.on_board in Hc1.
      assert (Hv1 : c1 = 0 \/ c1 = 1 \/ c1 = 2 \/ c1 = 3 \/ c1 = 4) by lia.
      destruct Hv1 as [-> | [-> | [-> | [-> | ->]]]];
        cbn in Hb1; inversion Hb1; subst b1; cbn in E1;
        try discriminate E1.
      inversion E1; subst w1. clear E1 Hb1.
      destruct path as [|c2 path]; [discriminate Hr1|].
      apply read_cons in Hr1. destruct Hr1 as (b2 & w2 & Hb2 & Hr2 & E2).
      inversion Hon1 as [|? ? Hc2 Hon2]; subst.
      unfold PathSpec.on_board in Hc2.
      assert (Hv2 : c2 = 0 \/ c2 = 1 \/ c2 = 2 \/ c2 = 3 \/ c2 = 4) by lia.
      destruct Hv2 as [-> | [-> | [-> | [-> | ->]]]];
        cbn in Hb2; inversion Hb2; subst b2; cbn in E2;
        try discriminate E2.
      inversion E2; subst w2. clear E2 Hb2.
      destruct path as [|c3 path]; [discriminate Hr2|].
      apply read_cons in Hr2. destruct Hr2 as (b3 & w3 & Hb3 & Hr3 & E3).
      inversion Hon2 as [|? ? Hc3 Hon3]; subst.
      unfold PathSpec.on_board in Hc3.
      assert (Hv3 : c3 = 0 \/ c3 = 1 \/ c3 = 2 \/ c3 = 3 \/ c3 = 4) by lia.
      destruct Hv3 as [-> | [-> | [-> | [-> | ->]]]];
        cbn in Hb3; inversion Hb3; subst b3; cbn in E3;
        try discriminate E3.
      apply stepwise_tail in Hstep. apply stepwise_cons_iff in Hstep.
      destruct Hstep as (Hadj & _).
      revert Hadj. apply adjacent_columns_apart. vm_compute. reflexivity.
    + apply Hrun; vm_compute; first [reflexivity | discriminate].
Qed.
